(** * Round-robin league manager (src/App.tsx): model and verified properties

    The application is one React component whose state is a set of
    [useState] cells plus the module-level counter [globalIdCounter].
    Every handler runs to completion inside one UI callback, so the
    component is modelled as a record [State] and every handler as a
    function on it (explicit state passing).

    Conventions of the embedding.
    - A JavaScript [number] that holds a score, a goal tally or a table
      entry is an integer, modelled by [Z].  Non-integral values and the
      [NaN] that [parseInt] yields on a non-numeric string are outside the
      model: handlers whose source calls [parseInt] receive the parsed
      value.  The numbers of the source are doubles, whose sums and
      differences are those of [Z] as long as every operand and result
      has magnitude at most 2^53; larger scores and tallies are outside
      the model.
    - A string is a [string] of the bytes of its UTF-8 encoding.  The
      order of [Array.prototype.sort] is that of UTF-16 code units, which
      is the order of the bytes unless one name holds a character outside
      the Basic Multilingual Plane and the other one of U+E000..U+FFFF at
      the first difference; [String.prototype.trim] is modelled on the
      ASCII white space.
    - [number | ''] (a score that may be unset) is [option Z]; [None] is
      the empty string.
    - An optional field ([originalScores?]) is an [option]; the optional
      booleans [isEditing?] and [goalScorerMismatch?] are only ever tested
      for truthiness, so [undefined] and [false] are both [false].
    - Arrays are lists, array indices are [nat]; [Set<string>] is
      [gset string] (the order of insertion, which only the stored JSON
      text shows, is not kept); the object used as a dictionary of stored
      leagues is [gmap string SavedLeagueState], the map of its own keys.
      [savedLeagues[leagueName]] is read as a lookup among the own keys;
      for a name that [Object.prototype] defines ([inheritedName]) and
      that no league is stored under, the source finds the inherited
      property instead, and such names are outside the model of
      [handleSaveLeagueConfirm] and [handleLoadLeague].
    - A handler of the league view returns [None] where the JavaScript
      code would throw a [TypeError] by reading a property of [undefined],
      or would return normally with an object that the TypeScript record
      type excludes (a result or a scorer written at an index outside
      the array, which lacks the fields of the record): [None] marks an
      input outside the model, not a failure of the source.  The handlers
      of the setup screens, which can throw after they have queued state
      updates, return an [Outcome] that keeps those updates. *)

From Stdlib Require Import ZArith Lia Sorting.Sorted.
From stdpp Require Import base option list gmap strings sorting pretty.

(** ** Data model (interfaces of App.tsx, lines 7-68) *)

Record Player := mkPlayer {
  player_id : string;
  player_name : string
}.

Record Team := mkTeam {
  team_id : string;
  team_name : string;
  players : list Player
}.

Record TeamStat := mkTeamStat {
  name : string;
  played : Z;
  wins : Z;
  draws : Z;
  losses : Z;
  gf : Z;
  ga : Z;
  gd : Z;
  points : Z
}.

Record ScorerEntry := mkScorerEntry {
  playerId : string;
  playerName : string;
  goals : Z
}.

(** [number | '']. *)
Definition Score := option Z.

Record MatchResult := mkMatchResult {
  team1Id : string;
  team2Id : string;
  team1Score : Score;
  team2Score : Score;
  team1GoalScorers : list ScorerEntry;
  team2GoalScorers : list ScorerEntry;
  saved : bool;
  goalScorerMismatch : bool;
  isEditing : bool;
  originalScores : option (Score * Score);
  originalGoalScorers : option (list ScorerEntry * list ScorerEntry)
}.

(** ** Array helpers: [Array.prototype.find] and [findIndex] *)

Fixpoint find {A} (p : A -> bool) (l : list A) : option A :=
  match l with
  | [] => None
  | x :: l' => if p x then Some x else find p l'
  end.

(** [None] stands for the index [-1]. *)
Fixpoint findIndex {A} (p : A -> bool) (l : list A) : option nat :=
  match l with
  | [] => None
  | x :: l' => if p x then Some 0 else S <$> findIndex p l'
  end.

(** ** Standings accumulator (App.tsx, lines 291-335) *)

(** The inner closure [updateStatEntry]; the source mutates the copy it
    was handed, here the updated copy is returned.  The arithmetic is
    that of the integers (see the conventions above). *)
Definition updateStatEntry (teamStat : TeamStat)
    (currentScore opponentScore mult : Z) : TeamStat :=
  let played' := (played teamStat + 1 * mult)%Z in
  let gf' := (gf teamStat + currentScore * mult)%Z in
  let ga' := (ga teamStat + opponentScore * mult)%Z in
  let '(wins', losses', draws', points') :=
    if (opponentScore <? currentScore)%Z then
      ((wins teamStat + 1 * mult)%Z, losses teamStat, draws teamStat,
       (points teamStat + 3 * mult)%Z)
    else if (currentScore <? opponentScore)%Z then
      (wins teamStat, (losses teamStat + 1 * mult)%Z, draws teamStat,
       points teamStat)
    else
      (wins teamStat, losses teamStat, (draws teamStat + 1 * mult)%Z,
       (points teamStat + 1 * mult)%Z) in
  {| name := name teamStat;
     played := played';
     wins := wins';
     draws := draws';
     losses := losses';
     gf := gf';
     ga := ga';
     gd := (gf' - ga')%Z;
     points := points' |}.

Definition applyMatchStatsToTeams (stats : list TeamStat)
    (match_ : MatchResult) (submittedTeams : list Team)
    (multiplier : Z) : list TeamStat :=
  match team1Score match_, team2Score match_ with
  | Some score1, Some score2 =>
    let team1 :=
      find (fun t => String.eqb (team_id t) (team1Id match_)) submittedTeams in
    let team2 :=
      find (fun t => String.eqb (team_id t) (team2Id match_)) submittedTeams in
    match team1, team2 with
    | Some team1, Some team2 =>
      let team1Index :=
        findIndex (fun t => String.eqb (name t) (team_name team1)) stats in
      let team2Index :=
        findIndex (fun t => String.eqb (name t) (team_name team2)) stats in
      let newStats :=
        match team1Index with
        | Some i =>
            alter (fun t => updateStatEntry t score1 score2 multiplier) i stats
        | None => stats
        end in
      match team2Index with
      | Some i =>
          alter (fun t => updateStatEntry t score2 score1 multiplier) i newStats
      | None => newStats
      end
    | _, _ => stats
    end
  | _, _ => stats
  end.

(** Functional update of one field of a [MatchResult]
    (the [{ ...m, field: v }] spread of the source). *)

Definition set_team1Score (v : Score) (r : MatchResult) : MatchResult :=
  mkMatchResult (team1Id r) (team2Id r) v (team2Score r) (team1GoalScorers
    r) (team2GoalScorers r) (saved r) (goalScorerMismatch r) (isEditing r)
    (originalScores r) (originalGoalScorers r).

Definition set_team2Score (v : Score) (r : MatchResult) : MatchResult :=
  mkMatchResult (team1Id r) (team2Id r) (team1Score r) v (team1GoalScorers
    r) (team2GoalScorers r) (saved r) (goalScorerMismatch r) (isEditing r)
    (originalScores r) (originalGoalScorers r).

Definition set_team1GoalScorers (v : list ScorerEntry) (r : MatchResult) : MatchResult :=
  mkMatchResult (team1Id r) (team2Id r) (team1Score r) (team2Score r) v
    (team2GoalScorers r) (saved r) (goalScorerMismatch r) (isEditing r)
    (originalScores r) (originalGoalScorers r).

Definition set_team2GoalScorers (v : list ScorerEntry) (r : MatchResult) : MatchResult :=
  mkMatchResult (team1Id r) (team2Id r) (team1Score r) (team2Score r)
    (team1GoalScorers r) v (saved r) (goalScorerMismatch r) (isEditing r)
    (originalScores r) (originalGoalScorers r).

Definition set_saved (v : bool) (r : MatchResult) : MatchResult :=
  mkMatchResult (team1Id r) (team2Id r) (team1Score r) (team2Score r)
    (team1GoalScorers r) (team2GoalScorers r) v (goalScorerMismatch r)
    (isEditing r) (originalScores r) (originalGoalScorers r).

Definition set_goalScorerMismatch (v : bool) (r : MatchResult) : MatchResult :=
  mkMatchResult (team1Id r) (team2Id r) (team1Score r) (team2Score r)
    (team1GoalScorers r) (team2GoalScorers r) (saved r) v (isEditing r)
    (originalScores r) (originalGoalScorers r).

Definition set_isEditing (v : bool) (r : MatchResult) : MatchResult :=
  mkMatchResult (team1Id r) (team2Id r) (team1Score r) (team2Score r)
    (team1GoalScorers r) (team2GoalScorers r) (saved r) (goalScorerMismatch
    r) v (originalScores r) (originalGoalScorers r).

Definition set_originalScores (v : option (Score * Score)) (r : MatchResult) : MatchResult :=
  mkMatchResult (team1Id r) (team2Id r) (team1Score r) (team2Score r)
    (team1GoalScorers r) (team2GoalScorers r) (saved r) (goalScorerMismatch
    r) (isEditing r) v (originalGoalScorers r).

Definition set_originalGoalScorers (v : option (list ScorerEntry * list ScorerEntry)) (r : MatchResult) : MatchResult :=
  mkMatchResult (team1Id r) (team2Id r) (team1Score r) (team2Score r)
    (team1GoalScorers r) (team2GoalScorers r) (saved r) (goalScorerMismatch
    r) (isEditing r) (originalScores r) v.

(** ** Application state (the [useState] cells, lines 70-102) *)

Inductive AppStage :=
  | initialScreen
  | setupCounts
  | namingTeamsAndPlayers
  | loadLeagueOptions.

Inductive ModalType := alert | confirm.

(** ['matches' | 'topScorers' | 'matchResultsSummary']. *)
Inductive LeagueView := viewMatches | viewTopScorers | viewMatchResultsSummary.

(** The texts shown in the warning modal.  Only which text is shown
    matters; each constructor names one literal of the source. *)
Inductive Message :=
  | msgNone                (* the empty string *)
  | msgEnterBothScores     (* handleSaveResult, line 340 *)
  | msgGoalsMismatch       (* handleSaveResult, line 360 *)
  | msgNoSavedLeague       (* handleContinueLeague, line 512 *)
  | msgEnterLeagueName     (* handleSaveLeagueConfirm, line 680 *)
  | msgUnnamedEntries.     (* handleStartGamesClick, lines 609-618 *)

Record SavedLeagueState := mkSavedLeagueState {
  saved_numTeams : nat;
  saved_numPlayersPerTeam : nat;
  saved_submittedTeamData : list Team;
  saved_matchResults : list MatchResult;
  saved_teamStats : list TeamStat;
  saved_roundNumber : nat;
  saved_allPlayedPairs : list string;
  saved_globalIdCounterValue : nat
}.

(** [matches] is a [string[][]] whose rows are always built as
    [[team1Name, team2Name]]; a row is a pair here. *)
Record State := mkState {
  numTeams : nat;
  numPlayersPerTeam : nat;
  teamData : list Team;
  submittedTeamData : list Team;
  matches : list (string * string);
  matchResults : list MatchResult;
  teamStats : list TeamStat;
  roundNumber : nat;
  allPlayedPairs : gset string;
  appStage : AppStage;
  currentTeamIndex : nat;
  savedLeagues : gmap string SavedLeagueState;
  currentLeagueName : option string;
  showSaveLeagueModal : bool;
  saveLeagueInputName : string;
  showOverwriteConfirm : bool;
  leagueNameToOverwrite : string;
  showWarningModal : bool;
  warningMessage : Message;
  warningModalType : ModalType;
  activeLeagueView : LeagueView;
  currentMatchViewIndex : nat;
  globalIdCounter : nat
}.

(** The setters [setX] returned by [useState], and the assignment to
    [globalIdCounter]. *)

Definition set_numTeams (v : nat) (s : State) : State :=
  mkState v (numPlayersPerTeam s) (teamData s) (submittedTeamData s)
    (matches s) (matchResults s) (teamStats s) (roundNumber s)
    (allPlayedPairs s) (appStage s) (currentTeamIndex s) (savedLeagues s)
    (currentLeagueName s) (showSaveLeagueModal s) (saveLeagueInputName s)
    (showOverwriteConfirm s) (leagueNameToOverwrite s) (showWarningModal s)
    (warningMessage s) (warningModalType s) (activeLeagueView s)
    (currentMatchViewIndex s) (globalIdCounter s).

Definition set_numPlayersPerTeam (v : nat) (s : State) : State :=
  mkState (numTeams s) v (teamData s) (submittedTeamData s) (matches s)
    (matchResults s) (teamStats s) (roundNumber s) (allPlayedPairs s)
    (appStage s) (currentTeamIndex s) (savedLeagues s) (currentLeagueName s)
    (showSaveLeagueModal s) (saveLeagueInputName s) (showOverwriteConfirm s)
    (leagueNameToOverwrite s) (showWarningModal s) (warningMessage s)
    (warningModalType s) (activeLeagueView s) (currentMatchViewIndex s)
    (globalIdCounter s).

Definition set_teamData (v : list Team) (s : State) : State :=
  mkState (numTeams s) (numPlayersPerTeam s) v (submittedTeamData s)
    (matches s) (matchResults s) (teamStats s) (roundNumber s)
    (allPlayedPairs s) (appStage s) (currentTeamIndex s) (savedLeagues s)
    (currentLeagueName s) (showSaveLeagueModal s) (saveLeagueInputName s)
    (showOverwriteConfirm s) (leagueNameToOverwrite s) (showWarningModal s)
    (warningMessage s) (warningModalType s) (activeLeagueView s)
    (currentMatchViewIndex s) (globalIdCounter s).

Definition set_submittedTeamData (v : list Team) (s : State) : State :=
  mkState (numTeams s) (numPlayersPerTeam s) (teamData s) v (matches s)
    (matchResults s) (teamStats s) (roundNumber s) (allPlayedPairs s)
    (appStage s) (currentTeamIndex s) (savedLeagues s) (currentLeagueName s)
    (showSaveLeagueModal s) (saveLeagueInputName s) (showOverwriteConfirm s)
    (leagueNameToOverwrite s) (showWarningModal s) (warningMessage s)
    (warningModalType s) (activeLeagueView s) (currentMatchViewIndex s)
    (globalIdCounter s).

Definition set_matches (v : list (string * string)) (s : State) : State :=
  mkState (numTeams s) (numPlayersPerTeam s) (teamData s) (submittedTeamData
    s) v (matchResults s) (teamStats s) (roundNumber s) (allPlayedPairs s)
    (appStage s) (currentTeamIndex s) (savedLeagues s) (currentLeagueName s)
    (showSaveLeagueModal s) (saveLeagueInputName s) (showOverwriteConfirm s)
    (leagueNameToOverwrite s) (showWarningModal s) (warningMessage s)
    (warningModalType s) (activeLeagueView s) (currentMatchViewIndex s)
    (globalIdCounter s).

Definition set_matchResults (v : list MatchResult) (s : State) : State :=
  mkState (numTeams s) (numPlayersPerTeam s) (teamData s) (submittedTeamData
    s) (matches s) v (teamStats s) (roundNumber s) (allPlayedPairs s)
    (appStage s) (currentTeamIndex s) (savedLeagues s) (currentLeagueName s)
    (showSaveLeagueModal s) (saveLeagueInputName s) (showOverwriteConfirm s)
    (leagueNameToOverwrite s) (showWarningModal s) (warningMessage s)
    (warningModalType s) (activeLeagueView s) (currentMatchViewIndex s)
    (globalIdCounter s).

Definition set_teamStats (v : list TeamStat) (s : State) : State :=
  mkState (numTeams s) (numPlayersPerTeam s) (teamData s) (submittedTeamData
    s) (matches s) (matchResults s) v (roundNumber s) (allPlayedPairs s)
    (appStage s) (currentTeamIndex s) (savedLeagues s) (currentLeagueName s)
    (showSaveLeagueModal s) (saveLeagueInputName s) (showOverwriteConfirm s)
    (leagueNameToOverwrite s) (showWarningModal s) (warningMessage s)
    (warningModalType s) (activeLeagueView s) (currentMatchViewIndex s)
    (globalIdCounter s).

Definition set_roundNumber (v : nat) (s : State) : State :=
  mkState (numTeams s) (numPlayersPerTeam s) (teamData s) (submittedTeamData
    s) (matches s) (matchResults s) (teamStats s) v (allPlayedPairs s)
    (appStage s) (currentTeamIndex s) (savedLeagues s) (currentLeagueName s)
    (showSaveLeagueModal s) (saveLeagueInputName s) (showOverwriteConfirm s)
    (leagueNameToOverwrite s) (showWarningModal s) (warningMessage s)
    (warningModalType s) (activeLeagueView s) (currentMatchViewIndex s)
    (globalIdCounter s).

Definition set_allPlayedPairs (v : gset string) (s : State) : State :=
  mkState (numTeams s) (numPlayersPerTeam s) (teamData s) (submittedTeamData
    s) (matches s) (matchResults s) (teamStats s) (roundNumber s) v
    (appStage s) (currentTeamIndex s) (savedLeagues s) (currentLeagueName s)
    (showSaveLeagueModal s) (saveLeagueInputName s) (showOverwriteConfirm s)
    (leagueNameToOverwrite s) (showWarningModal s) (warningMessage s)
    (warningModalType s) (activeLeagueView s) (currentMatchViewIndex s)
    (globalIdCounter s).

Definition set_appStage (v : AppStage) (s : State) : State :=
  mkState (numTeams s) (numPlayersPerTeam s) (teamData s) (submittedTeamData
    s) (matches s) (matchResults s) (teamStats s) (roundNumber s)
    (allPlayedPairs s) v (currentTeamIndex s) (savedLeagues s)
    (currentLeagueName s) (showSaveLeagueModal s) (saveLeagueInputName s)
    (showOverwriteConfirm s) (leagueNameToOverwrite s) (showWarningModal s)
    (warningMessage s) (warningModalType s) (activeLeagueView s)
    (currentMatchViewIndex s) (globalIdCounter s).

Definition set_currentTeamIndex (v : nat) (s : State) : State :=
  mkState (numTeams s) (numPlayersPerTeam s) (teamData s) (submittedTeamData
    s) (matches s) (matchResults s) (teamStats s) (roundNumber s)
    (allPlayedPairs s) (appStage s) v (savedLeagues s) (currentLeagueName s)
    (showSaveLeagueModal s) (saveLeagueInputName s) (showOverwriteConfirm s)
    (leagueNameToOverwrite s) (showWarningModal s) (warningMessage s)
    (warningModalType s) (activeLeagueView s) (currentMatchViewIndex s)
    (globalIdCounter s).

Definition set_savedLeagues (v : gmap string SavedLeagueState) (s : State) : State :=
  mkState (numTeams s) (numPlayersPerTeam s) (teamData s) (submittedTeamData
    s) (matches s) (matchResults s) (teamStats s) (roundNumber s)
    (allPlayedPairs s) (appStage s) (currentTeamIndex s) v
    (currentLeagueName s) (showSaveLeagueModal s) (saveLeagueInputName s)
    (showOverwriteConfirm s) (leagueNameToOverwrite s) (showWarningModal s)
    (warningMessage s) (warningModalType s) (activeLeagueView s)
    (currentMatchViewIndex s) (globalIdCounter s).

Definition set_currentLeagueName (v : option string) (s : State) : State :=
  mkState (numTeams s) (numPlayersPerTeam s) (teamData s) (submittedTeamData
    s) (matches s) (matchResults s) (teamStats s) (roundNumber s)
    (allPlayedPairs s) (appStage s) (currentTeamIndex s) (savedLeagues s) v
    (showSaveLeagueModal s) (saveLeagueInputName s) (showOverwriteConfirm s)
    (leagueNameToOverwrite s) (showWarningModal s) (warningMessage s)
    (warningModalType s) (activeLeagueView s) (currentMatchViewIndex s)
    (globalIdCounter s).

Definition set_showSaveLeagueModal (v : bool) (s : State) : State :=
  mkState (numTeams s) (numPlayersPerTeam s) (teamData s) (submittedTeamData
    s) (matches s) (matchResults s) (teamStats s) (roundNumber s)
    (allPlayedPairs s) (appStage s) (currentTeamIndex s) (savedLeagues s)
    (currentLeagueName s) v (saveLeagueInputName s) (showOverwriteConfirm s)
    (leagueNameToOverwrite s) (showWarningModal s) (warningMessage s)
    (warningModalType s) (activeLeagueView s) (currentMatchViewIndex s)
    (globalIdCounter s).

Definition set_saveLeagueInputName (v : string) (s : State) : State :=
  mkState (numTeams s) (numPlayersPerTeam s) (teamData s) (submittedTeamData
    s) (matches s) (matchResults s) (teamStats s) (roundNumber s)
    (allPlayedPairs s) (appStage s) (currentTeamIndex s) (savedLeagues s)
    (currentLeagueName s) (showSaveLeagueModal s) v (showOverwriteConfirm s)
    (leagueNameToOverwrite s) (showWarningModal s) (warningMessage s)
    (warningModalType s) (activeLeagueView s) (currentMatchViewIndex s)
    (globalIdCounter s).

Definition set_showOverwriteConfirm (v : bool) (s : State) : State :=
  mkState (numTeams s) (numPlayersPerTeam s) (teamData s) (submittedTeamData
    s) (matches s) (matchResults s) (teamStats s) (roundNumber s)
    (allPlayedPairs s) (appStage s) (currentTeamIndex s) (savedLeagues s)
    (currentLeagueName s) (showSaveLeagueModal s) (saveLeagueInputName s) v
    (leagueNameToOverwrite s) (showWarningModal s) (warningMessage s)
    (warningModalType s) (activeLeagueView s) (currentMatchViewIndex s)
    (globalIdCounter s).

Definition set_leagueNameToOverwrite (v : string) (s : State) : State :=
  mkState (numTeams s) (numPlayersPerTeam s) (teamData s) (submittedTeamData
    s) (matches s) (matchResults s) (teamStats s) (roundNumber s)
    (allPlayedPairs s) (appStage s) (currentTeamIndex s) (savedLeagues s)
    (currentLeagueName s) (showSaveLeagueModal s) (saveLeagueInputName s)
    (showOverwriteConfirm s) v (showWarningModal s) (warningMessage s)
    (warningModalType s) (activeLeagueView s) (currentMatchViewIndex s)
    (globalIdCounter s).

Definition set_showWarningModal (v : bool) (s : State) : State :=
  mkState (numTeams s) (numPlayersPerTeam s) (teamData s) (submittedTeamData
    s) (matches s) (matchResults s) (teamStats s) (roundNumber s)
    (allPlayedPairs s) (appStage s) (currentTeamIndex s) (savedLeagues s)
    (currentLeagueName s) (showSaveLeagueModal s) (saveLeagueInputName s)
    (showOverwriteConfirm s) (leagueNameToOverwrite s) v (warningMessage s)
    (warningModalType s) (activeLeagueView s) (currentMatchViewIndex s)
    (globalIdCounter s).

Definition set_warningMessage (v : Message) (s : State) : State :=
  mkState (numTeams s) (numPlayersPerTeam s) (teamData s) (submittedTeamData
    s) (matches s) (matchResults s) (teamStats s) (roundNumber s)
    (allPlayedPairs s) (appStage s) (currentTeamIndex s) (savedLeagues s)
    (currentLeagueName s) (showSaveLeagueModal s) (saveLeagueInputName s)
    (showOverwriteConfirm s) (leagueNameToOverwrite s) (showWarningModal s)
    v (warningModalType s) (activeLeagueView s) (currentMatchViewIndex s)
    (globalIdCounter s).

Definition set_warningModalType (v : ModalType) (s : State) : State :=
  mkState (numTeams s) (numPlayersPerTeam s) (teamData s) (submittedTeamData
    s) (matches s) (matchResults s) (teamStats s) (roundNumber s)
    (allPlayedPairs s) (appStage s) (currentTeamIndex s) (savedLeagues s)
    (currentLeagueName s) (showSaveLeagueModal s) (saveLeagueInputName s)
    (showOverwriteConfirm s) (leagueNameToOverwrite s) (showWarningModal s)
    (warningMessage s) v (activeLeagueView s) (currentMatchViewIndex s)
    (globalIdCounter s).

Definition set_activeLeagueView (v : LeagueView) (s : State) : State :=
  mkState (numTeams s) (numPlayersPerTeam s) (teamData s) (submittedTeamData
    s) (matches s) (matchResults s) (teamStats s) (roundNumber s)
    (allPlayedPairs s) (appStage s) (currentTeamIndex s) (savedLeagues s)
    (currentLeagueName s) (showSaveLeagueModal s) (saveLeagueInputName s)
    (showOverwriteConfirm s) (leagueNameToOverwrite s) (showWarningModal s)
    (warningMessage s) (warningModalType s) v (currentMatchViewIndex s)
    (globalIdCounter s).

Definition set_currentMatchViewIndex (v : nat) (s : State) : State :=
  mkState (numTeams s) (numPlayersPerTeam s) (teamData s) (submittedTeamData
    s) (matches s) (matchResults s) (teamStats s) (roundNumber s)
    (allPlayedPairs s) (appStage s) (currentTeamIndex s) (savedLeagues s)
    (currentLeagueName s) (showSaveLeagueModal s) (saveLeagueInputName s)
    (showOverwriteConfirm s) (leagueNameToOverwrite s) (showWarningModal s)
    (warningMessage s) (warningModalType s) (activeLeagueView s) v
    (globalIdCounter s).

Definition set_globalIdCounter (v : nat) (s : State) : State :=
  mkState (numTeams s) (numPlayersPerTeam s) (teamData s) (submittedTeamData
    s) (matches s) (matchResults s) (teamStats s) (roundNumber s)
    (allPlayedPairs s) (appStage s) (currentTeamIndex s) (savedLeagues s)
    (currentLeagueName s) (showSaveLeagueModal s) (saveLeagueInputName s)
    (showOverwriteConfirm s) (leagueNameToOverwrite s) (showWarningModal s)
    (warningMessage s) (warningModalType s) (activeLeagueView s)
    (currentMatchViewIndex s) v.

(** ** Helpers (lines 139-149) *)

(** [[teamA, teamB].sort()] orders the two names by code units; on the
    strings of the model this is [String.ltb]. *)
Definition normalizePair (teamA teamB : string) : string :=
  let sortedNames :=
    if String.ltb teamB teamA then (teamB, teamA) else (teamA, teamB) in
  sortedNames.1 +:+ "-" +:+ sortedNames.2.

Definition findFirstUnsavedMatchIndex (results : list MatchResult) : nat :=
  match findIndex (fun m => negb (saved m)) results with
  | Some firstUnsavedIndex => firstUnsavedIndex
  | None => 0
  end.

(** ** Fixture generator (lines 152-188) *)

(** The two nested [for] loops: [i] runs over [0 .. n-1], [j] over
    [i+1 .. n-1], and every iteration pushes [[teamNames[i], teamNames[j]]]. *)
Definition roundRobinLoops (teamNames : list string) : list (string * string) :=
  foldl (fun newMatches i =>
           foldl (fun newMatches j =>
                    newMatches ++ [(teamNames !!! i, teamNames !!! j)])
                 newMatches
                 (seq (i + 1) (length teamNames - (i + 1))))
        [] (seq 0 (length teamNames)).

(** The callback of [newMatches.map]; [team1?.id || ''] is the id of the
    team found, or the empty string. *)
Definition newMatchResult (teams : list Team) (match_ : string * string)
    : MatchResult :=
  let team1 := find (fun t => String.eqb (team_name t) match_.1) teams in
  let team2 := find (fun t => String.eqb (team_name t) match_.2) teams in
  {| team1Id := from_option team_id "" team1;
     team2Id := from_option team_id "" team2;
     team1Score := None;
     team2Score := None;
     team1GoalScorers := [];
     team2GoalScorers := [];
     saved := false;
     goalScorerMismatch := false;
     isEditing := false;
     originalScores := None;
     originalGoalScorers := None |}.

(** Returns the state after the [set...] calls of the early exit together
    with the object [{ newMatches, newMatchResults }]. *)
Definition generateAllRoundRobinMatches (teams : list Team) (st : State)
    : State * (list (string * string) * list MatchResult) :=
  let teamNames := map team_name teams in
  if length teamNames <? 2 then
    (set_allPlayedPairs ∅ (set_matchResults [] (set_matches [] st)), ([], []))
  else
    let newMatches := roundRobinLoops teamNames in
    let newMatchResults := map (newMatchResult teams) newMatches in
    (st, (newMatches, newMatchResults)).

(** ** Match result ledger (lines 195-288) *)

(** ['team1' | 'team2'] and [1 | 2]. *)
Inductive Side := Side1 | Side2.

Definition sideScorers (teamNum : Side) (r : MatchResult) : list ScorerEntry :=
  match teamNum with
  | Side1 => team1GoalScorers r
  | Side2 => team2GoalScorers r
  end.

Definition set_sideScorers (teamNum : Side) (v : list ScorerEntry)
    (r : MatchResult) : MatchResult :=
  match teamNum with
  | Side1 => set_team1GoalScorers v r
  | Side2 => set_team2GoalScorers v r
  end.

Definition set_goals (v : Z) (e : ScorerEntry) : ScorerEntry :=
  mkScorerEntry (playerId e) (playerName e) v.

(** [value] is the input's text after
    [value === '' ? '' : parseInt(value, 10)]. *)
Definition handleScoreChange (matchIndex : nat) (team : Side) (value : Score)
    (st : State) : option State :=
  r ← matchResults st !! matchIndex;
  let r' :=
    match team with
    | Side1 => set_team1Score value r
    | Side2 => set_team2Score value r
    end in
  Some (set_matchResults
          (<[matchIndex := set_goalScorerMismatch false r']> (matchResults st))
          st).

(** [value] is [None] for the empty text, which counts as 0 goals, and
    the parsed number otherwise.  For a [scorerIndex] outside the list
    the source returns normally after writing the object [{goals}],
    which has no [playerId] and no [playerName], at that index; the
    model has no such entry and gives [None] there. *)
Definition handlePlayerGoalChange (matchIndex : nat) (teamNum : Side)
    (scorerIndex : nat) (value : option Z) (st : State) : option State :=
  currentMatchResult ← matchResults st !! matchIndex;
  let goals := default 0%Z value in
  let newGoalScorers := sideScorers teamNum currentMatchResult in
  e ← newGoalScorers !! scorerIndex;
  let newGoalScorers := <[scorerIndex := set_goals goals e]> newGoalScorers in
  let currentMatchResult :=
    set_goalScorerMismatch false
      (set_sideScorers teamNum newGoalScorers currentMatchResult) in
  Some (set_matchResults
          (<[matchIndex := currentMatchResult]> (matchResults st)) st).

Definition handleSelectGoalScorer (matchIndex : nat) (teamNum : Side)
    (selectedId : string) (st : State) : option State :=
  if String.eqb selectedId "" then Some st
  else
    currentMatchResult ← matchResults st !! matchIndex;
    let teamIdToFind :=
      match teamNum with
      | Side1 => team1Id currentMatchResult
      | Side2 => team2Id currentMatchResult
      end in
    let teamPlayers :=
      from_option players []
        (find (fun t => String.eqb (team_id t) teamIdToFind)
              (submittedTeamData st)) in
    let newGoalScorers := sideScorers teamNum currentMatchResult in
    let newGoalScorers :=
      if existsb (fun scorer => String.eqb (playerId scorer) selectedId)
                 newGoalScorers
      then newGoalScorers
      else
        match find (fun p => String.eqb (player_id p) selectedId) teamPlayers with
        | Some player =>
            newGoalScorers ++
              [{| playerId := player_id player;
                  playerName := player_name player;
                  goals := 1 |}]
        | None => newGoalScorers
        end in
    let currentMatchResult :=
      set_goalScorerMismatch false
        (set_sideScorers teamNum newGoalScorers currentMatchResult) in
    Some (set_matchResults
            (<[matchIndex := currentMatchResult]> (matchResults st)) st).

Definition handleRemoveGoalScorer (matchIndex : nat) (teamNum : Side)
    (scorerIdToRemove : string) (st : State) : option State :=
  currentMatchResult ← matchResults st !! matchIndex;
  let newGoalScorers :=
    List.filter (fun s => negb (String.eqb (playerId s) scorerIdToRemove))
                (sideScorers teamNum currentMatchResult) in
  let currentMatchResult :=
    set_goalScorerMismatch false
      (set_sideScorers teamNum newGoalScorers currentMatchResult) in
  Some (set_matchResults
          (<[matchIndex := currentMatchResult]> (matchResults st)) st).

(** ** Saving, editing and cancelling a result (lines 337-465) *)

(** [scorers.reduce((sum, p) => sum + p.goals, 0)]. *)
Definition goalsSum (scorers : list ScorerEntry) : Z :=
  foldl (fun sum p => (sum + goals p)%Z) 0%Z scorers.

(** The three [set...] calls that open the warning modal as an alert. *)
Definition showWarning (msg : Message) (st : State) : State :=
  set_showWarningModal true (set_warningModalType alert
    (set_warningMessage msg st)).

(** The source reads [matches[matchIndex]] after it has queued the new
    table and the new results; on a missing fixture the read throws.
    The control that fires the handler is rendered from that very
    fixture, so the case does not arise from the user interface
    ([enabled_handle] below). *)
Definition handleSaveResult (matchIndex : nat) (st : State) : option State :=
  resultToSave ← matchResults st !! matchIndex;
  match team1Score resultToSave, team2Score resultToSave with
  | Some score1, Some score2 =>
    let mismatch :=
      if 0 <? numPlayersPerTeam st then
        let team1GoalsSum := goalsSum (team1GoalScorers resultToSave) in
        let team2GoalsSum := goalsSum (team2GoalScorers resultToSave) in
        negb (team1GoalsSum =? score1)%Z || negb (team2GoalsSum =? score2)%Z
      else false in
    if mismatch then
      Some (set_matchResults
              (<[matchIndex := set_goalScorerMismatch true resultToSave]>
                 (matchResults st))
              (showWarning msgGoalsMismatch st))
    else
      let currentStats := teamStats st in
      let currentStats :=
        match originalScores resultToSave with
        | Some original =>
          if saved resultToSave && isEditing resultToSave then
            let originalMatchDataToRevert :=
              set_team2Score original.2
                (set_team1Score original.1 resultToSave) in
            applyMatchStatsToTeams currentStats originalMatchDataToRevert
              (submittedTeamData st) (-1)
          else currentStats
        | None => currentStats
        end in
      let currentStats :=
        applyMatchStatsToTeams currentStats resultToSave
          (submittedTeamData st) 1 in
      let newResults :=
        <[matchIndex :=
            set_goalScorerMismatch false
              (set_originalGoalScorers None
                 (set_originalScores None
                    (set_isEditing false (set_saved true resultToSave))))]>
          (matchResults st) in
      let nextUnsavedIndex := findFirstUnsavedMatchIndex newResults in
      match_ ← matches st !! matchIndex;
      let playedPairKey := normalizePair match_.1 match_.2 in
      let playedPairs :=
        if String.eqb playedPairKey "" then allPlayedPairs st
        else {[playedPairKey]} ∪ allPlayedPairs st in
      Some (set_allPlayedPairs playedPairs
              (set_currentMatchViewIndex nextUnsavedIndex
                 (set_matchResults newResults
                    (set_teamStats currentStats st))))
  | _, _ => Some (showWarning msgEnterBothScores st)
  end.

Definition handleEditResult (matchIndex : nat) (st : State) : option State :=
  currentMatch ← matchResults st !! matchIndex;
  Some (set_matchResults
          (<[matchIndex :=
               set_goalScorerMismatch false
                 (set_originalGoalScorers
                    (Some (team1GoalScorers currentMatch,
                           team2GoalScorers currentMatch))
                    (set_originalScores
                       (Some (team1Score currentMatch, team2Score currentMatch))
                       (set_isEditing true currentMatch)))]>
             (matchResults st))
          st).

Definition handleCancelEdit (matchIndex : nat) (st : State) : option State :=
  currentMatch ← matchResults st !! matchIndex;
  let restored :=
    match originalScores currentMatch, originalGoalScorers currentMatch with
    | Some scores, Some scorers =>
        set_goalScorerMismatch false
          (set_originalGoalScorers None
             (set_originalScores None
                (set_isEditing false
                   (set_team2GoalScorers scorers.2
                      (set_team1GoalScorers scorers.1
                         (set_team2Score scores.2
                            (set_team1Score scores.1 currentMatch)))))))
    | _, _ =>
        set_goalScorerMismatch false (set_isEditing false currentMatch)
    end in
  Some (set_matchResults (<[matchIndex := restored]> (matchResults st)) st).

(** ** League life cycle (lines 479-589) *)

(** [resetGameStates]: the cells it does not mention (the stored leagues
    and the modal flags) keep their values. *)
Definition resetGameStates (st : State) : State :=
  {| numTeams := 0;
     numPlayersPerTeam := 0;
     teamData := [];
     submittedTeamData := [];
     matches := [];
     matchResults := [];
     teamStats := [];
     roundNumber := 0;
     allPlayedPairs := ∅;
     appStage := initialScreen;
     currentTeamIndex := 0;
     savedLeagues := savedLeagues st;
     currentLeagueName := None;
     showSaveLeagueModal := showSaveLeagueModal st;
     saveLeagueInputName := saveLeagueInputName st;
     showOverwriteConfirm := showOverwriteConfirm st;
     leagueNameToOverwrite := leagueNameToOverwrite st;
     showWarningModal := showWarningModal st;
     warningMessage := warningMessage st;
     warningModalType := warningModalType st;
     activeLeagueView := viewMatches;
     currentMatchViewIndex := 0;
     globalIdCounter := 0 |}.

(** [window.confirm] answered with yes; answered with no, nothing happens. *)
Definition handleResetLeague (st : State) : State := resetGameStates st.

Definition handleExitLeague (st : State) : State := resetGameStates st.

Definition handleStartNewLeague (st : State) : State :=
  set_appStage setupCounts (resetGameStates st).

Definition handleContinueLeague (st : State) : State :=
  if decide (size (savedLeagues st) = 0) then showWarning msgNoSavedLeague st
  else set_appStage loadLeagueOptions st.

(** The row that [startTheGames] creates for a team. *)
Definition initialTeamStat (team : Team) : TeamStat :=
  {| name := team_name team;
     played := 0; wins := 0; draws := 0; losses := 0;
     gf := 0; ga := 0; gd := 0; points := 0 |}.

Definition startTheGames (teamsToUse : list Team) (st : State) : State :=
  let st := set_submittedTeamData teamsToUse st in
  if length teamsToUse <? 2 then
    set_matchResults [] (set_matches [] st)
  else
    let st := set_teamStats (map initialTeamStat teamsToUse) st in
    let '(st, (newMatches, newMatchResults)) :=
      generateAllRoundRobinMatches teamsToUse st in
    set_currentMatchViewIndex 0
      (set_activeLeagueView viewMatches
         (set_warningModalType alert
            (set_showWarningModal false
               (set_roundNumber 1
                  (set_allPlayedPairs ∅
                     (set_matchResults newMatchResults
                        (set_matches newMatches st))))))).

(** [Math.min(prevIndex + 1, matches.length - 1)]; the button exists only
    while [matches.length > 0], where the truncated subtraction of [nat]
    agrees with the subtraction of the source. *)
Definition handleNextMatch (st : State) : State :=
  set_currentMatchViewIndex
    (Nat.min (currentMatchViewIndex st + 1) (length (matches st) - 1)) st.

(** [Math.max(prevIndex - 1, 0)]. *)
Definition handlePreviousMatch (st : State) : State :=
  set_currentMatchViewIndex (currentMatchViewIndex st - 1) st.

(** [handleDismissAlert] and [handleCancelStartGames] have the same body. *)
Definition handleDismissAlert (st : State) : State :=
  set_warningModalType alert
    (set_warningMessage msgNone (set_showWarningModal false st)).

Definition handleShowMatchInput (st : State) : State :=
  set_activeLeagueView viewMatches st.

Definition handleShowTopScorers (st : State) : State :=
  set_activeLeagueView viewTopScorers st.

Definition handleShowMatchResultsSummary (st : State) : State :=
  set_activeLeagueView viewMatchResultsSummary st.

(** ** League persistence (lines 104-137 and 672-778) *)

(** [String.prototype.trim] on the white space of the ASCII range:
    tab, line feed, vertical tab, form feed, carriage return, space. *)
Definition isWhiteSpace (c : Ascii.ascii) : bool :=
  let n := Ascii.nat_of_ascii c in
  (9 <=? n) && (n <=? 13) || (n =? 32).

Fixpoint trimStart (s : string) : string :=
  match s with
  | EmptyString => EmptyString
  | String c s' => if isWhiteSpace c then trimStart s' else s
  end.

Fixpoint trimEnd (s : string) : string :=
  match s with
  | EmptyString => EmptyString
  | String c s' =>
      let rest := trimEnd s' in
      if isWhiteSpace c && String.eqb rest "" then EmptyString
      else String c rest
  end.

Definition trim (s : string) : string := trimEnd (trimStart s).

(** The callback of the two [matchResults.map] calls that drop the
    transient editing state (lines 698-703 and 740-745). *)
Definition clearEditing (m : MatchResult) : MatchResult :=
  set_originalGoalScorers None
    (set_originalScores None (set_isEditing false m)).

(** [saveLeagueToStorage] and [deleteLeagueFromStorage]: the string kept
    under the key ['savedLeagues'] of [localStorage] is always the
    serialisation of the cell [savedLeagues]; the cell stands for both. *)
Definition saveLeagueToStorage (leagueName : string)
    (state : SavedLeagueState) (st : State) : State :=
  set_savedLeagues (<[leagueName := state]> (savedLeagues st)) st.

Definition deleteLeagueFromStorage (leagueName : string) (st : State) : State :=
  set_savedLeagues (delete leagueName (savedLeagues st)) st.

Definition handleSaveLeagueClick (st : State) : State :=
  set_showOverwriteConfirm false
    (set_saveLeagueInputName (default "" (currentLeagueName st))
       (set_showSaveLeagueModal true st)).

Definition handleSaveLeagueConfirm (st : State) : State :=
  if String.eqb (trim (saveLeagueInputName st)) "" then
    showWarning msgEnterLeagueName st
  else
    let leagueName := trim (saveLeagueInputName st) in
    if bool_decide (is_Some (savedLeagues st !! leagueName))
       && negb (showOverwriteConfirm st) then
      set_showOverwriteConfirm true (set_leagueNameToOverwrite leagueName st)
    else
      let stateToSave :=
        {| saved_numTeams := numTeams st;
           saved_numPlayersPerTeam := numPlayersPerTeam st;
           saved_submittedTeamData := submittedTeamData st;
           saved_matchResults := map clearEditing (matchResults st);
           saved_teamStats := teamStats st;
           saved_roundNumber := roundNumber st;
           saved_allPlayedPairs := elements (allPlayedPairs st);
           saved_globalIdCounterValue := globalIdCounter st |} in
      set_warningMessage msgNone
        (set_saveLeagueInputName ""
           (set_showOverwriteConfirm false
              (set_showSaveLeagueModal false
                 (set_currentLeagueName (Some leagueName)
                    (saveLeagueToStorage leagueName stateToSave st))))).

Definition handleCancelSaveLeague (st : State) : State :=
  set_saveLeagueInputName ""
    (set_showOverwriteConfirm false (set_showSaveLeagueModal false st)).

(** The name shown for a team whose id is not found (line 737). *)
Definition unknownTeamName : string := "نامشخص".

(** [team?.name || 'نامشخص']: the name of the team found, unless no team
    is found or its name is the empty string. *)
Definition nameOrUnknown (team : option Team) : string :=
  match team with
  | Some team =>
      if String.eqb (team_name team) "" then unknownTeamName
      else team_name team
  | None => unknownTeamName
  end.

(** The names of the properties that every object inherits from
    [Object.prototype]: [savedLeagues[leagueName]] is truthy for them
    also when no league is stored under the name. *)
Definition inheritedNames : list string :=
  [ "constructor"; "__defineGetter__"; "__defineSetter__"; "hasOwnProperty";
    "__lookupGetter__"; "__lookupSetter__"; "isPrototypeOf";
    "propertyIsEnumerable"; "toString"; "valueOf"; "__proto__";
    "toLocaleString" ].

Definition inheritedName (leagueName : string) : bool :=
  bool_decide (leagueName ∈ inheritedNames).

(** The list of stored leagues (lines 966-990) calls the handler with the
    own keys of [savedLeagues].  For another name the lookup of the model
    finds nothing, as the source does unless the name is an
    [inheritedName]. *)
Definition handleLoadLeague (leagueName : string) (st : State) : State :=
  match savedLeagues st !! leagueName with
  | Some leagueToLoad =>
    let st := resetGameStates st in
    let teamNameOf (teamId : string) :=
      nameOrUnknown
        (find (fun t => String.eqb (team_id t) teamId)
              (saved_submittedTeamData leagueToLoad)) in
    let loadedMatches :=
      map (fun mr => (teamNameOf (team1Id mr), teamNameOf (team2Id mr)))
          (saved_matchResults leagueToLoad) in
    let cleanedMatchResults :=
      map clearEditing (saved_matchResults leagueToLoad) in
    set_currentMatchViewIndex (findFirstUnsavedMatchIndex cleanedMatchResults)
      (set_activeLeagueView viewMatches
         (set_appStage
            (if 0 <? saved_roundNumber leagueToLoad
             then namingTeamsAndPlayers else setupCounts)
            (set_currentLeagueName (Some leagueName)
               (set_globalIdCounter (saved_globalIdCounterValue leagueToLoad)
                  (set_allPlayedPairs
                     (list_to_set (saved_allPlayedPairs leagueToLoad))
                     (set_roundNumber (saved_roundNumber leagueToLoad)
                        (set_teamStats (saved_teamStats leagueToLoad)
                           (set_matchResults cleanedMatchResults
                              (set_matches loadedMatches
                                 (set_teamData
                                    (saved_submittedTeamData leagueToLoad)
                                    (set_submittedTeamData
                                       (saved_submittedTeamData leagueToLoad)
                                       (set_numPlayersPerTeam
                                          (saved_numPlayersPerTeam leagueToLoad)
                                          (set_numTeams
                                             (saved_numTeams leagueToLoad)
                                             st)))))))))))))
  | None => st
  end.

(** [window.confirm] answered with yes. *)
Definition handleDeleteLeague (leagueName : string) (st : State) : State :=
  let st := deleteLeagueFromStorage leagueName st in
  let st :=
    if bool_decide (currentLeagueName st = Some leagueName)
    then resetGameStates (set_currentLeagueName None st)
    else st in
  set_appStage initialScreen st.

(** ** Derived views (lines 467-474 and 838-866) *)

(** [Array.prototype.sort] with a comparator is a stable sort; on a
    comparator that is a total preorder every stable sort returns the same
    array, computed here by insertion from the right. *)
Fixpoint sortInsert {A} (cmp : A -> A -> Z) (x : A) (l : list A) : list A :=
  match l with
  | [] => [x]
  | y :: l' =>
      if (cmp x y <=? 0)%Z then x :: y :: l' else y :: sortInsert cmp x l'
  end.

Definition sort {A} (cmp : A -> A -> Z) (l : list A) : list A :=
  foldr (sortInsert cmp) [] l.

(** [b.points - a.points || b.gd - a.gd || b.gf - a.gf]. *)
Definition compareTeamStats (a b : TeamStat) : Z :=
  if negb (points b - points a =? 0)%Z then (points b - points a)%Z
  else if negb (gd b - gd a =? 0)%Z then (gd b - gd a)%Z
  else (gf b - gf a)%Z.

Definition sortedTeamStats (st : State) : list TeamStat :=
  sort compareTeamStats (teamStats st).

Definition allResultsIn (st : State) : bool :=
  (0 <? length (matches st)) && forallb saved (matchResults st).

(** One value of the dictionary [playerGoals]. *)
Record PlayerGoals := mkPlayerGoals {
  pg_name : string;
  pg_goals : Z;
  pg_teamName : string
}.

(** The body of the two inner [forEach] callbacks.  [playerGoals] is an
    object keyed by player id; its keys are the ids made by
    [generateUniqueId] ([id-0], [id-1], ...), which [Object.values]
    enumerates in the order of their first insertion, so the object is an
    association list in insertion order. *)
Fixpoint addScorer (teamName : string) (playerGoals : list (string * PlayerGoals))
    (scorer : ScorerEntry) : list (string * PlayerGoals) :=
  match playerGoals with
  | [] =>
      [(playerId scorer,
        {| pg_name := playerName scorer;
           pg_goals := goals scorer;
           pg_teamName := teamName |})]
  | (k, e) :: rest =>
      if String.eqb k (playerId scorer) then
        (k, {| pg_name := pg_name e;
               pg_goals := (pg_goals e + goals scorer)%Z;
               pg_teamName := pg_teamName e |}) :: rest
      else (k, e) :: addScorer teamName rest scorer
  end.

(** The name under which the scorers of one side are filed. *)
Definition sideTeamName (submittedTeams : list Team) (teamId : string) : string :=
  from_option team_name "Unknown Team"
    (find (fun t => String.eqb (team_id t) teamId) submittedTeams).

(** The dictionary after the outer [matchResults.forEach]. *)
Definition playerGoalsTable (st : State) : list (string * PlayerGoals) :=
  foldl (fun playerGoals match_ =>
           let playerGoals :=
             foldl (addScorer (sideTeamName (submittedTeamData st)
                                            (team1Id match_)))
                   playerGoals (team1GoalScorers match_) in
           foldl (addScorer (sideTeamName (submittedTeamData st)
                                          (team2Id match_)))
                 playerGoals (team2GoalScorers match_))
        [] (matchResults st).

Definition calculateTopScorers (st : State) : list PlayerGoals :=
  sort (fun a b => (pg_goals b - pg_goals a)%Z)
       (map snd (playerGoalsTable st)).

(** ** The component as a transition system

    An event is one user action.  [enabled] is the condition under which
    the JSX of lines 884-1619 renders the control that fires it, enabled;
    [handle] runs the handler bound to the control.  The league input
    section acts on the fixture at [currentMatchViewIndex].

    The screens that collect counts and names before a league starts
    (lines 520-531, 570-661 and 780-835) only write [numTeams],
    [numPlayersPerTeam], [teamData], [appStage], [currentTeamIndex], the
    warning modal and the id counter before they call [startTheGames] on a
    list of teams.  They are covered by two events that choose these
    values freely, which allows every run of those screens.

    A dialog covers the page while it is shown.  The model lets the
    controls of the page fire under an open dialog as well, which only
    adds runs; the confirmation that [handleStartGamesClick] opens belongs
    to the naming screen, so [handleConfirmStartGames] is part of
    [StartTheGames]. *)

Inductive Event :=
  | ClickStartNewLeague
  | ClickContinueLeague
  | ClickBack
  | SetupScreens (teams players : nat) (data : list Team) (stage : AppStage)
      (teamIndex idCounter : nat) (askConfirm : bool)
  | StartTheGames (teamsToUse : list Team)
  | ChangeScore (team : Side) (value : Score)
  | ChangePlayerGoal (teamNum : Side) (scorerIndex : nat) (value : option Z)
  | SelectGoalScorer (teamNum : Side) (selectedId : string)
  | ClickRemoveGoalScorer (teamNum : Side) (scorerId : string)
  | ClickSaveResult
  | ClickEditResult
  | ClickCancelEdit
  | ClickNextMatch
  | ClickPreviousMatch
  | ClickResetLeague
  | ClickShowMatchInput
  | ClickShowTopScorers
  | ClickShowMatchResultsSummary
  | ClickSaveLeague
  | TypeLeagueName (text : string)
  | ClickSaveLeagueConfirm
  | ClickCancelSaveLeague
  | ClickExitLeague
  | ClickDismissAlert
  | ClickLoadLeague (leagueName : string)
  | ClickDeleteLeague (leagueName : string)
  | ReloadPage.

(** The initial values of the [useState] cells; [savedLeagues] is filled
    from [localStorage] by the effect of line 135. *)
Definition initialState (stored : gmap string SavedLeagueState) : State :=
  {| numTeams := 0;
     numPlayersPerTeam := 0;
     teamData := [];
     submittedTeamData := [];
     matches := [];
     matchResults := [];
     teamStats := [];
     roundNumber := 0;
     allPlayedPairs := ∅;
     appStage := initialScreen;
     currentTeamIndex := 0;
     savedLeagues := stored;
     currentLeagueName := None;
     showSaveLeagueModal := false;
     saveLeagueInputName := "";
     showOverwriteConfirm := false;
     leagueNameToOverwrite := "";
     showWarningModal := false;
     warningMessage := msgNone;
     warningModalType := alert;
     activeLeagueView := viewMatches;
     currentMatchViewIndex := 0;
     globalIdCounter := 0 |}.

(** The fixture and the result that the match input section (lines
    1220-1411) shows, when it is rendered. *)
Definition shownMatch (st : State) : option ((string * string) * MatchResult) :=
  if (0 <? roundNumber st)
     && match activeLeagueView st with viewMatches => true | _ => false end
     && (0 <? length (matches st))
  then
    match_ ← matches st !! currentMatchViewIndex st;
    matchResult ← matchResults st !! currentMatchViewIndex st;
    Some (match_, matchResult)
  else None.

(** [!matchResult.saved || matchResult.isEditing]: the inputs are live. *)
Definition editable (matchResult : MatchResult) : bool :=
  negb (saved matchResult) || isEditing matchResult.

Definition sideName (teamNum : Side) (match_ : string * string) : string :=
  match teamNum with Side1 => match_.1 | Side2 => match_.2 end.

Definition sideScore (teamNum : Side) (r : MatchResult) : Score :=
  match teamNum with Side1 => team1Score r | Side2 => team2Score r end.

(** [showTeam1ScorerDropdown] and [showTeam2ScorerDropdown]
    (lines 1231-1238). *)
Definition showScorerDropdown (st : State) (teamNum : Side)
    (matchResult : MatchResult) : bool :=
  let scoreValue := default 0%Z (sideScore teamNum matchResult) in
  let goalsSum := goalsSum (sideScorers teamNum matchResult) in
  (0 <? numPlayersPerTeam st) && editable matchResult
  && (0 <? scoreValue)%Z && (goalsSum <? scoreValue)%Z.

Definition inSetup (stage : AppStage) : bool :=
  match stage with
  | setupCounts | namingTeamsAndPlayers => true
  | _ => false
  end.

Definition enabled (st : State) (ev : Event) : bool :=
  match ev with
  | ClickStartNewLeague | ClickContinueLeague =>
      (roundNumber st =? 0)
      && match appStage st with initialScreen => true | _ => false end
  | ClickBack =>
      (roundNumber st =? 0)
      && match appStage st with
         | loadLeagueOptions | setupCounts => true
         | _ => false
         end
  | SetupScreens _ _ _ stage _ _ _ =>
      (roundNumber st =? 0) && inSetup (appStage st) && inSetup stage
  | StartTheGames _ =>
      (roundNumber st =? 0)
      && match appStage st with namingTeamsAndPlayers => true | _ => false end
  | ChangeScore _ _ =>
      match shownMatch st with
      | Some (_, matchResult) => editable matchResult
      | None => false
      end
  | ChangePlayerGoal teamNum scorerIndex _ =>
      match shownMatch st with
      | Some (_, matchResult) =>
          (0 <? numPlayersPerTeam st) && editable matchResult
          && (scorerIndex <? length (sideScorers teamNum matchResult))
      | None => false
      end
  | SelectGoalScorer teamNum selectedId =>
      match shownMatch st with
      | Some (match_, matchResult) =>
          match find (fun t => String.eqb (team_name t) (sideName teamNum match_))
                     (submittedTeamData st) with
          | Some team =>
              showScorerDropdown st teamNum matchResult
              && (String.eqb selectedId ""
                  || existsb
                       (fun player =>
                          String.eqb (player_id player) selectedId
                          && negb (existsb
                                     (fun s => String.eqb (playerId s)
                                                          (player_id player))
                                     (sideScorers teamNum matchResult)))
                       (players team))
          | None => false
          end
      | None => false
      end
  | ClickRemoveGoalScorer teamNum scorerId =>
      match shownMatch st with
      | Some (_, matchResult) =>
          (0 <? numPlayersPerTeam st) && editable matchResult
          && existsb (fun s => String.eqb (playerId s) scorerId)
                     (sideScorers teamNum matchResult)
      | None => false
      end
  | ClickSaveResult =>
      match shownMatch st with
      | Some (_, matchResult) =>
          editable matchResult
          && bool_decide (is_Some (team1Score matchResult))
          && bool_decide (is_Some (team2Score matchResult))
      | None => false
      end
  | ClickEditResult =>
      match shownMatch st with
      | Some (_, matchResult) => negb (editable matchResult)
      | None => false
      end
  | ClickCancelEdit =>
      match shownMatch st with
      | Some (_, matchResult) => isEditing matchResult
      | None => false
      end
  | ClickNextMatch =>
      match shownMatch st with
      | Some _ => negb (currentMatchViewIndex st =? length (matches st) - 1)
      | None => false
      end
  | ClickPreviousMatch =>
      match shownMatch st with
      | Some _ => negb (currentMatchViewIndex st =? 0)
      | None => false
      end
  | ClickResetLeague =>
      match shownMatch st with
      | Some _ => allResultsIn st
      | None => false
      end
  | ClickShowMatchInput | ClickShowMatchResultsSummary
  | ClickSaveLeague | ClickExitLeague =>
      0 <? roundNumber st
  | ClickShowTopScorers =>
      (0 <? roundNumber st) && (0 <? numPlayersPerTeam st)
  | TypeLeagueName _ =>
      showSaveLeagueModal st && negb (showOverwriteConfirm st)
  | ClickSaveLeagueConfirm | ClickCancelSaveLeague =>
      showSaveLeagueModal st
  | ClickDismissAlert => showWarningModal st
  | ClickLoadLeague leagueName | ClickDeleteLeague leagueName =>
      (roundNumber st =? 0)
      && match appStage st with loadLeagueOptions => true | _ => false end
      && bool_decide (is_Some (savedLeagues st !! leagueName))
  | ReloadPage => true
  end.

Definition handle (ev : Event) (st : State) : option State :=
  match ev with
  | ClickStartNewLeague => Some (handleStartNewLeague st)
  | ClickContinueLeague => Some (handleContinueLeague st)
  | ClickBack => Some (set_appStage initialScreen st)
  | SetupScreens teams players data stage teamIndex idCounter askConfirm =>
      let st :=
        set_globalIdCounter idCounter
          (set_currentTeamIndex teamIndex
             (set_appStage stage
                (set_teamData data
                   (set_numPlayersPerTeam players
                      (set_numTeams teams st))))) in
      Some (if askConfirm then
              set_showWarningModal true
                (set_warningModalType confirm
                   (set_warningMessage msgUnnamedEntries st))
            else st)
  | StartTheGames teamsToUse => Some (startTheGames teamsToUse st)
  | ChangeScore team value =>
      handleScoreChange (currentMatchViewIndex st) team value st
  | ChangePlayerGoal teamNum scorerIndex value =>
      handlePlayerGoalChange (currentMatchViewIndex st) teamNum scorerIndex
        value st
  | SelectGoalScorer teamNum selectedId =>
      handleSelectGoalScorer (currentMatchViewIndex st) teamNum selectedId st
  | ClickRemoveGoalScorer teamNum scorerId =>
      handleRemoveGoalScorer (currentMatchViewIndex st) teamNum scorerId st
  | ClickSaveResult => handleSaveResult (currentMatchViewIndex st) st
  | ClickEditResult => handleEditResult (currentMatchViewIndex st) st
  | ClickCancelEdit => handleCancelEdit (currentMatchViewIndex st) st
  | ClickNextMatch => Some (handleNextMatch st)
  | ClickPreviousMatch => Some (handlePreviousMatch st)
  | ClickResetLeague => Some (handleResetLeague st)
  | ClickShowMatchInput => Some (handleShowMatchInput st)
  | ClickShowTopScorers => Some (handleShowTopScorers st)
  | ClickShowMatchResultsSummary => Some (handleShowMatchResultsSummary st)
  | ClickSaveLeague => Some (handleSaveLeagueClick st)
  | TypeLeagueName text => Some (set_saveLeagueInputName text st)
  | ClickSaveLeagueConfirm => Some (handleSaveLeagueConfirm st)
  | ClickCancelSaveLeague => Some (handleCancelSaveLeague st)
  | ClickExitLeague => Some (handleExitLeague st)
  | ClickDismissAlert => Some (handleDismissAlert st)
  | ClickLoadLeague leagueName => Some (handleLoadLeague leagueName st)
  | ClickDeleteLeague leagueName => Some (handleDeleteLeague leagueName st)
  | ReloadPage => Some (initialState (savedLeagues st))
  end.

Definition step (st : State) (ev : Event) (st' : State) : Prop :=
  enabled st ev = true ∧ handle ev st = Some st'.

(** Runs a list of events from a state; [None] when an event is not
    enabled or its handler fails. *)
Fixpoint run (evs : list Event) (st : State) : option State :=
  match evs with
  | [] => Some st
  | ev :: evs' =>
      if enabled st ev then st' ← handle ev st; run evs' st' else None
  end.

(** The states the application can be in: it starts with an empty
    [localStorage]; a later visit is a [ReloadPage], which keeps the
    stored leagues. *)
Inductive reachable : State -> Prop :=
  | reachable_init : reachable (initialState ∅)
  | reachable_step st ev st' :
      reachable st -> step st ev st' -> reachable st'.

(** ** A sample league

    Three teams of two players, with the ids that [generateUniqueId]
    hands out when the teams are created in order. *)

Definition sampleTeams : list Team :=
  [ {| team_id := "id-0"; team_name := "Alpha";
       players := [mkPlayer "id-1" "Ali"; mkPlayer "id-2" "Babak"] |};
    {| team_id := "id-3"; team_name := "Beta";
       players := [mkPlayer "id-4" "Cyrus"; mkPlayer "id-5" "Dara"] |};
    {| team_id := "id-6"; team_name := "Gamma";
       players := [mkPlayer "id-7" "Emad"; mkPlayer "id-8" "Farid"] |} ].

(** From the first screen to the first fixture of the league. *)
Definition sampleStart : list Event :=
  [ ClickStartNewLeague;
    SetupScreens 3 2 sampleTeams namingTeamsAndPlayers 2 9 false;
    StartTheGames sampleTeams ].

(** The state after a run from the first visit; the initial state when
    the run is not possible. *)
Definition after (evs : list Event) : State :=
  default (initialState ∅) (run evs (initialState ∅)).

(** ** Notions used to state the properties *)

(** The index pairs [(i, j)] with [i < j < n], row by row. *)
Definition indexPairs (n : nat) : list (nat * nat) :=
  flat_map (fun i => map (pair i) (seq (i + 1) (n - (i + 1)))) (seq 0 n).

(** The order of the two loops: by [i], then by [j]. *)
Definition lexLt (p q : nat * nat) : Prop :=
  p.1 < q.1 ∨ (p.1 = q.1 ∧ p.2 < q.2).

(** The fixture of the teams at the indices [p.1] and [p.2]. *)
Definition fixtureOf (teamNames : list string) (p : nat * nat) : string * string :=
  (teamNames !!! p.1, teamNames !!! p.2).

(** Goals filed for player [pid] in one scorer list. *)
Definition goalsOf (pid : string) (scorers : list ScorerEntry) : Z :=
  foldr (fun s acc => if String.eqb (playerId s) pid then (goals s + acc)%Z else acc)
        0%Z scorers.

(** Goals filed for player [pid] in all results, saved or not. *)
Definition totalGoals (pid : string) (results : list MatchResult) : Z :=
  foldr (fun m acc =>
           (goalsOf pid (team1GoalScorers m)
            + goalsOf pid (team2GoalScorers m) + acc)%Z)
        0%Z results.

(** The id of the team on one side of a result. *)
Definition sideTeamId (teamNum : Side) (r : MatchResult) : string :=
  match teamNum with Side1 => team1Id r | Side2 => team2Id r end.

(** Player [pid] has a tally on side [teamNum] of result [m]. *)
Definition scoresFor (pid : string) (teamNum : Side) (m : MatchResult) : Prop :=
  ∃ s, s ∈ sideScorers teamNum m ∧ playerId s = pid.

(** The entry of the dictionary under a key. *)
Fixpoint tableGet (pid : string) (table : list (string * PlayerGoals))
    : option PlayerGoals :=
  match table with
  | [] => None
  | (k, e) :: rest => if String.eqb k pid then Some e else tableGet pid rest
  end.

(** The tallies in the order in which the loops visit them, each with
    the team name it is filed under. *)
Definition appearances (teams : list Team) (results : list MatchResult)
    : list (string * ScorerEntry) :=
  flat_map (fun m =>
              map (pair (sideTeamName teams (team1Id m))) (team1GoalScorers m)
              ++ map (pair (sideTeamName teams (team2Id m))) (team2GoalScorers m))
           results.

(** [addScorer] on a tally paired with its team name. *)
Definition fileScorer (table : list (string * PlayerGoals))
    (a : string * ScorerEntry) : list (string * PlayerGoals) :=
  addScorer a.1 table a.2.

(** What the dictionary holds after the tallies [l] were filed. *)
Definition tableFor (l : list (string * ScorerEntry))
    (table : list (string * PlayerGoals)) : Prop :=
  NoDup (map fst table)
  ∧ (∀ pid, pid ∈ map fst table ↔ ∃ a, a ∈ l ∧ playerId a.2 = pid)
  ∧ (∀ pid e, tableGet pid table = Some e ->
       pg_goals e = goalsOf pid (map snd l)
       ∧ ∃ a, a ∈ l ∧ playerId a.2 = pid ∧ pg_teamName e = a.1).

(** ** The standings as a function of the ledger *)

(** The goal-difference equation of one row. *)
Definition gdOk (t : TeamStat) : Prop := gd t = (gf t - ga t)%Z.

(** [arr[i] = f(arr[i])] when the index was found. *)
Definition alterAt {A} (f : A -> A) (index : option nat) (l : list A) : list A :=
  match index with
  | Some i => alter f i l
  | None => l
  end.

(** What a result adds to the table: the names of its two teams and its
    two scores, when both scores are set and both teams are found. *)
Definition contribution (teams : list Team) (m : MatchResult)
    : option (string * string * Z * Z) :=
  match team1Score m, team2Score m with
  | Some score1, Some score2 =>
      match find (fun t => String.eqb (team_id t) (team1Id m)) teams,
            find (fun t => String.eqb (team_id t) (team2Id m)) teams with
      | Some team1, Some team2 =>
          Some (team_name team1, team_name team2, score1, score2)
      | _, _ => None
      end
  | _, _ => None
  end.

(** The row update of a contribution, for both sides. *)
Definition applyContribution (stats : list TeamStat)
    (c : string * string * Z * Z) (mult : Z) : list TeamStat :=
  let '(name1, name2, score1, score2) := c in
  alterAt (fun t => updateStatEntry t score2 score1 mult)
          (findIndex (fun t => String.eqb (name t) name2) stats)
          (alterAt (fun t => updateStatEntry t score1 score2 mult)
                   (findIndex (fun t => String.eqb (name t) name1) stats)
                   stats).

(** The result as the standings know it: while a saved result is being
    edited, its scores are those of the snapshot taken at edit entry. *)
Definition committed (m : MatchResult) : MatchResult :=
  if isEditing m then
    match originalScores m with
    | Some original => set_team2Score original.2 (set_team1Score original.1 m)
    | None => m
    end
  else m.

(** The row of [t]'s team before any result is tallied. *)
Definition resetStat (t : TeamStat) : TeamStat :=
  {| name := name t;
     played := 0; wins := 0; draws := 0; losses := 0;
     gf := 0; ga := 0; gd := 0; points := 0 |}.

(** The table computed from scratch: every row reset to zero, then every
    saved result applied once, in the order of the fixtures. *)
Definition standings (teams : list Team) (stats : list TeamStat)
    (results : list MatchResult) : list TeamStat :=
  foldl (fun table m =>
           if saved m then applyMatchStatsToTeams table (committed m) teams 1
           else table)
        (map resetStat stats) results.

(** The ledger in which the result at [i] was never saved. *)
Definition neverSaved (i : nat) (results : list MatchResult)
    : list MatchResult :=
  alter (fun m => clearEditing (set_saved false m)) i results.

(** The sum of one column of the table over all teams. *)
Definition total (column : TeamStat -> Z) (stats : list TeamStat) : Z :=
  foldr (fun t acc => (column t + acc)%Z) 0%Z stats.

(** The number of saved results whose committed scores satisfy [outcome]. *)
Definition countSaved (outcome : Z -> Z -> bool) (results : list MatchResult)
    : Z :=
  foldr (fun m acc =>
           match team1Score (committed m), team2Score (committed m) with
           | Some a, Some b =>
               if saved m && outcome a b then (1 + acc)%Z else acc
           | _, _ => acc
           end)
        0%Z results.


(** The two outcomes of a pair of scores. *)
Definition decided (a b : Z) : bool := negb (a =? b)%Z.

Definition drawn (a b : Z) : bool := (a =? b)%Z.

(** One step of [standings]. *)
Definition tally (teams : list Team) (table : list TeamStat) (m : MatchResult)
    : list TeamStat :=
  if saved m then applyMatchStatsToTeams table (committed m) teams 1 else table.

(** The two teams of a result are found, and so are their rows. *)
Definition referenced (teams : list Team) (stats : list TeamStat)
    (m : MatchResult) : Prop :=
  ∃ team1 team2,
    find (fun t => String.eqb (team_id t) (team1Id m)) teams = Some team1
    ∧ find (fun t => String.eqb (team_id t) (team2Id m)) teams = Some team2
    ∧ is_Some (findIndex (fun t => String.eqb (name t) (team_name team1)) stats)
    ∧ is_Some (findIndex (fun t => String.eqb (name t) (team_name team2)) stats).




(** ** The cells that the standings and the ledger live in *)

(** The part of the state that the invariants talk about. *)
Record Core := mkCore {
  c_teams : list Team;
  c_stats : list TeamStat;
  c_results : list MatchResult;
  c_matches : list (string * string);
  c_stored : gmap string SavedLeagueState;
  c_round : nat
}.

(** The submitted teams, the table, the results, the fixtures, the stored
    leagues and the round flag of a state. *)
Definition core (st : State) : Core :=
  mkCore (submittedTeamData st) (teamStats st) (matchResults st) (matches st)
         (savedLeagues st) (roundNumber st).

(** The snapshot that [handleSaveLeagueConfirm] stores. *)
Definition snapshotOf (st : State) : SavedLeagueState :=
  {| saved_numTeams := numTeams st;
     saved_numPlayersPerTeam := numPlayersPerTeam st;
     saved_submittedTeamData := submittedTeamData st;
     saved_matchResults := map clearEditing (matchResults st);
     saved_teamStats := teamStats st;
     saved_roundNumber := roundNumber st;
     saved_allPlayedPairs := elements (allPlayedPairs st);
     saved_globalIdCounterValue := globalIdCounter st |}.

(** The standings after a successful [handleSaveResult] of [m]. *)
Definition statsAfterSave (teams : list Team) (stats : list TeamStat)
    (m : MatchResult) : list TeamStat :=
  let reverted :=
    match originalScores m with
    | Some original =>
        if saved m && isEditing m then
          applyMatchStatsToTeams stats
            (set_team2Score original.2 (set_team1Score original.1 m))
            teams (-1)
        else stats
    | None => stats
    end in
  applyMatchStatsToTeams reverted m teams 1.

(** How one event may change one match result. *)
Inductive resultChange (m m' : MatchResult) : Prop :=
  | change_typed :
      editable m = true ->
      team1Id m' = team1Id m -> team2Id m' = team2Id m ->
      saved m' = saved m -> isEditing m' = isEditing m ->
      originalScores m' = originalScores m ->
      originalGoalScorers m' = originalGoalScorers m ->
      resultChange m m'
  | change_edit :
      editable m = false ->
      team1Id m' = team1Id m -> team2Id m' = team2Id m ->
      saved m' = saved m -> isEditing m' = true ->
      originalScores m' = Some (team1Score m, team2Score m) ->
      is_Some (originalGoalScorers m') ->
      team1Score m' = team1Score m -> team2Score m' = team2Score m ->
      resultChange m m'
  | change_cancel original scorers :
      isEditing m = true ->
      originalScores m = Some original ->
      originalGoalScorers m = Some scorers ->
      team1Id m' = team1Id m -> team2Id m' = team2Id m ->
      saved m' = saved m -> isEditing m' = false ->
      originalScores m' = None -> originalGoalScorers m' = None ->
      team1Score m' = original.1 -> team2Score m' = original.2 ->
      resultChange m m'
  | change_cancel_bare :
      isEditing m = true ->
      originalScores m = None ∨ originalGoalScorers m = None ->
      team1Id m' = team1Id m -> team2Id m' = team2Id m ->
      saved m' = saved m -> isEditing m' = false ->
      originalScores m' = originalScores m ->
      originalGoalScorers m' = originalGoalScorers m ->
      team1Score m' = team1Score m -> team2Score m' = team2Score m ->
      resultChange m m'.

(** What one step does to the core cells. *)
Inductive effect (st : State) (ev : Event) (st' : State) : Prop :=
  | eff_frame :
      core st' = core st -> effect st ev st'
  | eff_result i m m' :
      matchResults st !! i = Some m ->
      resultChange m m' ->
      core st' = mkCore (submittedTeamData st) (teamStats st)
                        (<[i := m']> (matchResults st)) (matches st)
                        (savedLeagues st) (roundNumber st) ->
      effect st ev st'
  | eff_save i m m' :
      matchResults st !! i = Some m ->
      editable m = true ->
      is_Some (team1Score m) -> is_Some (team2Score m) ->
      team1Id m' = team1Id m -> team2Id m' = team2Id m ->
      team1Score m' = team1Score m -> team2Score m' = team2Score m ->
      saved m' = true -> isEditing m' = false ->
      originalScores m' = None -> originalGoalScorers m' = None ->
      core st' = mkCore (submittedTeamData st)
                        (statsAfterSave (submittedTeamData st) (teamStats st) m)
                        (<[i := m']> (matchResults st)) (matches st)
                        (savedLeagues st) (roundNumber st) ->
      effect st ev st'
  | eff_start teams :
      2 <= length teams ->
      core st' = mkCore teams (map initialTeamStat teams)
                        (map (newMatchResult teams)
                             (roundRobinLoops (map team_name teams)))
                        (roundRobinLoops (map team_name teams))
                        (savedLeagues st) 1 ->
      effect st ev st'
  | eff_start_few teams :
      roundNumber st = 0 ->
      core st' = mkCore teams (teamStats st) [] [] (savedLeagues st) 0 ->
      effect st ev st'
  | eff_reset stored :
      stored = savedLeagues st
      ∨ (∃ leagueName, stored = delete leagueName (savedLeagues st)) ->
      core st' = mkCore [] [] [] [] stored 0 ->
      effect st ev st'
  | eff_delete leagueName :
      core st' = mkCore (submittedTeamData st) (teamStats st)
                        (matchResults st) (matches st)
                        (delete leagueName (savedLeagues st))
                        (roundNumber st) ->
      effect st ev st'
  | eff_store leagueName :
      ev = ClickSaveLeagueConfirm ->
      core st' = mkCore (submittedTeamData st) (teamStats st)
                        (matchResults st) (matches st)
                        (<[leagueName := snapshotOf st]> (savedLeagues st))
                        (roundNumber st) ->
      effect st ev st'
  | eff_load leagueName s loadedMatches :
      savedLeagues st !! leagueName = Some s ->
      core st' = mkCore (saved_submittedTeamData s) (saved_teamStats s)
                        (map clearEditing (saved_matchResults s))
                        loadedMatches
                        (savedLeagues st) (saved_roundNumber s) ->
      length loadedMatches = length (saved_matchResults s) ->
      effect st ev st'.

(** ** Invariants of the reachable states *)

(** A result in edit mode is a saved result. *)
Definition editingIsSaved (m : MatchResult) : Prop :=
  isEditing m = true -> saved m = true.

(** A result in edit mode carries the snapshot taken at edit entry. *)
Definition editingHasSnapshot (m : MatchResult) : Prop :=
  isEditing m = true ->
  is_Some (originalScores m) ∧ is_Some (originalGoalScorers m).

(** The invariant of every reachable state: the goal-difference equation
    in the live table and in every stored one, edit mode on saved results
    only, one result per fixture. *)
Record wellFormed (c : Core) : Prop := {
  wf_stats : Forall gdOk (c_stats c);
  wf_stored :
    map_Forall (fun _ s => Forall gdOk (saved_teamStats s)) (c_stored c);
  wf_editing : Forall editingIsSaved (c_results c);
  wf_matches : length (c_matches c) = length (c_results c)
}.

(** The table is the one recomputed from the ledger. *)
Definition ledgerOk (teams : list Team) (stats : list TeamStat)
    (results : list MatchResult) (round : nat) : Prop :=
  Forall (referenced teams stats) results
  ∧ Forall editingHasSnapshot results
  ∧ stats = standings teams stats results
  ∧ (round = 0 -> stats = [] ∧ results = []).

(** A stored league agrees with its own table and holds no result in
    edit mode. *)
Definition storedOk (s : SavedLeagueState) : Prop :=
  ledgerOk (saved_submittedTeamData s) (saved_teamStats s)
           (saved_matchResults s) (saved_roundNumber s)
  ∧ Forall (fun m => isEditing m = false) (saved_matchResults s).

(** The invariant of the states reached without storing a league in the
    middle of an edit. *)
Definition consistent (c : Core) : Prop :=
  ledgerOk (c_teams c) (c_stats c) (c_results c) (c_round c)
  ∧ map_Forall (fun _ s => storedOk s) (c_stored c).

(** [handleSaveLeagueConfirm] drops the edit flags of the results it
    stores but keeps the scores typed so far, while the table it stores
    still holds the scores of the snapshot.  A league stored while a
    result is in edit mode therefore no longer agrees with its own table.
    [storesMidEdit] marks these steps. *)
Definition storesMidEdit (st : State) (ev : Event) : bool :=
  match ev with
  | ClickSaveLeagueConfirm => existsb isEditing (matchResults st)
  | _ => false
  end.

(** The states reached without storing a league in the middle of an
    edit. *)
Inductive reachableClean : State -> Prop :=
  | clean_init : reachableClean (initialState ∅)
  | clean_step st ev st' :
      reachableClean st -> storesMidEdit st ev = false -> step st ev st' ->
      reachableClean st'.

(** [run] restricted to such steps. *)
Fixpoint runClean (evs : list Event) (st : State) : option State :=
  match evs with
  | [] => Some st
  | ev :: evs' =>
      if enabled st ev && negb (storesMidEdit st ev)
      then st' ← handle ev st; runClean evs' st'
      else None
  end.

(** The first fixture of the sample league saved as 2-1 (Ali twice,
    Cyrus once), then shown again. *)
Definition sampleSaved : list Event :=
  sampleStart ++
  [ ChangeScore Side1 (Some 2%Z); ChangeScore Side2 (Some 1%Z);
    SelectGoalScorer Side1 "id-1"; ChangePlayerGoal Side1 0 (Some 2%Z);
    SelectGoalScorer Side2 "id-4"; ClickSaveResult; ClickPreviousMatch ].

(** The saved fixture reopened and changed to 1-1 (Ali once). *)
Definition sampleEdited : list Event :=
  sampleSaved ++
  [ ClickEditResult; ChangeScore Side1 (Some 1%Z);
    ChangePlayerGoal Side1 0 (Some 1%Z) ].

(** The league stored under a name while the first result is being
    edited from 2-1 to 1-1, loaded after a reload of the page, and the
    result then edited to 3-0 (Ali three times, Cyrus removed). *)
Definition sampleStoredMidEdit : list Event :=
  sampleEdited ++
  [ ClickSaveLeague; TypeLeagueName "cup"; ClickSaveLeagueConfirm;
    ReloadPage; ClickContinueLeague; ClickLoadLeague "cup";
    ClickPreviousMatch; ClickEditResult;
    ChangeScore Side1 (Some 3%Z); ChangeScore Side2 (Some 0%Z);
    ChangePlayerGoal Side1 0 (Some 3%Z); ClickRemoveGoalScorer Side2 "id-4" ].

(** The first fixture of the sample league saved as 3-0 straight away. *)
Definition sampleFresh : list Event :=
  sampleStart ++
  [ ChangeScore Side1 (Some 3%Z); ChangeScore Side2 (Some 0%Z);
    SelectGoalScorer Side1 "id-1"; ChangePlayerGoal Side1 0 (Some 3%Z);
    ClickSaveResult ].

(** ** The setup screens (lines 4-5, 476, 520-531, 570-661 and 780-835)

    The handlers of the two screens that collect the counts and the
    names before a league starts.  They draw ids from
    [globalIdCounter] and build arrays with [Array(n)], which throws a
    [RangeError] when [n] exceeds [2^32 - 1] (the memory an array takes
    is not modelled).  [Gen A] is a computation that is started on a
    value of the counter and either returns a result or throws; in both
    cases it leaves the value that the counter has reached, since an id
    that was drawn before a throw stays drawn.

    A handler that throws has queued the [set...] calls that precede
    the throw, and React applies them although the handler did not
    finish: the cells they write have their new values in the next
    state.  An updater passed to [setTeamData] runs once, on the team
    data of the moment of the event; when it throws, it throws while
    React renders, and the component is unmounted. *)

Definition Gen (A : Type) : Type := nat -> option A * nat.

Definition gen_ret {A} (x : A) : Gen A := fun counter => (Some x, counter).

Definition gen_bind {A B} (m : Gen A) (f : A -> Gen B) : Gen B :=
  fun counter =>
    match m counter with
    | (Some x, counter') => f x counter'
    | (None, counter') => (None, counter')
    end.

(** [throw]. *)
Definition gen_throw {A} : Gen A := fun counter => (None, counter).

Notation "x <-- m ; k" := (gen_bind m (fun x => k))
  (at level 20, m at level 100, k at level 200, only parsing).

(** [`id-${globalIdCounter++}`]. *)
Definition generateUniqueId : Gen string :=
  fun counter => (Some ("id-" +:+ pretty counter), counter + 1).

Definition maxArrayLength : Z := 4294967295.

(** [Array(n).fill(null)]. *)
Definition newArray (n : nat) : Gen (list unit) :=
  if (Z.of_nat n <=? maxArrayLength)%Z then gen_ret (replicate n ())
  else gen_throw.

(** [array.map((x, i) => ...)] for a callback that may draw ids; [i]
    is the index of the first element. *)
Fixpoint mapGenFrom {A B} (f : nat -> A -> Gen B) (i : nat) (l : list A)
    : Gen (list B) :=
  match l with
  | [] => gen_ret []
  | x :: l' =>
      y <-- f i x;
      ys <-- mapGenFrom f (S i) l';
      gen_ret (y :: ys)
  end.

Definition mapGen {A B} (f : nat -> A -> Gen B) (l : list A) : Gen (list B) :=
  mapGenFrom f 0 l.

(** [{ id: generateUniqueId(), name: '' }]. *)
Definition newPlayer : Gen Player :=
  id <-- generateUniqueId;
  gen_ret (mkPlayer id "").

(** The team literal of [handleNumTeamsChange] and
    [handleGoToNamingStep]: the id is drawn before the ids of the
    players. *)
Definition newTeam (numPlayersPerTeam : nat) : Gen Team :=
  id <-- generateUniqueId;
  slots <-- newArray numPlayersPerTeam;
  players <-- mapGen (fun _ _ => newPlayer) slots;
  gen_ret (mkTeam id "" players).

Definition newTeams (numTeams numPlayersPerTeam : nat) : Gen (list Team) :=
  slots <-- newArray numTeams;
  mapGen (fun _ _ => newTeam numPlayersPerTeam) slots.

(** What a handler of the setup screens ends in: it returns, and [st]
    is the next state; or it throws, and [st] is the next state, which
    holds the updates that were queued before the throw; or there is no
    next state, because an updater throws while React renders, or
    because the source stores a value that the record types exclude (a
    team without id, at an index outside the team data). *)
Inductive Outcome :=
  | returned (st : State)
  | thrown (st : State)
  | noState.

Definition nextState (outcome : Outcome) : option State :=
  match outcome with
  | returned st | thrown st => Some st
  | noState => None
  end.

(** [setTeamData(teams)] where the argument [teams] is computed in the
    handler, on [globalIdCounter]: when the computation throws,
    [setTeamData] is not called. *)
Definition setTeamDataGen (teams : Gen (list Team)) (st : State) : Outcome :=
  match teams (globalIdCounter st) with
  | (Some teams, counter) =>
      returned (set_globalIdCounter counter (set_teamData teams st))
  | (None, counter) => thrown (set_globalIdCounter counter st)
  end.

(** [setTeamData(prevTeamData => teams)] where [teams] is computed by
    the updater. *)
Definition updateTeamDataGen (teams : Gen (list Team)) (st : State) : Outcome :=
  match teams (globalIdCounter st) with
  | (Some teams, counter) =>
      returned (set_globalIdCounter counter (set_teamData teams st))
  | (None, _) => noState
  end.

(** The text of a number input as its handler sees it: the empty text,
    a text for which [parseInt] returns the integer [value], or any
    other text, for which [parseInt] returns [NaN]. *)
Inductive NumberInput :=
  | inputEmpty
  | inputNumber (value : Z)
  | inputOther.

(** [setNumTeams(value)] is queued before the teams are built. *)
Definition handleNumTeamsChange (input : NumberInput) (st : State)
    : Outcome :=
  match input with
  | inputNumber value =>
      if (0 <=? value)%Z then
        setTeamDataGen (newTeams (Z.to_nat value) (numPlayersPerTeam st))
                       (set_numTeams (Z.to_nat value) st)
      else returned st
  | inputEmpty => returned (set_teamData [] (set_numTeams 0 st))
  | inputOther => returned st
  end.

(** [{ ...team, players: Array(value).fill(null).map((_, i) =>
    team.players[i] || { id: generateUniqueId(), name: '' }) }]. *)
Definition resizeTeam (value : nat) (team : Team) : Gen Team :=
  slots <-- newArray value;
  players <-- mapGen (fun i _ =>
                        match players team !! i with
                        | Some player => gen_ret player
                        | None => newPlayer
                        end) slots;
  gen_ret (mkTeam (team_id team) (team_name team) players).

Definition handleNumPlayersPerTeamChange (input : NumberInput) (st : State)
    : Outcome :=
  match input with
  | inputNumber value =>
      if (0 <=? value)%Z then
        updateTeamDataGen
          (mapGen (fun _ team => resizeTeam (Z.to_nat value) team) (teamData st))
          (set_numPlayersPerTeam (Z.to_nat value) st)
      else returned st
  | inputEmpty =>
      returned (set_teamData
                  (map (fun team => mkTeam (team_id team) (team_name team) [])
                       (teamData st))
                  (set_numPlayersPerTeam 0 st))
  | inputOther => returned st
  end.

(** [numTeams > 1 && numPlayersPerTeam >= 0]. *)
Definition areCountsValid (st : State) : bool :=
  (1 <? numTeams st) && (0 <=? numPlayersPerTeam st).

(** [setAppStage] and [setCurrentTeamIndex] are queued before the teams
    are built.  [teamData[0]?.players.length !== numPlayersPerTeam]
    holds when there is no first team. *)
Definition handleGoToNamingStep (st : State) : Outcome :=
  let st' := set_currentTeamIndex 0 (set_appStage namingTeamsAndPlayers st) in
  if negb (length (teamData st) =? numTeams st)
     || (0 <? numTeams st)
        && negb (from_option
                   (fun team => length (players team) =? numPlayersPerTeam st)
                   false (teamData st !! 0))
  then setTeamDataGen (newTeams (numTeams st) (numPlayersPerTeam st)) st'
  else returned st'.

(** The truncated subtraction of [nat] agrees with [numTeams - 1] of the
    source in the test [currentTeamIndex < numTeams - 1]. *)
Definition handleNextTeam (st : State) : State :=
  if currentTeamIndex st <? numTeams st - 1
  then set_currentTeamIndex (currentTeamIndex st + 1) st
  else st.

Definition handlePreviousTeam (st : State) : State :=
  if 0 <? currentTeamIndex st
  then set_currentTeamIndex (currentTeamIndex st - 1) st
  else st.

(** The two name handlers return [None] for an index outside the team
    data or the roster, where the updater of the source stores an object
    without id or, for a missing team in [handlePlayerNameChange],
    throws; the inputs that call them are rendered from the team and the
    player they name. *)
Definition handleTeamNameChange (teamIndex : nat) (newName : string)
    (st : State) : option State :=
  team ← teamData st !! teamIndex;
  Some (set_teamData
          (<[teamIndex := mkTeam (team_id team) newName (players team)]>
             (teamData st))
          st).

Definition handlePlayerNameChange (teamIndex playerIndex : nat)
    (newName : string) (st : State) : option State :=
  team ← teamData st !! teamIndex;
  player ← players team !! playerIndex;
  let newPlayers :=
    <[playerIndex := mkPlayer (player_id player) newName]> (players team) in
  Some (set_teamData
          (<[teamIndex := mkTeam (team_id team) (team_name team) newPlayers]>
             (teamData st))
          st).

(** [name.trim() === '']. *)
Definition isBlank (name : string) : bool := String.eqb (trim name) "".

(** The counts of unnamed teams and players after the [for] loop. *)
Definition unnamedCounts (st : State) : nat * nat :=
  foldl (fun counts team =>
           (if isBlank (team_name team) then counts.1 + 1 else counts.1,
            if 0 <? numPlayersPerTeam st then
              counts.2
              + length (List.filter (fun p => isBlank (player_name p))
                                    (players team))
            else counts.2))
        (0, 0) (teamData st).

(** The text of the dialog reports [numTeams] and the two counts; it is
    the message [msgUnnamedEntries]. *)
Definition handleStartGamesClick (st : State) : State :=
  let '(unnamedTeamsCount, unnamedPlayersCount) := unnamedCounts st in
  let shouldShowWarning :=
    (0 <? unnamedTeamsCount) || (0 <? unnamedPlayersCount) in
  if shouldShowWarning then
    set_showWarningModal true
      (set_warningModalType confirm
         (set_warningMessage msgUnnamedEntries st))
  else
    let finalTeamsToUse :=
      map (fun team =>
             let namedPlayers :=
               map (fun player =>
                      mkPlayer (player_id player) (trim (player_name player)))
                   (players team) in
             mkTeam (team_id team) (trim (team_name team)) namedPlayers)
          (teamData st) in
    startTheGames finalTeamsToUse st.

(** [`تیم ${teamIndex + 1}`] and [`بازیکن ${playerIndex + 1}`]. *)
Definition defaultTeamName (teamIndex : nat) : string :=
  "تیم " +:+ pretty (teamIndex + 1).

Definition defaultPlayerName (playerIndex : nat) : string :=
  "بازیکن " +:+ pretty (playerIndex + 1).

Definition handleConfirmStartGames (st : State) : State :=
  let teamsToProceedWith :=
    imap (fun teamIndex team =>
            let namedPlayers :=
              imap (fun playerIndex player =>
                      mkPlayer (player_id player)
                        (if isBlank (player_name player)
                         then defaultPlayerName playerIndex
                         else trim (player_name player)))
                   (players team) in
            mkTeam (team_id team)
              (if isBlank (team_name team)
               then defaultTeamName teamIndex
               else trim (team_name team))
              namedPlayers)
         (teamData st) in
  startTheGames teamsToProceedWith st.

Definition handleCancelStartGames (st : State) : State :=
  set_warningModalType alert
    (set_warningMessage msgNone (set_showWarningModal false st)).

(** The user actions of the two setup screens. *)
Inductive SetupEvent :=
  | TypeNumTeams (input : NumberInput)
  | TypeNumPlayersPerTeam (input : NumberInput)
  | ClickGoToNamingStep
  | ClickBackToSetup
  | TypeTeamName (newName : string)
  | TypePlayerName (playerIndex : nat) (newName : string)
  | ClickNextTeam
  | ClickPreviousTeam
  | ClickStartGames
  | ClickConfirmStartGames
  | ClickCancelStartGames.

Definition onSetupCounts (st : State) : bool :=
  (roundNumber st =? 0)
  && match appStage st with setupCounts => true | _ => false end.

(** [roundNumber === 0 && appStage === 'namingTeamsAndPlayers' &&
    currentTeam]. *)
Definition onNamingScreen (st : State) : bool :=
  (roundNumber st =? 0)
  && match appStage st with namingTeamsAndPlayers => true | _ => false end
  && bool_decide (is_Some (teamData st !! currentTeamIndex st)).

(** The condition under which the control of an event is rendered,
    enabled.  The confirmation dialog is opened by
    [handleStartGamesClick] on the naming screen and covers the page
    until one of its two buttons is pressed, so these fire on the naming
    screen. *)
Definition setupEnabled (st : State) (ev : SetupEvent) : bool :=
  match ev with
  | TypeNumTeams _ | TypeNumPlayersPerTeam _ => onSetupCounts st
  | ClickGoToNamingStep => onSetupCounts st && areCountsValid st
  | ClickBackToSetup | TypeTeamName _ => onNamingScreen st
  | TypePlayerName playerIndex _ =>
      onNamingScreen st && (0 <? numPlayersPerTeam st)
      && from_option (fun team => playerIndex <? length (players team)) false
                     (teamData st !! currentTeamIndex st)
  | ClickNextTeam =>
      onNamingScreen st && (currentTeamIndex st <? numTeams st - 1)
  | ClickPreviousTeam =>
      onNamingScreen st && negb (currentTeamIndex st =? 0)
  | ClickStartGames =>
      onNamingScreen st && negb (currentTeamIndex st <? numTeams st - 1)
  | ClickConfirmStartGames | ClickCancelStartGames =>
      (roundNumber st =? 0)
      && match appStage st with namingTeamsAndPlayers => true | _ => false end
      && showWarningModal st
      && match warningModalType st with confirm => true | alert => false end
  end.

Definition setupHandle (ev : SetupEvent) (st : State) : Outcome :=
  match ev with
  | TypeNumTeams input => handleNumTeamsChange input st
  | TypeNumPlayersPerTeam input => handleNumPlayersPerTeamChange input st
  | ClickGoToNamingStep => handleGoToNamingStep st
  | ClickBackToSetup => returned (set_appStage setupCounts st)
  | TypeTeamName newName =>
      from_option returned noState
        (handleTeamNameChange (currentTeamIndex st) newName st)
  | TypePlayerName playerIndex newName =>
      from_option returned noState
        (handlePlayerNameChange (currentTeamIndex st) playerIndex newName st)
  | ClickNextTeam => returned (handleNextTeam st)
  | ClickPreviousTeam => returned (handlePreviousTeam st)
  | ClickStartGames => returned (handleStartGamesClick st)
  | ClickConfirmStartGames => returned (handleConfirmStartGames st)
  | ClickCancelStartGames => returned (handleCancelStartGames st)
  end.

(** A step leads to the next state, whether the handler returned or
    threw. *)
Definition setupStep (st : State) (ev : SetupEvent) (st' : State) : Prop :=
  setupEnabled st ev = true ∧ nextState (setupHandle ev st) = Some st'.

(** Runs a list of setup events; [None] when an event is not enabled or
    has no next state. *)
Fixpoint setupRun (evs : list SetupEvent) (st : State) : option State :=
  match evs with
  | [] => Some st
  | ev :: evs' =>
      if setupEnabled st ev
      then st' ← nextState (setupHandle ev st); setupRun evs' st'
      else None
  end.

(** A count is one that [Array] accepts. *)
Definition withinArrayLimit (n : nat) : Prop :=
  (Z.of_nat n <= maxArrayLength)%Z.

(** The number typed into a count input, if any, is one that [Array]
    accepts. *)
Definition typesWithinArrayLimit (ev : SetupEvent) : Prop :=
  match ev with
  | TypeNumTeams (inputNumber value)
  | TypeNumPlayersPerTeam (inputNumber value) => (value <= maxArrayLength)%Z
  | _ => True
  end.

(** Three teams of two players set up through the two screens, the
    second team and one player left unnamed. *)
Definition sampleSetup : list SetupEvent :=
  [ TypeNumPlayersPerTeam (inputNumber 2); TypeNumTeams (inputNumber 3);
    ClickGoToNamingStep;
    TypeTeamName "Alpha"; TypePlayerName 0 "Ali"; TypePlayerName 1 "Babak";
    ClickNextTeam; TypePlayerName 0 "Cyrus";
    ClickNextTeam; TypeTeamName " Gamma "; TypePlayerName 0 "Emad";
    TypePlayerName 1 "Farid" ].

(** The state after the setup of the sample. *)
Definition afterSetup (evs : list SetupEvent) : State :=
  default (initialState ∅)
          (setupRun evs (handleStartNewLeague (initialState ∅))).

(** Row [a] ranks at least as high as row [b]: more points, then the
    better goal difference, then more goals scored. *)
Definition ranksBefore (a b : TeamStat) : Prop :=
  (points b < points a)%Z
  ∨ (points a = points b
     ∧ ((gd b < gd a)%Z ∨ (gd a = gd b ∧ (gf b <= gf a)%Z))).

(** Rows that the comparator cannot tell apart. *)
Definition sameRank (a b : TeamStat) : bool :=
  (points a =? points b)%Z && (gd a =? gd b)%Z && (gf a =? gf b)%Z.

(** The events that type into the inputs of the result in view. *)
Definition typing (ev : Event) : bool :=
  match ev with
  | ChangeScore _ _ | ChangePlayerGoal _ _ _
  | SelectGoalScorer _ _ | ClickRemoveGoalScorer _ _ => true
  | _ => false
  end.

(** A saved 2-1 of the sample league retyped as 1-1 (Ali once). *)
Definition sampleTyped : list Event :=
  [ ChangeScore Side1 (Some 1%Z); ChangePlayerGoal Side1 0 (Some 1%Z) ].

(** The result at [i] is [m] opened for editing: it carries the scores
    and the scorers of [m] as its snapshot, whatever it shows. *)
Definition editOf (m m2 : MatchResult) : Prop :=
  team1Id m2 = team1Id m ∧ team2Id m2 = team2Id m ∧ saved m2 = saved m
  ∧ originalScores m2 = Some (team1Score m, team2Score m)
  ∧ originalGoalScorers m2 = Some (team1GoalScorers m, team2GoalScorers m).

(** The arithmetic of one row: every match played is a win, a draw or a
    loss, a win is worth three points and a draw one. *)
Definition rowOk (t : TeamStat) : Prop :=
  played t = (wins t + draws t + losses t)%Z
  ∧ points t = (3 * wins t + draws t)%Z.

(** Once a league runs, the table has one row per team, in the order of
    the teams. *)
Definition rowsOf (teams : list Team) (stats : list TeamStat) (round : nat)
    : Prop :=
  0 < round -> name <$> stats = team_name <$> teams.

(** The shape of the live table and of every stored one. *)
Record tableOk (c : Core) : Prop := {
  tbl_rows : Forall rowOk (c_stats c);
  tbl_names : rowsOf (c_teams c) (c_stats c) (c_round c);
  tbl_stored :
    map_Forall (fun _ s =>
                  Forall rowOk (saved_teamStats s)
                  ∧ rowsOf (saved_submittedTeamData s) (saved_teamStats s)
                           (saved_roundNumber s))
               (c_stored c)
}.

(** The check that [handleSaveResult] makes before it saves: both scores
    are set and, when the teams have players, the tallies of each side
    add up to the score of that side. *)
Definition passesValidation (playersPerTeam : nat) (scores : Score * Score)
    (scorers : list ScorerEntry * list ScorerEntry) : Prop :=
  ∃ a b, scores = (Some a, Some b)
         ∧ (0 < playersPerTeam ->
            goalsSum scorers.1 = a ∧ goalsSum scorers.2 = b).




(** The fixture in view exists whenever there are fixtures. *)
Definition viewInRange (st : State) : Prop :=
  matches st = [] ∨ currentMatchViewIndex st < length (matches st).

(** The team called [teamName] is one of the two sides of a fixture. *)
Definition takesPart (teamName : string) (match_ : string * string) : bool :=
  String.eqb match_.1 teamName || String.eqb match_.2 teamName.

(** The ids of the teams and of their players, in the order of the
    team data. *)
Definition allIds (teams : list Team) : list string :=
  flat_map (fun team => team_id team :: map player_id (players team)) teams.

(** The id that [generateUniqueId] returns at the counter value [k]. *)
Definition idOf (k : nat) : string := "id-" +:+ pretty k.

(** No id occurs twice, and every id was drawn at a counter value below
    [counter]. *)
Definition idsFresh (counter : nat) (ids : list string) : Prop :=
  NoDup ids ∧ ∀ id, id ∈ ids -> ∃ k, k < counter ∧ id = idOf k.

(** A team and its players have names. *)
Definition named (team : Team) : Prop :=
  team_name team ≠ "" ∧ ∀ player, player ∈ players team -> player_name player ≠ "".

(** The team data has [numTeams] teams of [numPlayersPerTeam] players. *)
Definition rosterShape (teams perTeam : nat) (data : list Team) : Prop :=
  length data = teams ∧ ∀ team, team ∈ data -> length (players team) = perTeam.

(** On the naming screen the team index points at a team. *)
Definition namingInRange (st : State) : Prop :=
  appStage st = namingTeamsAndPlayers -> currentTeamIndex st < numTeams st.

(** ** Notions used to state the properties of the top-scorer list *)

(** [teamName] is the name under which [calculateTopScorers] files the
    tallies of a side with team id [teamId]: the name of the first team
    of the list that has this id, or ['Unknown Team'] when no team has
    it. *)
Definition namesSide (teams : list Team) (teamId teamName : string) : Prop :=
  (∃ i team,
      teams !! i = Some team ∧ team_id team = teamId
      ∧ (∀ j other, j < i -> teams !! j = Some other -> team_id other ≠ teamId)
      ∧ teamName = team_name team)
  ∨ ((∀ team, team ∈ teams -> team_id team ≠ teamId)
     ∧ teamName = "Unknown Team").

(** The tally [s] is that of a player on the roster of the first team
    with id [teamId]. *)
Definition onRoster (teams : list Team) (teamId : string) (s : ScorerEntry)
    : Prop :=
  ∃ team player,
    find (fun t => String.eqb (team_id t) teamId) teams = Some team
    ∧ player ∈ players team ∧ player_id player = playerId s.

(** The tallies of both sides of a result, and those of its snapshot,
    are of players of the team of their side. *)
Definition scorersOnRoster (teams : list Team) (m : MatchResult) : Prop :=
  (∀ side, Forall (onRoster teams (sideTeamId side m)) (sideScorers side m))
  ∧ ∀ scorers, originalGoalScorers m = Some scorers ->
      Forall (onRoster teams (team1Id m)) scorers.1
      ∧ Forall (onRoster teams (team2Id m)) scorers.2.

(** The same of every result of the league and of the stored leagues. *)
Record rostersKept (st : State) : Prop := {
  rk_results :
    Forall (scorersOnRoster (submittedTeamData st)) (matchResults st);
  rk_stored :
    map_Forall (fun _ s =>
                  Forall (scorersOnRoster (saved_submittedTeamData s))
                         (saved_matchResults s))
               (savedLeagues st)
}.

(** ** Part II: verified properties *)

(** *** Array helpers *)

Lemma find_Some {A} (p : A -> bool) l x :
  find p l = Some x -> x ∈ l ∧ p x = true.
Proof.
  induction l as [|y l IH]; simpl; [done|].
  destruct (p y) eqn:Hy.
  - intros [= ->]. split; [left | done].
  - intros H. destruct (IH H). split; [by right | done].
Qed.

Lemma find_None {A} (p : A -> bool) l :
  find p l = None -> ∀ x, x ∈ l -> p x = false.
Proof.
  induction l as [|y l IH]; simpl; intros H x Hx.
  - by apply elem_of_nil in Hx.
  - destruct (p y) eqn:Hy; [done|].
    apply elem_of_cons in Hx as [-> | Hx]; auto.
Qed.

Lemma find_is_Some {A} (p : A -> bool) l x :
  x ∈ l -> p x = true -> is_Some (find p l).
Proof.
  intros Hx Hp. destruct (find p l) eqn:E; [eauto|].
  rewrite (find_None _ _ E x Hx) in Hp. done.
Qed.

Lemma findIndex_Some {A} (p : A -> bool) l i :
  findIndex p l = Some i -> ∃ x, l !! i = Some x ∧ p x = true.
Proof.
  revert i. induction l as [|y l IH]; simpl; intros i; [done|].
  destruct (p y) eqn:Hy.
  - intros [= <-]. eauto.
  - destruct (findIndex p l) as [j|]; simpl; [|done].
    intros [= <-]. by apply IH.
Qed.

Lemma findIndex_is_Some {A} (p : A -> bool) l x :
  x ∈ l -> p x = true -> is_Some (findIndex p l).
Proof.
  induction l as [|y l IH]; simpl; intros Hx Hp.
  - by apply elem_of_nil in Hx.
  - destruct (p y) eqn:Hy; [eauto|].
    apply elem_of_cons in Hx as [-> | Hx]; [congruence|].
    destruct (IH Hx Hp) as [j ->]. simpl. eauto.
Qed.

(** *** C10: the guard of the standings accumulator *)

(** C10.  [applyMatchStatsToTeams] is a total function that returns the
    statistics list unchanged whenever a score of the match is unset or
    one of the two team ids is not found among the submitted teams. *)
Theorem applyMatchStatsToTeams_guarded
    (stats : list TeamStat) (m : MatchResult) (teams : list Team) (mult : Z) :
  team1Score m = None ∨ team2Score m = None
  ∨ find (fun t => String.eqb (team_id t) (team1Id m)) teams = None
  ∨ find (fun t => String.eqb (team_id t) (team2Id m)) teams = None ->
  applyMatchStatsToTeams stats m teams mult = stats.
Proof.
  unfold applyMatchStatsToTeams.
  intros [H | [H | [H | H]]]; rewrite H.
  - done.
  - by destruct (team1Score m).
  - by destruct (team1Score m), (team2Score m).
  - destruct (team1Score m), (team2Score m); try done.
    by destruct (find (fun t => String.eqb (team_id t) (team1Id m)) teams).
Qed.

(** A result whose second score is still unset leaves the table of the
    sample league as it is, whether it is applied or reverted. *)
Lemma applyMatchStatsToTeams_guarded_witness :
  let st := after sampleStart in
  let m := mkMatchResult "id-0" "id-3" (Some 2%Z) None [] []
             false false false None None in
  applyMatchStatsToTeams (teamStats st) m (submittedTeamData st) 1
  = teamStats st
  ∧ applyMatchStatsToTeams (teamStats st) m (submittedTeamData st) (-1)
    = teamStats st.
Proof.
  intros st m.
  split; apply applyMatchStatsToTeams_guarded; right; left; reflexivity.
Defined.

(** *** C1: a save with a scorer mismatch is rejected *)

(** C1.  When both scores of a result are set, the roster size is
    positive and the scorer tallies of a side do not add up to that side's
    score, [handleSaveResult] only raises the mismatch flag of that result
    and opens the warning: the [saved] flag of the result keeps its value,
    the standings and the set of played pairs are unchanged, and so is
    every other cell of the state. *)
Theorem handleSaveResult_mismatch_rejected
    (st : State) (idx : nat) (m : MatchResult) (score1 score2 : Z) :
  matchResults st !! idx = Some m ->
  team1Score m = Some score1 ->
  team2Score m = Some score2 ->
  0 < numPlayersPerTeam st ->
  goalsSum (team1GoalScorers m) ≠ score1
  ∨ goalsSum (team2GoalScorers m) ≠ score2 ->
  ∃ st',
    handleSaveResult idx st = Some st'
    ∧ matchResults st'
      = <[idx := set_goalScorerMismatch true m]> (matchResults st)
    ∧ goalScorerMismatch (set_goalScorerMismatch true m) = true
    ∧ saved (set_goalScorerMismatch true m) = saved m
    ∧ teamStats st' = teamStats st
    ∧ allPlayedPairs st' = allPlayedPairs st
    ∧ st' = showWarning msgGoalsMismatch
              (set_matchResults (matchResults st') st).
Proof.
  intros Hm H1 H2 Hn Hsum.
  unfold handleSaveResult. rewrite Hm. simpl. rewrite H1, H2.
  apply Nat.ltb_lt in Hn. rewrite Hn.
  assert (negb (goalsSum (team1GoalScorers m) =? score1)%Z
          || negb (goalsSum (team2GoalScorers m) =? score2)%Z = true) as ->.
  { apply orb_true_iff. destruct Hsum as [H | H]; [left | right];
      apply negb_true_iff, Z.eqb_neq, H. }
  eexists. split; [reflexivity|]. repeat split.
Qed.

(** The first fixture of the sample league with the score 2-1 typed in
    and no scorer chosen. *)
Lemma handleSaveResult_mismatch_rejected_witness :
  let st := after (sampleStart ++ [ChangeScore Side1 (Some 2%Z);
                                   ChangeScore Side2 (Some 1%Z)]) in
  ∃ st',
    handleSaveResult 0 st = Some st'
    ∧ matchResults st'
      = <[0 := mkMatchResult "id-0" "id-3" (Some 2%Z) (Some 1%Z) [] []
                 false true false None None]> (matchResults st)
    ∧ teamStats st' = teamStats st
    ∧ allPlayedPairs st' = allPlayedPairs st.
Proof.
  intros st.
  destruct (handleSaveResult_mismatch_rejected st 0
              (mkMatchResult "id-0" "id-3" (Some 2%Z) (Some 1%Z) [] []
                 false false false None None) 2 1)
    as (st' & Hrun & Hres & _ & _ & Hstats & Hpairs & _).
  - reflexivity.
  - reflexivity.
  - reflexivity.
  - vm_compute. lia.
  - left. vm_compute. discriminate.
  - exists st'. split; [exact Hrun|]. split; [exact Hres|].
    split; [exact Hstats | exact Hpairs].
Defined.

(** *** C6: choosing a goal scorer *)

Lemma sideScorers_updated side b v m :
  sideScorers side (set_goalScorerMismatch b (set_sideScorers side v m)) = v.
Proof. by destruct side. Qed.

Lemma existsb_app_r {A} (p : A -> bool) l x :
  p x = true -> existsb p (l ++ [x]) = true.
Proof. intros H. rewrite existsb_app. simpl. rewrite H. by rewrite orb_true_r. Qed.

(** C6, as the code has it.  For a result, a side and a player of that
    side's team, [handleSelectGoalScorer] appends a tally of one goal
    (line 254: "Default to 1 goal") when the side has no tally for the
    player, and leaves the scorer list as it is when it has one; choosing
    the same player again changes nothing at all. *)
Theorem handleSelectGoalScorer_appends_once
    (st : State) (idx : nat) (side : Side) (pid : string)
    (m : MatchResult) (team : Team) (player : Player) :
  matchResults st !! idx = Some m ->
  find (fun t => String.eqb (team_id t)
                   (match side with Side1 => team1Id m | Side2 => team2Id m end))
       (submittedTeamData st) = Some team ->
  find (fun p => String.eqb (player_id p) pid) (players team) = Some player ->
  pid ≠ "" ->
  ∃ st1 m1,
    handleSelectGoalScorer idx side pid st = Some st1
    ∧ matchResults st1 !! idx = Some m1
    ∧ sideScorers side m1 =
        (if existsb (fun s => String.eqb (playerId s) pid) (sideScorers side m)
         then sideScorers side m
         else sideScorers side m
                ++ [{| playerId := pid; playerName := player_name player;
                       goals := 1 |}])
    ∧ handleSelectGoalScorer idx side pid st1 = Some st1.
Proof.
  intros Hm Hteam Hplayer Hpid.
  assert (String.eqb pid "" = false) as Hne by by apply String.eqb_neq.
  assert (player_id player = pid) as Hid.
  { apply find_Some in Hplayer as [_ H]. by apply String.eqb_eq in H. }
  assert (idx < length (matchResults st)) as Hlt by by eapply lookup_lt_Some.
  unfold handleSelectGoalScorer at 1. rewrite Hne, Hm. simpl.
  rewrite Hteam. simpl. rewrite Hplayer, Hid.
  eexists _, _. split; [reflexivity|].
  split; [simpl; by apply list_lookup_insert_eq|].
  split; [by destruct side|].
  unfold handleSelectGoalScorer. rewrite Hne. simpl.
  rewrite list_lookup_insert_eq by done. simpl.
  rewrite sideScorers_updated.
  match goal with |- context [existsb ?p (if ?b then ?x else ?y)] =>
    assert (existsb p (if b then x else y) = true) as -> end.
  { destruct (existsb _ (sideScorers side m)) eqn:E; [done|].
    apply existsb_app_r. simpl. apply String.eqb_refl. }
  f_equal. unfold set_matchResults at 1 3. simpl.
  rewrite list_insert_insert_eq.
  do 2 f_equal. by destruct side.
Qed.

(** Ali is chosen for Alpha in the first fixture of the sample league. *)
Lemma handleSelectGoalScorer_appends_once_witness :
  let st := after (sampleStart ++ [ChangeScore Side1 (Some 2%Z)]) in
  ∃ st1 m1,
    handleSelectGoalScorer 0 Side1 "id-1" st = Some st1
    ∧ matchResults st1 !! 0 = Some m1
    ∧ team1GoalScorers m1 = [mkScorerEntry "id-1" "Ali" 1]
    ∧ handleSelectGoalScorer 0 Side1 "id-1" st1 = Some st1.
Proof.
  intros st.
  apply (handleSelectGoalScorer_appends_once st 0 Side1 "id-1"
           (mkMatchResult "id-0" "id-3" (Some 2%Z) None [] []
              false false false None None)
           (mkTeam "id-0" "Alpha"
              [mkPlayer "id-1" "Ali"; mkPlayer "id-2" "Babak"])
           (mkPlayer "id-1" "Ali")).
  - reflexivity.
  - reflexivity.
  - reflexivity.
  - discriminate.
Defined.

(** C6 as stated fails: with the score of Alpha set to 2 and no scorer
    yet, the select box offers Ali, and choosing him files a tally of one
    goal, not of zero. *)
Lemma handleSelectGoalScorer_tally_is_not_zero :
  let st := after (sampleStart ++ [ChangeScore Side1 (Some 2%Z)]) in
  enabled st (SelectGoalScorer Side1 "id-1") = true
  ∧ team1GoalScorers <$> matchResults st !! 0 = Some []
  ∧ team1GoalScorers <$>
      (handleSelectGoalScorer 0 Side1 "id-1" st
         ≫= fun st' => matchResults st' !! 0)
    = Some [mkScorerEntry "id-1" "Ali" 1]
  ∧ team1GoalScorers <$>
      (handleSelectGoalScorer 0 Side1 "id-1" st
         ≫= fun st' => matchResults st' !! 0)
    ≠ Some ([] ++ [mkScorerEntry "id-1" "Ali" 0]).
Proof.
  vm_compute. repeat split. discriminate.
Qed.

(** *** C3: the fixture generator *)

Section loops.
Context {A B : Type}.

Lemma foldl_push (f : A -> B) (l : list A) (acc : list B) :
  foldl (fun acc x => acc ++ [f x]) acc l = acc ++ map f l.
Proof.
  revert acc. induction l as [|x l IH]; intros acc; simpl.
  - by rewrite app_nil_r.
  - rewrite IH. by rewrite <- app_assoc.
Qed.

Lemma foldl_push_nested {C} (f : C -> A -> B) (g : C -> list A)
    (l : list C) (acc : list B) :
  foldl (fun acc i => foldl (fun acc j => acc ++ [f i j]) acc (g i)) acc l
  = acc ++ flat_map (fun i => map (f i) (g i)) l.
Proof.
  revert acc. induction l as [|i l IH]; intros acc; simpl.
  - by rewrite app_nil_r.
  - rewrite IH, foldl_push. by rewrite <- app_assoc.
Qed.
End loops.

Lemma flat_map_map {A B C} (f : B -> C) (g : A -> list B) (l : list A) :
  flat_map (fun x => map f (g x)) l = map f (flat_map g l).
Proof.
  induction l as [|x l IH]; simpl; [done|]. by rewrite map_app, IH.
Qed.

Lemma roundRobinLoops_indexPairs (teamNames : list string) :
  roundRobinLoops teamNames
  = map (fixtureOf teamNames) (indexPairs (length teamNames)).
Proof.
  unfold roundRobinLoops, indexPairs.
  rewrite (foldl_push_nested
             (fun i j => (teamNames !!! i, teamNames !!! j))
             (fun i => seq (i + 1) (length teamNames - (i + 1)))).
  simpl. rewrite <- flat_map_map. apply flat_map_ext. intros i.
  by rewrite map_map.
Qed.

Lemma elem_of_indexPairs n i j : (i, j) ∈ indexPairs n ↔ i < j < n.
Proof.
  unfold indexPairs. rewrite list_elem_of_In, in_flat_map. split.
  - intros (i' & Hi' & Hj). apply in_map_iff in Hj as (j' & [= <- <-] & Hj').
    apply in_seq in Hj'. lia.
  - intros H. exists i. split; [apply in_seq; lia|].
    apply in_map. apply in_seq. lia.
Qed.

(** The rows [a, a+1, ..., a+k-1] of the triangle, for [a + k = n]. *)
Lemma indexPairs_rows_sorted n k a :
  StronglySorted lexLt
    (flat_map (fun i => map (pair i) (seq (i + 1) (n - (i + 1)))) (seq a k)).
Proof.
  revert a. induction k as [|k IH]; intros a; simpl; [constructor|].
  apply StronglySorted_app_2.
  - intros [i j] [i' j'] H1 H2.
    apply list_elem_of_In, in_map_iff in H1 as (? & [= <- <-] & _).
    apply list_elem_of_In, in_flat_map in H2 as (r & Hx & H2).
    apply in_map_iff in H2 as (? & [= <- <-] & _).
    apply in_seq in Hx. left. simpl. lia.
  - apply (StronglySorted_fmap (pair a) lt).
    + intros x y Hxy. right. simpl. lia.
    + generalize (a + 1) (n - (a + 1)). intros s c. revert s.
      induction c as [|c IHc]; intros s; simpl; constructor; [apply IHc|].
      apply Forall_forall. intros y Hy. apply elem_of_seq in Hy. lia.
  - apply IH.
Qed.

Lemma indexPairs_rows_length n k a :
  a + k = n ->
  2 * length (flat_map (fun i => map (pair i) (seq (i + 1) (n - (i + 1))))
                       (seq a k))
  = k * (k - 1).
Proof.
  revert a. induction k as [|k IH]; intros a Hn; simpl; [done|].
  rewrite length_app, length_map, length_seq.
  specialize (IH (S a) ltac:(lia)). nia.
Qed.

Lemma indexPairs_length n : length (indexPairs n) = n * (n - 1) / 2.
Proof.
  pose proof (indexPairs_rows_length n n 0 eq_refl) as H.
  fold (indexPairs n) in H. rewrite <- H.
  rewrite Nat.mul_comm. by rewrite Nat.div_mul.
Qed.

Lemma lexLt_irrefl p : ¬ lexLt p p.
Proof. unfold lexLt. lia. Qed.

Lemma StronglySorted_irrefl_NoDup {A} (R : relation A) l :
  (∀ x, ¬ R x x) -> StronglySorted R l -> NoDup l.
Proof.
  intros Hirr. induction 1 as [|x l Hl IH Hx]; constructor; [|done].
  intros Hin. eapply Hirr. eapply Forall_forall in Hx; eauto.
Qed.

(** C3.  For [n >= 2] teams the generator returns one fixture for each
    index pair [i < j < n]: the list of pairs has [n * (n - 1) / 2]
    entries, is ordered by [i] and then by [j] (the order of the two
    loops), has no pair twice and no pair in both orders, and every match
    result starts with unset scores, empty scorer lists and [saved = false].
    For fewer than two teams the fixtures and the results are empty. *)
Theorem generateAllRoundRobinMatches_all_pairs (teams : list Team) (st : State) :
  let n := length teams in
  let teamNames := map team_name teams in
  (2 <= n ->
   ∃ pairs : list (nat * nat),
     generateAllRoundRobinMatches teams st
     = (st, (map (fixtureOf teamNames) pairs,
             map (newMatchResult teams) (map (fixtureOf teamNames) pairs)))
     ∧ length pairs = n * (n - 1) / 2
     ∧ (∀ i j, (i, j) ∈ pairs ↔ i < j < n)
     ∧ StronglySorted lexLt pairs
     ∧ NoDup pairs
     ∧ (∀ i j, (i, j) ∈ pairs -> (j, i) ∉ pairs)
     ∧ Forall (fun r =>
                 team1Score r = None ∧ team2Score r = None
                 ∧ team1GoalScorers r = [] ∧ team2GoalScorers r = []
                 ∧ saved r = false)
              (map (newMatchResult teams) (map (fixtureOf teamNames) pairs)))
  ∧ (n < 2 ->
     generateAllRoundRobinMatches teams st
     = (set_allPlayedPairs ∅ (set_matchResults [] (set_matches [] st)),
        ([], []))).
Proof.
  intros n teamNames. unfold generateAllRoundRobinMatches.
  rewrite length_map. fold n. split; intros Hn.
  - apply Nat.ltb_ge in Hn. rewrite Hn.
    exists (indexPairs n). fold teamNames.
    rewrite roundRobinLoops_indexPairs. unfold teamNames at 2 4.
    rewrite length_map. fold n teamNames.
    split; [done|]. split; [apply indexPairs_length|].
    split; [apply elem_of_indexPairs|].
    split; [apply indexPairs_rows_sorted|].
    split; [eapply StronglySorted_irrefl_NoDup;
            [apply lexLt_irrefl | apply indexPairs_rows_sorted]|].
    split.
    + intros i j Hij Hji. apply elem_of_indexPairs in Hij, Hji. lia.
    + apply Forall_forall. intros r Hr.
      apply list_elem_of_fmap in Hr as (f & -> & _). done.
  - apply Nat.ltb_lt in Hn. by rewrite Hn.
Qed.

(** The three sample teams give the fixtures of the specification's
    example: Alpha-Beta, Alpha-Gamma, Beta-Gamma. *)
Lemma generateAllRoundRobinMatches_all_pairs_witness :
  ∃ pairs : list (nat * nat),
    (generateAllRoundRobinMatches sampleTeams (initialState ∅)).2.1
    = map (fixtureOf (map team_name sampleTeams)) pairs
    ∧ length pairs = 3
    ∧ NoDup pairs.
Proof.
  destruct (generateAllRoundRobinMatches_all_pairs sampleTeams (initialState ∅))
    as [H _].
  destruct H as (pairs & Hgen & Hlen & _ & _ & Hnodup & _); [simpl; lia|].
  exists pairs. rewrite Hgen.
  split; [reflexivity|]. split; [exact Hlen | exact Hnodup].
Defined.

Example sample_fixtures :
  (generateAllRoundRobinMatches sampleTeams (initialState ∅)).2.1
  = [("Alpha", "Beta"); ("Alpha", "Gamma"); ("Beta", "Gamma")].
Proof. reflexivity. Qed.

(** When the team names are pairwise different, a team is found by its
    name, so the result generated for the index pair [(i, j)] refers to
    the teams at [i] and [j]. *)
Lemma find_by_name_NoDup teams i t :
  NoDup (map team_name teams) -> teams !! i = Some t ->
  find (fun x => String.eqb (team_name x) (team_name t)) teams = Some t.
Proof.
  revert i. induction teams as [|x teams IH]; intros i Hnd Hi; [done|].
  simpl in *. apply NoDup_cons in Hnd as [Hx Hnd].
  destruct i as [|i]; simpl in Hi.
  - injection Hi as ->. by rewrite String.eqb_refl.
  - destruct (String.eqb_spec (team_name x) (team_name t)) as [E | _].
    + exfalso. apply Hx. rewrite E. apply list_elem_of_fmap_2.
      by eapply list_elem_of_lookup_2.
    + by eapply IH.
Qed.

Lemma newMatchResult_ids teams i j ti tj :
  NoDup (map team_name teams) ->
  teams !! i = Some ti -> teams !! j = Some tj ->
  team1Id (newMatchResult teams (fixtureOf (map team_name teams) (i, j)))
  = team_id ti
  ∧ team2Id (newMatchResult teams (fixtureOf (map team_name teams) (i, j)))
    = team_id tj.
Proof.
  intros Hnd Hi Hj. unfold newMatchResult, fixtureOf. simpl.
  rewrite (list_lookup_total_correct (map team_name teams) i (team_name ti))
    by by rewrite list_lookup_fmap, Hi.
  rewrite (list_lookup_total_correct (map team_name teams) j (team_name tj))
    by by rewrite list_lookup_fmap, Hj.
  by rewrite (find_by_name_NoDup teams i ti), (find_by_name_NoDup teams j tj).
Qed.

(** *** C4: storing a league and loading it back *)

Lemma handleSaveLeagueConfirm_stores (st : State) :
  trim (saveLeagueInputName st) ≠ "" ->
  savedLeagues st !! trim (saveLeagueInputName st) = None
  ∨ showOverwriteConfirm st = true ->
  savedLeagues (handleSaveLeagueConfirm st) !! trim (saveLeagueInputName st)
  = Some {| saved_numTeams := numTeams st;
            saved_numPlayersPerTeam := numPlayersPerTeam st;
            saved_submittedTeamData := submittedTeamData st;
            saved_matchResults := map clearEditing (matchResults st);
            saved_teamStats := teamStats st;
            saved_roundNumber := roundNumber st;
            saved_allPlayedPairs := elements (allPlayedPairs st);
            saved_globalIdCounterValue := globalIdCounter st |}.
Proof.
  intros Hname Hfree. unfold handleSaveLeagueConfirm.
  apply String.eqb_neq in Hname. rewrite Hname.
  assert (bool_decide (is_Some (savedLeagues st !! trim (saveLeagueInputName st)))
          && negb (showOverwriteConfirm st) = false) as ->.
  { destruct Hfree as [H | H]; rewrite H.
    - rewrite bool_decide_eq_false_2; [done|]. by intros [? ?].
    - by rewrite andb_false_r. }
  simpl. apply lookup_insert_eq.
Qed.

(** C4.  A league is stored under the trimmed name of the save dialog
    (the name is free, or the overwrite was confirmed).  Loading that name
    from any later state that still holds the stored entry (directly, or
    after leaving the league or reloading the page) gives back the counts,
    the team data, the standings, the round flag, the played pairs and
    the id counter of the moment of the save, and the match results of
    that moment field for field, except that [isEditing],
    [originalScores] and [originalGoalScorers] are cleared. *)
Theorem league_round_trip (st st2 : State) :
  let leagueName := trim (saveLeagueInputName st) in
  leagueName ≠ "" ->
  savedLeagues st !! leagueName = None ∨ showOverwriteConfirm st = true ->
  savedLeagues st2 !! leagueName
  = savedLeagues (handleSaveLeagueConfirm st) !! leagueName ->
  let st3 := handleLoadLeague leagueName st2 in
  numTeams st3 = numTeams st
  ∧ numPlayersPerTeam st3 = numPlayersPerTeam st
  ∧ submittedTeamData st3 = submittedTeamData st
  ∧ teamStats st3 = teamStats st
  ∧ roundNumber st3 = roundNumber st
  ∧ allPlayedPairs st3 = allPlayedPairs st
  ∧ globalIdCounter st3 = globalIdCounter st
  ∧ matchResults st3 = map clearEditing (matchResults st)
  ∧ Forall2 (fun m m' =>
       team1Id m' = team1Id m ∧ team2Id m' = team2Id m
       ∧ team1Score m' = team1Score m ∧ team2Score m' = team2Score m
       ∧ team1GoalScorers m' = team1GoalScorers m
       ∧ team2GoalScorers m' = team2GoalScorers m
       ∧ saved m' = saved m
       ∧ goalScorerMismatch m' = goalScorerMismatch m
       ∧ isEditing m' = false
       ∧ originalScores m' = None
       ∧ originalGoalScorers m' = None)
      (matchResults st) (matchResults st3).
Proof.
  intros leagueName Hname Hfree Hkept st3.
  pose proof (handleSaveLeagueConfirm_stores st Hname Hfree) as Hstored.
  fold leagueName in Hstored. rewrite Hstored in Hkept.
  subst st3. unfold handleLoadLeague. rewrite Hkept. simpl.
  repeat split; try done.
  - apply list_to_set_elements_L.
  - rewrite map_map. by apply map_ext.
  - rewrite map_map. apply Forall2_fmap_r, Forall_Forall2_diag, Forall_forall.
    intros m _. by repeat split.
Qed.

(** The sample league with the first result saved as 2-1 and reopened
    for editing is stored as "cup"; the page is reloaded and the league
    loaded from the list of stored leagues. *)
Lemma league_round_trip_witness :
  let played :=
    sampleStart ++
    [ ChangeScore Side1 (Some 2%Z); ChangeScore Side2 (Some 1%Z);
      SelectGoalScorer Side1 "id-1"; ChangePlayerGoal Side1 0 (Some 2%Z);
      SelectGoalScorer Side2 "id-4"; ClickSaveResult;
      ClickPreviousMatch; ClickEditResult;
      ClickSaveLeague; TypeLeagueName " cup " ] in
  let st := after played in
  let st2 :=
    after (played ++ [ClickSaveLeagueConfirm; ReloadPage; ClickContinueLeague]) in
  let st3 := handleLoadLeague "cup" st2 in
  enabled st2 (ClickLoadLeague "cup") = true
  ∧ teamStats st3 = teamStats st
  ∧ allPlayedPairs st3 = allPlayedPairs st
  ∧ globalIdCounter st3 = 9
  ∧ matchResults st3 = map clearEditing (matchResults st).
Proof.
  intros played st st2 st3.
  destruct (league_round_trip st st2)
    as (_ & _ & _ & Hstats & _ & Hpairs & Hctr & Hres & _).
  - vm_compute. discriminate.
  - left. reflexivity.
  - vm_compute. reflexivity.
  - change (trim (saveLeagueInputName st)) with "cup" in *.
    split; [vm_compute; reflexivity|].
    split; [exact Hstats|]. split; [exact Hpairs|].
    split; [|exact Hres].
    etransitivity; [exact Hctr|]. vm_compute. reflexivity.
Defined.

(** *** The dictionary of the top-scorer list *)

(** Sorting with the comparator [b.key - a.key]. *)
Section sorting.
Context {A : Type} (key : A -> Z).

Lemma sortInsert_Permutation x l :
  sortInsert (fun a b => (key b - key a)%Z) x l ≡ₚ x :: l.
Proof.
  induction l as [|y l IH]; simpl; [done|].
  destruct (key y - key x <=? 0)%Z; [done|].
  rewrite IH. apply Permutation_swap.
Qed.

Lemma sort_Permutation l : sort (fun a b => (key b - key a)%Z) l ≡ₚ l.
Proof.
  induction l as [|x l IH]; simpl; [done|].
  unfold sort in IH. by rewrite sortInsert_Permutation, IH.
Qed.

Lemma sortInsert_sorted x l :
  StronglySorted (fun a b => (key b <= key a)%Z) l ->
  StronglySorted (fun a b => (key b <= key a)%Z)
                 (sortInsert (fun a b => (key b - key a)%Z) x l).
Proof.
  induction 1 as [|y l Hl IH Hy]; simpl.
  - repeat constructor.
  - destruct (key y - key x <=? 0)%Z eqn:E.
    + apply Z.leb_le in E. constructor; [by constructor|].
      constructor; [lia|].
      eapply Forall_impl; [exact Hy|]. intros z Hz. simpl in *. lia.
    + apply Z.leb_gt in E. constructor; [done|].
      rewrite sortInsert_Permutation. constructor; [lia|done].
Qed.

Lemma sort_sorted l :
  StronglySorted (fun a b => (key b <= key a)%Z)
                 (sort (fun a b => (key b - key a)%Z) l).
Proof.
  induction l as [|x l IH]; simpl; [constructor|].
  by apply sortInsert_sorted.
Qed.
End sorting.

Lemma foldl_addScorer_pairs tn table scorers :
  foldl (addScorer tn) table scorers
  = foldl fileScorer table (map (pair tn) scorers).
Proof.
  revert table. induction scorers as [|s l IH]; intros table; simpl; [done|].
  apply IH.
Qed.

Lemma playerGoalsTable_appearances st :
  playerGoalsTable st
  = foldl fileScorer [] (appearances (submittedTeamData st) (matchResults st)).
Proof.
  unfold playerGoalsTable, appearances.
  generalize (@nil (string * PlayerGoals)) as table.
  induction (matchResults st) as [|m l IH]; intros table; simpl; [done|].
  rewrite IH, !foldl_app, !foldl_addScorer_pairs. done.
Qed.

Lemma tableGet_addScorer pid tn table s :
  tableGet pid (addScorer tn table s)
  = if String.eqb (playerId s) pid then
      Some (match tableGet pid table with
            | Some e => mkPlayerGoals (pg_name e) (pg_goals e + goals s) (pg_teamName e)
            | None => mkPlayerGoals (playerName s) (goals s) tn
            end)
    else tableGet pid table.
Proof.
  induction table as [|[k e] rest IH]; simpl.
  - done.
  - destruct (String.eqb_spec k (playerId s)) as [-> | Hk]; simpl.
    + by destruct (String.eqb (playerId s) pid).
    + destruct (String.eqb_spec k pid) as [-> | Hp].
      * destruct (String.eqb_spec (playerId s) pid); [congruence | done].
      * apply IH.
Qed.

Lemma keys_addScorer tn table s :
  map fst (addScorer tn table s)
  = if bool_decide (playerId s ∈ map fst table) then map fst table
    else map fst table ++ [playerId s].
Proof.
  induction table as [|[k e] rest IH].
  - case_bool_decide as H; [by apply elem_of_nil in H | done].
  - cbn [addScorer map fst].
    destruct (String.eqb_spec k (playerId s)) as [-> | Hk].
    + clear IH. case_bool_decide as H; [done|]. exfalso. apply H. left.
    + cbn [map fst]. rewrite IH. clear IH.
      case_bool_decide as H1; case_bool_decide as H2; try done.
      * exfalso. apply H2. by right.
      * apply elem_of_cons in H2 as [? | ?]; congruence.
Qed.

Lemma tableGet_Some_elem pid table e :
  tableGet pid table = Some e -> (pid, e) ∈ table.
Proof.
  induction table as [|[k e'] rest IH]; simpl; [done|].
  destruct (String.eqb_spec k pid) as [-> | Hk].
  - intros [= ->]. left.
  - intros H. right. auto.
Qed.

Lemma tableGet_elem pid table e :
  NoDup (map fst table) -> (pid, e) ∈ table -> tableGet pid table = Some e.
Proof.
  induction table as [|[k e'] rest IH]; simpl; intros Hnd Hin.
  - by apply elem_of_nil in Hin.
  - apply NoDup_cons in Hnd as [Hk Hnd].
    apply elem_of_cons in Hin as [[= <- <-] | Hin].
    + by rewrite String.eqb_refl.
    + destruct (String.eqb_spec k pid) as [-> | Hne]; [|auto].
      exfalso. apply Hk. apply (list_elem_of_fmap_2 fst) in Hin. done.
Qed.

Lemma tableGet_None pid table :
  tableGet pid table = None ↔ pid ∉ map fst table.
Proof.
  induction table as [|[k e'] rest IH]; simpl.
  - split; [intros _; apply not_elem_of_nil | done].
  - destruct (String.eqb_spec k pid) as [-> | Hne].
    + split; [done|]. intros H. exfalso. apply H. left.
    + rewrite IH, not_elem_of_cons. split; [by intros H | by intros [_ H]].
Qed.

Lemma goalsOf_app pid l1 l2 :
  goalsOf pid (l1 ++ l2) = (goalsOf pid l1 + goalsOf pid l2)%Z.
Proof.
  unfold goalsOf. induction l1 as [|s l IH]; simpl; [done|].
  destruct (String.eqb (playerId s) pid); lia.
Qed.

Lemma totalGoals_appearances pid teams results :
  totalGoals pid results = goalsOf pid (map snd (appearances teams results)).
Proof.
  unfold appearances. induction results as [|m l IH]; simpl; [done|].
  rewrite !map_app, !goalsOf_app, !map_map. simpl. rewrite !map_id, IH. lia.
Qed.

Lemma tableFor_foldl l : tableFor l (foldl fileScorer [] l).
Proof.
  induction l as [|a l IH] using rev_ind.
  - split; [constructor|]. split.
    + intros pid. split; [by intros ?%elem_of_nil | by intros (? & ?%elem_of_nil & _)].
    + done.
  - rewrite foldl_app. simpl. destruct IH as (Hnd & Hkeys & Hget).
    set (table := foldl fileScorer [] l) in *.
    unfold fileScorer at 1. split; [|split].
    + rewrite keys_addScorer. case_bool_decide; [done|].
      apply NoDup_app. split; [done|]. split; [|apply NoDup_singleton].
      intros x Hx ->%list_elem_of_singleton. done.
    + intros pid. rewrite keys_addScorer. split.
      * intros Hin.
        assert (pid ∈ map fst table ∨ pid = playerId a.2) as [H | ->].
        { case_bool_decide; [by left|].
          apply elem_of_app in Hin as [? | ?%list_elem_of_singleton]; auto. }
        -- apply Hkeys in H as (b & Hb & Hpid). exists b.
           split; [apply elem_of_app; by left | done].
        -- exists a. split; [apply elem_of_app; right; left | done].
      * intros (b & Hb & Hpid). apply elem_of_app in Hb as [Hb | ->%list_elem_of_singleton].
        -- assert (pid ∈ map fst table) by (apply Hkeys; eauto).
           case_bool_decide; [done | apply elem_of_app; by left].
        -- subst pid. case_bool_decide; [done | apply elem_of_app; right; left].
    + intros pid e. rewrite tableGet_addScorer, map_app, goalsOf_app. simpl.
      destruct (String.eqb_spec (playerId a.2) pid) as [Heq | Hne].
      * destruct (tableGet pid table) as [e0|] eqn:E0; intros [= <-]; simpl.
        -- destruct (Hget pid e0 E0) as (Hg & b & Hb & Hp & Hn).
           split; [lia|]. exists b. split; [apply elem_of_app; by left | done].
        -- split.
           ++ assert (goalsOf pid (map snd l) = 0%Z) as ->; [|lia].
              apply tableGet_None in E0.
              assert (∀ b, b ∈ l -> playerId b.2 ≠ pid) as Hno.
              { intros b Hb Hp. apply E0, Hkeys. eauto. }
              clear -Hno. induction l as [|b l IH]; simpl; [done|].
              destruct (String.eqb_spec (playerId b.2) pid) as [Hp | _].
              ** exfalso. eapply Hno; [left | done].
              ** apply IH. intros c Hc. apply Hno. by right.
           ++ exists a. split; [apply elem_of_app; right; left | done].
      * intros E. destruct (Hget pid e E) as (Hg & b & Hb & Hp & Hn).
        split; [lia|]. exists b. split; [apply elem_of_app; by left | done].
Qed.

Lemma elem_of_appearances teams results a :
  a ∈ appearances teams results
  ↔ ∃ m side, m ∈ results ∧ a.2 ∈ sideScorers side m
              ∧ a.1 = sideTeamName teams (sideTeamId side m).
Proof.
  unfold appearances. rewrite list_elem_of_In, in_flat_map. split.
  - intros (m & Hm & Ha). apply list_elem_of_In in Hm.
    apply in_app_or in Ha as [Ha | Ha];
      apply in_map_iff in Ha as (s & <- & Hs); apply list_elem_of_In in Hs.
    + by exists m, Side1.
    + by exists m, Side2.
  - intros (m & side & Hm & Hs & Hn). exists m.
    split; [by apply list_elem_of_In|]. apply in_or_app.
    destruct a as [tn s]. simpl in *. subst tn.
    destruct side; [left | right]; apply in_map; by apply list_elem_of_In.
Qed.

(** In the sample league Ali is chosen as a scorer of the first fixture
    and nothing is saved: he is listed with his tally all the same. *)
Example topScorers_count_unsaved_results :
  let st := after (sampleStart ++ [ChangeScore Side1 (Some 2%Z);
                                   SelectGoalScorer Side1 "id-1"]) in
  forallb saved (matchResults st) = false
  ∧ calculateTopScorers st = [mkPlayerGoals "Ali" 1 "Alpha"].
Proof. by vm_compute. Qed.

(** *** The standings accumulator: algebra *)

Lemma applyMatchStatsToTeams_contribution stats m teams k :
  applyMatchStatsToTeams stats m teams k
  = match contribution teams m with
    | Some c => applyContribution stats c k
    | None => stats
    end.
Proof.
  unfold applyMatchStatsToTeams, contribution.
  destruct (team1Score m), (team2Score m); try done.
  destruct (find _ teams); [|done].
  destruct (find _ teams); [|done].
  done.
Qed.

Lemma updateStatEntry_name t a b k : name (updateStatEntry t a b k) = name t.
Proof.
  unfold updateStatEntry. destruct (b <? a)%Z; [done|]. by destruct (a <? b)%Z.
Qed.

Lemma updateStatEntry_gdOk t a b k : gdOk (updateStatEntry t a b k).
Proof.
  unfold gdOk, updateStatEntry.
  destruct (b <? a)%Z; [done|]. by destruct (a <? b)%Z.
Qed.

Lemma updateStatEntry_comm t a b k c d k' :
  updateStatEntry (updateStatEntry t a b k) c d k'
  = updateStatEntry (updateStatEntry t c d k') a b k.
Proof.
  unfold updateStatEntry.
  destruct (b <? a)%Z, (a <? b)%Z, (d <? c)%Z, (c <? d)%Z; simpl;
    f_equal; lia.
Qed.

Lemma updateStatEntry_revert t a b :
  gdOk t -> updateStatEntry (updateStatEntry t a b 1) a b (-1) = t.
Proof.
  unfold gdOk, updateStatEntry. intros H. destruct t; simpl in *.
  destruct (b <? a)%Z, (a <? b)%Z; simpl; f_equal; lia.
Qed.

Lemma findIndex_ext {A} (p q : A -> bool) l :
  (∀ x, x ∈ l -> p x = q x) -> findIndex p l = findIndex q l.
Proof.
  induction l as [|x l IH]; simpl; intros H; [done|].
  rewrite (H x) by left. rewrite IH; [done|]. intros y Hy. apply H. by right.
Qed.

Lemma findIndex_fmap {A B} (f : A -> B) (p : B -> bool) l :
  findIndex p (f <$> l) = findIndex (p ∘ f) l.
Proof.
  induction l as [|x l IH]; csimpl; [done|]. by rewrite IH.
Qed.

(** An index found by name depends on the column of names only. *)
Lemma findIndex_names n (s s' : list TeamStat) :
  name <$> s = name <$> s' ->
  findIndex (fun t => String.eqb (name t) n) s
  = findIndex (fun t => String.eqb (name t) n) s'.
Proof.
  intros H.
  pose proof (findIndex_fmap name (fun x => String.eqb x n)) as E.
  unfold compose in E. by rewrite <- !E, H.
Qed.

Lemma alterAt_names (f : TeamStat -> TeamStat) oi s :
  (∀ t, name (f t) = name t) -> name <$> alterAt f oi s = name <$> s.
Proof.
  intros Hf. destruct oi as [i|]; simpl; [|done].
  apply list_eq. intros j. rewrite !list_lookup_fmap.
  destruct (decide (i = j)) as [<- | Hne].
  - rewrite list_lookup_alter_eq.
    destruct (s !! i); simpl; [by rewrite Hf | done].
  - by rewrite list_lookup_alter_ne.
Qed.

Lemma alterAt_comm {A} (f g : A -> A) oi oj (l : list A) :
  (∀ x, f (g x) = g (f x)) ->
  alterAt f oi (alterAt g oj l) = alterAt g oj (alterAt f oi l).
Proof.
  intros Hfg. destruct oi as [i|], oj as [j|]; simpl; try done.
  destruct (decide (i = j)) as [-> | Hne].
  - rewrite !list_alter_alter_eq. apply list_alter_ext; [|done].
    intros x _. simpl. apply Hfg.
  - by apply list_alter_alter_ne.
Qed.

Lemma applyContribution_names s c k :
  name <$> applyContribution s c k = name <$> s.
Proof.
  destruct c as [[[n1 n2] a] b]. unfold applyContribution.
  rewrite !alterAt_names; [done|..]; intros t; apply updateStatEntry_name.
Qed.

Lemma alterAt_comm4 {A} (f1 f2 g1 g2 : A -> A) i1 i2 j1 j2 (l : list A) :
  (∀ x, g1 (f1 x) = f1 (g1 x)) -> (∀ x, g1 (f2 x) = f2 (g1 x)) ->
  (∀ x, g2 (f1 x) = f1 (g2 x)) -> (∀ x, g2 (f2 x) = f2 (g2 x)) ->
  alterAt g2 j2 (alterAt g1 j1 (alterAt f2 i2 (alterAt f1 i1 l)))
  = alterAt f2 i2 (alterAt f1 i1 (alterAt g2 j2 (alterAt g1 j1 l))).
Proof.
  intros H11 H12 H21 H22.
  rewrite (alterAt_comm g1 f2 j1 i2) by done.
  rewrite (alterAt_comm g1 f1 j1 i1) by done.
  rewrite (alterAt_comm g2 f2 j2 i2) by done.
  rewrite (alterAt_comm g2 f1 j2 i1) by done.
  done.
Qed.

Lemma applyContribution_at s0 s n1 n2 a b k :
  name <$> s = name <$> s0 ->
  applyContribution s (n1, n2, a, b) k
  = alterAt (fun t => updateStatEntry t b a k)
            (findIndex (fun t => String.eqb (name t) n2) s0)
            (alterAt (fun t => updateStatEntry t a b k)
                     (findIndex (fun t => String.eqb (name t) n1) s0) s).
Proof.
  intros H. unfold applyContribution.
  by rewrite !(findIndex_names _ s s0).
Qed.

Lemma applyContribution_comm s c k c' k' :
  applyContribution (applyContribution s c k) c' k'
  = applyContribution (applyContribution s c' k') c k.
Proof.
  destruct c as [[[n1 n2] a] b], c' as [[[n1' n2'] a'] b'].
  rewrite (applyContribution_at s (applyContribution s _ k))
    by apply applyContribution_names.
  rewrite (applyContribution_at s (applyContribution s _ k'))
    by apply applyContribution_names.
  rewrite !(applyContribution_at s s) by done.
  apply alterAt_comm4; intros; apply updateStatEntry_comm.
Qed.

Lemma applyMatchStatsToTeams_names s m teams k :
  name <$> applyMatchStatsToTeams s m teams k = name <$> s.
Proof.
  rewrite applyMatchStatsToTeams_contribution.
  destruct (contribution teams m); [apply applyContribution_names | done].
Qed.

(** Two applications commute, whatever the results and the signs are. *)
Lemma applyMatchStatsToTeams_comm s teams m k m' k' :
  applyMatchStatsToTeams (applyMatchStatsToTeams s m teams k) m' teams k'
  = applyMatchStatsToTeams (applyMatchStatsToTeams s m' teams k') m teams k.
Proof.
  rewrite !applyMatchStatsToTeams_contribution.
  destruct (contribution teams m), (contribution teams m'); try done.
  apply applyContribution_comm.
Qed.

Lemma alterAt_id {A} (f : A -> A) oi (l : list A) :
  (∀ i x, oi = Some i -> l !! i = Some x -> f x = x) -> alterAt f oi l = l.
Proof.
  destruct oi as [i|]; simpl; [|done]. intros H.
  apply list_eq. intros j. destruct (decide (i = j)) as [<- | Hne].
  - rewrite list_lookup_alter_eq. destruct (l !! i) eqn:E; simpl; [|done].
    f_equal. by eapply H.
  - by rewrite list_lookup_alter_ne.
Qed.

Lemma alterAt_alterAt {A} (f g : A -> A) oi (l : list A) :
  alterAt f oi (alterAt g oi l) = alterAt (f ∘ g) oi l.
Proof. destruct oi; simpl; [apply list_alter_alter_eq | done]. Qed.

(** Reverting right after applying gives the table back. *)
Lemma alterAt_gdOk a b k oi s :
  Forall gdOk s -> Forall gdOk (alterAt (fun t => updateStatEntry t a b k) oi s).
Proof.
  intros H. destruct oi as [i|]; simpl; [|done].
  apply Forall_alter; [done|]. intros. apply updateStatEntry_gdOk.
Qed.

Lemma alterAt_revert a b oi s :
  Forall gdOk s ->
  alterAt (fun t => updateStatEntry t a b (-1)) oi
    (alterAt (fun t => updateStatEntry t a b 1) oi s) = s.
Proof.
  intros Hs. rewrite alterAt_alterAt. apply alterAt_id.
  intros i x _ Hx. simpl. apply updateStatEntry_revert.
  eapply Forall_lookup_1; eauto.
Qed.

Lemma applyContribution_revert s c :
  Forall gdOk s ->
  applyContribution (applyContribution s c 1) c (-1) = s.
Proof.
  intros Hs. destruct c as [[[n1 n2] a] b].
  rewrite (applyContribution_at s (applyContribution s _ 1))
    by apply applyContribution_names.
  rewrite (applyContribution_at s s) by done.
  rewrite (alterAt_comm (fun t => updateStatEntry t a b (-1))
                        (fun t => updateStatEntry t b a 1))
    by (intros; apply updateStatEntry_comm).
  rewrite alterAt_revert; [by apply alterAt_revert|].
  rewrite alterAt_revert by done. done.
Qed.

Lemma applyContribution_gdOk s c k :
  Forall gdOk s -> Forall gdOk (applyContribution s c k).
Proof.
  intros Hs. destruct c as [[[n1 n2] a] b]. unfold applyContribution.
  by do 2 apply alterAt_gdOk.
Qed.

Lemma applyMatchStatsToTeams_gdOk s m teams k :
  Forall gdOk s -> Forall gdOk (applyMatchStatsToTeams s m teams k).
Proof.
  intros Hs. rewrite applyMatchStatsToTeams_contribution.
  destruct (contribution teams m); [by apply applyContribution_gdOk | done].
Qed.

(** Reverting right after applying gives the table back. *)
Lemma applyMatchStatsToTeams_revert s m teams :
  Forall gdOk s ->
  applyMatchStatsToTeams (applyMatchStatsToTeams s m teams 1) m teams (-1) = s.
Proof.
  intros Hs. rewrite !applyMatchStatsToTeams_contribution.
  destruct (contribution teams m); [by apply applyContribution_revert | done].
Qed.

(** *** The table recomputed from the ledger *)

Lemma standings_foldl teams stats results :
  standings teams stats results = foldl (tally teams) (map resetStat stats) results.
Proof. done. Qed.

Lemma tally_names teams s m : name <$> tally teams s m = name <$> s.
Proof.
  unfold tally. destruct (saved m); [apply applyMatchStatsToTeams_names | done].
Qed.

Lemma foldl_tally_names teams rs s : name <$> foldl (tally teams) s rs = name <$> s.
Proof.
  revert s. induction rs as [|m rs IH]; intros s; simpl; [done|].
  by rewrite IH, tally_names.
Qed.

Lemma foldl_tally_gdOk teams rs s :
  Forall gdOk s -> Forall gdOk (foldl (tally teams) s rs).
Proof.
  revert s. induction rs as [|m rs IH]; intros s Hs; simpl; [done|].
  apply IH. unfold tally. destruct (saved m); [|done].
  by apply applyMatchStatsToTeams_gdOk.
Qed.

Lemma foldl_tally_apply teams rs s m k :
  foldl (tally teams) (applyMatchStatsToTeams s m teams k) rs
  = applyMatchStatsToTeams (foldl (tally teams) s rs) m teams k.
Proof.
  revert s. induction rs as [|r rs IH]; intros s; simpl; [done|].
  rewrite <- IH. f_equal. unfold tally. destruct (saved r); [|done].
  apply applyMatchStatsToTeams_comm.
Qed.

Lemma resetStat_names stats : name <$> (map resetStat stats) = name <$> stats.
Proof. rewrite <- list_fmap_compose. by apply list_fmap_ext. Qed.

Lemma resetStat_gdOk stats : Forall gdOk (map resetStat stats).
Proof. apply Forall_fmap, Forall_forall. by intros t _. Qed.

Lemma resetStat_by_names s s' :
  name <$> s = name <$> s' -> map resetStat s = map resetStat s'.
Proof.
  intros H.
  assert (∀ l, map resetStat l
               = (fun n => mkTeamStat n 0 0 0 0 0 0 0 0) <$> (name <$> l)) as E.
  { intros l. rewrite <- list_fmap_compose. by apply list_fmap_ext. }
  by rewrite !E, H.
Qed.

Lemma standings_names teams stats rs :
  name <$> standings teams stats rs = name <$> stats.
Proof. unfold standings. fold (tally teams). by rewrite foldl_tally_names, resetStat_names. Qed.

Lemma standings_gdOk teams stats rs : Forall gdOk (standings teams stats rs).
Proof. apply foldl_tally_gdOk, resetStat_gdOk. Qed.

Lemma standings_by_names teams s s' rs :
  name <$> s = name <$> s' -> standings teams s rs = standings teams s' rs.
Proof. intros H. unfold standings. by rewrite (resetStat_by_names s s'). Qed.

Lemma tally_unsaved teams s m : saved m = false -> tally teams s m = s.
Proof. unfold tally. by intros ->. Qed.

Lemma foldl_tally_tally teams rs s m :
  foldl (tally teams) (tally teams s m) rs
  = tally teams (foldl (tally teams) s rs) m.
Proof.
  destruct (saved m) eqn:E.
  - unfold tally at 2 3. rewrite E. apply foldl_tally_apply.
  - by rewrite !tally_unsaved.
Qed.

(** A result that was not saved is replaced: the table gains the tally
    of the new result. *)
Lemma standings_insert teams stats rs i m0 m' :
  rs !! i = Some m0 -> saved m0 = false ->
  standings teams stats (<[i := m']> rs)
  = tally teams (standings teams stats rs) m'.
Proof.
  intros Hi H0. unfold standings. fold (tally teams).
  rewrite insert_take_drop by by eapply lookup_lt_Some.
  rewrite <- (take_drop_middle rs i m0) at 3 by done.
  rewrite !foldl_app. simpl. rewrite (tally_unsaved _ _ m0) by done.
  apply foldl_tally_tally.
Qed.

(** A result is replaced by one with the same tally. *)
Lemma standings_insert_same teams stats rs i m m' :
  rs !! i = Some m ->
  (∀ table, tally teams table m' = tally teams table m) ->
  standings teams stats (<[i := m']> rs) = standings teams stats rs.
Proof.
  intros Hi Hsame. unfold standings. fold (tally teams).
  rewrite insert_take_drop by by eapply lookup_lt_Some.
  rewrite <- (take_drop_middle rs i m) at 3 by done.
  rewrite !foldl_app. simpl. by rewrite Hsame.
Qed.

Lemma contribution_ext teams m m' :
  team1Id m' = team1Id m -> team2Id m' = team2Id m ->
  team1Score m' = team1Score m -> team2Score m' = team2Score m ->
  contribution teams m' = contribution teams m.
Proof. unfold contribution. by intros -> -> -> ->. Qed.

Lemma applyMatchStatsToTeams_ext teams m m' s k :
  team1Id m' = team1Id m -> team2Id m' = team2Id m ->
  team1Score m' = team1Score m -> team2Score m' = team2Score m ->
  applyMatchStatsToTeams s m' teams k = applyMatchStatsToTeams s m teams k.
Proof.
  intros. rewrite !applyMatchStatsToTeams_contribution.
  by rewrite (contribution_ext teams m m').
Qed.

Lemma neverSaved_lookup i rs m :
  rs !! i = Some m ->
  neverSaved i rs !! i = Some (clearEditing (set_saved false m)).
Proof. intros H. unfold neverSaved. by rewrite list_lookup_alter_eq, H. Qed.

Lemma insert_neverSaved i rs m' : <[i := m']> (neverSaved i rs) = <[i := m']> rs.
Proof.
  unfold neverSaved. apply list_eq. intros j.
  destruct (decide (i = j)) as [<- | Hne].
  - destruct (decide (i < length rs)).
    + rewrite !list_lookup_insert_eq; [done..|by rewrite length_alter].
    + rewrite !lookup_ge_None_2; [done| |]; rewrite ?length_insert, ?length_alter; lia.
  - rewrite !list_lookup_insert_ne by done. by rewrite list_lookup_alter_ne.
Qed.

(** The table of a ledger is the table of the ledger without the result
    at [i], plus the tally of that result. *)
Lemma standings_neverSaved teams stats rs i m :
  rs !! i = Some m ->
  standings teams stats rs
  = tally teams (standings teams stats (neverSaved i rs)) m.
Proof.
  intros Hi. rewrite <- (list_insert_id rs i m) at 1 by done.
  rewrite <- insert_neverSaved.
  eapply standings_insert; [by apply neverSaved_lookup | done].
Qed.

(** *** Column sums *)


Lemma findIndex_lt {A} (p : A -> bool) l i : findIndex p l = Some i -> i < length l.
Proof.
  intros H. apply findIndex_Some in H as (x & Hx & _). by eapply lookup_lt_Some.
Qed.










(** *** What each event does to the ledger *)

Lemma shownMatch_Some st match_ m :
  shownMatch st = Some (match_, m) ->
  matches st !! currentMatchViewIndex st = Some match_
  ∧ matchResults st !! currentMatchViewIndex st = Some m
  ∧ 0 < roundNumber st.
Proof.
  unfold shownMatch. destruct (0 <? roundNumber st) eqn:E; [|done].
  apply Nat.ltb_lt in E.
  destruct (activeLeagueView st); simpl; try done.
  destruct (0 <? length (matches st)); simpl; [|done].
  destruct (matches st !! currentMatchViewIndex st) as [x|]; simpl; [|done].
  destruct (matchResults st !! currentMatchViewIndex st) as [y|]; simpl; [|done].
  intros [= -> ->]. done.
Qed.

Ltac inv_shown :=
  match goal with
  | H : match shownMatch ?st with _ => _ end = true |- _ =>
      let E := fresh "Eshown" in
      destruct (shownMatch st) as [[? ?]|] eqn:E; [|discriminate H];
      apply shownMatch_Some in E as (? & ? & ?)
  end.

Lemma andb_true_l_r a b : a && b = true -> a = true ∧ b = true.
Proof. by intros ?%andb_true_iff. Qed.

Ltac split_guard :=
  repeat match goal with
  | H : _ && _ = true |- _ => apply andb_true_l_r in H as [? ?]
  end.

Lemma step_effect st ev st' : step st ev st' -> effect st ev st'.
Proof.
  intros [Hen Hh].
  destruct ev; simpl in Hen, Hh.
  all: try (injection Hh as <-; by apply eff_frame).
  - (* ClickStartNewLeague *)
    injection Hh as <-. apply (eff_reset _ _ _ (savedLeagues st)); [by left | done].
  - (* ClickContinueLeague *)
    injection Hh as <-. unfold handleContinueLeague. case_decide; by apply eff_frame.
  - (* SetupScreens *)
    injection Hh as <-. destruct askConfirm; by apply eff_frame.
  - (* StartTheGames *)
    injection Hh as <-. split_guard. unfold startTheGames.
    destruct (length teamsToUse <? 2) eqn:E.
    + match goal with H : (roundNumber st =? 0) = true |- _ =>
        apply Nat.eqb_eq in H; apply (eff_start_few _ _ _ teamsToUse); [done|];
        unfold core; simpl; by rewrite H
      end.
    + unfold generateAllRoundRobinMatches. rewrite length_map, E.
      apply Nat.ltb_ge in E. by apply (eff_start _ _ _ teamsToUse).
  - (* ChangeScore *)
    inv_shown. unfold handleScoreChange in Hh.
    destruct (matchResults st !! currentMatchViewIndex st) as [r|] eqn:Er; [|done].
    simplify_eq/=. eapply eff_result; [done| |done].
    apply change_typed; try done; by destruct team.
  - (* ChangePlayerGoal *)
    inv_shown. split_guard. unfold handlePlayerGoalChange in Hh.
    destruct (matchResults st !! currentMatchViewIndex st) as [r|] eqn:Er; [|done].
    simpl in Hh. destruct (sideScorers teamNum r !! scorerIndex); [|done].
    simplify_eq/=. eapply eff_result; [done| |done].
    apply change_typed; try done; by destruct teamNum.
  - (* SelectGoalScorer *)
    inv_shown. unfold handleSelectGoalScorer in Hh.
    destruct (String.eqb selectedId ""); [injection Hh as <-; by apply eff_frame|].
    destruct (matchResults st !! currentMatchViewIndex st) as [r|] eqn:Er; [|done].
    destruct (find _ (submittedTeamData st)) eqn:Ef in Hen; [|done].
    split_guard. unfold showScorerDropdown in *. split_guard.
    simplify_eq/=. eapply eff_result; [done| |done].
    apply change_typed; try done; by destruct teamNum.
  - (* ClickRemoveGoalScorer *)
    inv_shown. split_guard. unfold handleRemoveGoalScorer in Hh.
    destruct (matchResults st !! currentMatchViewIndex st) as [r|] eqn:Er; [|done].
    simplify_eq/=. eapply eff_result; [done| |done].
    apply change_typed; try done; by destruct teamNum.
  - (* ClickSaveResult *)
    inv_shown. split_guard. unfold handleSaveResult in Hh.
    destruct (matchResults st !! currentMatchViewIndex st) as [r|] eqn:Er; [|done].
    simplify_eq/=.
    destruct (team1Score m) as [score1|] eqn:E1; [|injection Hh as <-; by apply eff_frame].
    destruct (team2Score m) as [score2|] eqn:E2; [|injection Hh as <-; by apply eff_frame].
    match type of Hh with (if ?c then _ else _) = _ => destruct c end.
    + injection Hh as <-. eapply eff_result; [done| |done].
      by apply change_typed.
    + destruct (matches st !! currentMatchViewIndex st) as [mt|]; [|done].
      simpl in Hh. injection Hh as <-.
      apply (eff_save _ _ _ (currentMatchViewIndex st) m
               (set_goalScorerMismatch false
                  (set_originalGoalScorers None
                     (set_originalScores None
                        (set_isEditing false (set_saved true m))))));
        done.
  - (* ClickEditResult *)
    inv_shown. unfold handleEditResult in Hh.
    destruct (matchResults st !! currentMatchViewIndex st) as [r|] eqn:Er; [|done].
    simplify_eq/=. eapply eff_result; [done| |done].
    apply change_edit; try done. by apply negb_true_iff.
  - (* ClickCancelEdit *)
    inv_shown. unfold handleCancelEdit in Hh.
    destruct (matchResults st !! currentMatchViewIndex st) as [r|] eqn:Er; [|done].
    simplify_eq/=. eapply eff_result; [done| |done].
    destruct (originalScores m) as [o|] eqn:Eo;
      [destruct (originalGoalScorers m) as [g|] eqn:Eg|].
    + by eapply change_cancel.
    + apply change_cancel_bare; try done. by right.
    + apply change_cancel_bare; try done. by left.
  - (* ClickResetLeague *)
    injection Hh as <-. apply (eff_reset _ _ _ (savedLeagues st)); [by left | done].
  - (* ClickSaveLeagueConfirm *)
    injection Hh as <-. unfold handleSaveLeagueConfirm.
    destruct (String.eqb _ ""); [by apply eff_frame|].
    destruct (_ && _); [by apply eff_frame|].
    by eapply eff_store.
  - (* ClickExitLeague *)
    injection Hh as <-. apply (eff_reset _ _ _ (savedLeagues st)); [by left | done].
  - (* ClickLoadLeague *)
    injection Hh as <-. split_guard. unfold handleLoadLeague.
    destruct (savedLeagues st !! leagueName) as [s|] eqn:Es; [|by apply eff_frame].
    apply (eff_load _ _ _ leagueName s
             (map (fun mr =>
                     (nameOrUnknown
                        (find (fun t => String.eqb (team_id t) (team1Id mr))
                              (saved_submittedTeamData s)),
                      nameOrUnknown
                        (find (fun t => String.eqb (team_id t) (team2Id mr))
                              (saved_submittedTeamData s))))
                  (saved_matchResults s)));
      [done | reflexivity | apply length_map].
  - (* ClickDeleteLeague *)
    injection Hh as <-. unfold handleDeleteLeague, deleteLeagueFromStorage.
    simpl. destruct (bool_decide (currentLeagueName st = Some leagueName)).
    + apply (eff_reset _ _ _ (delete leagueName (savedLeagues st)));
        [right; eauto | done].
    + by apply (eff_delete _ _ _ leagueName).
  - (* ReloadPage *)
    injection Hh as <-. apply (eff_reset _ _ _ (savedLeagues st)); [by left | done].
Qed.

(** No handler fails when it is fired from a control that is rendered and
    enabled. *)
Lemma enabled_handle st ev : enabled st ev = true -> is_Some (handle ev st).
Proof.
  intros Hen. destruct ev; simpl in *; try by eexists.
  - (* ChangeScore *)
    inv_shown. unfold handleScoreChange.
    match goal with H : matchResults st !! _ = Some _ |- _ => rewrite H end.
    by eexists.
  - (* ChangePlayerGoal *)
    inv_shown. split_guard. unfold handlePlayerGoalChange.
    match goal with H : matchResults st !! _ = Some _ |- _ => rewrite H end.
    simpl.
    match goal with H : (scorerIndex <? _) = true |- _ =>
      apply Nat.ltb_lt, lookup_lt_is_Some in H as [e ->] end.
    by eexists.
  - (* SelectGoalScorer *)
    inv_shown. unfold handleSelectGoalScorer.
    destruct (String.eqb selectedId ""); [by eexists|].
    match goal with H : matchResults st !! _ = Some _ |- _ => rewrite H end.
    by eexists.
  - (* ClickRemoveGoalScorer *)
    inv_shown. unfold handleRemoveGoalScorer.
    match goal with H : matchResults st !! _ = Some _ |- _ => rewrite H end.
    by eexists.
  - (* ClickSaveResult *)
    inv_shown. unfold handleSaveResult.
    match goal with H : matchResults st !! _ = Some _ |- _ => rewrite H end.
    simpl. destruct (team1Score m); [|by eexists].
    destruct (team2Score m); [|by eexists].
    match goal with |- is_Some (if ?c then _ else _) => destruct c end;
      [by eexists|].
    match goal with H : matches st !! _ = Some _ |- _ => rewrite H end.
    by eexists.
  - (* ClickEditResult *)
    inv_shown. unfold handleEditResult.
    match goal with H : matchResults st !! _ = Some _ |- _ => rewrite H end.
    by eexists.
  - (* ClickCancelEdit *)
    inv_shown. unfold handleCancelEdit.
    match goal with H : matchResults st !! _ = Some _ |- _ => rewrite H end.
    by eexists.
Qed.

(** *** Invariants of the reachable states *)

Lemma statsAfterSave_gdOk teams stats m :
  Forall gdOk stats -> Forall gdOk (statsAfterSave teams stats m).
Proof.
  intros H. unfold statsAfterSave. apply applyMatchStatsToTeams_gdOk.
  destruct (originalScores m); [|done].
  destruct (saved m && isEditing m); [|done].
  by apply applyMatchStatsToTeams_gdOk.
Qed.

Lemma statsAfterSave_names teams stats m :
  name <$> statsAfterSave teams stats m = name <$> stats.
Proof.
  unfold statsAfterSave. rewrite applyMatchStatsToTeams_names.
  destruct (originalScores m); [|done].
  destruct (saved m && isEditing m); [|done].
  apply applyMatchStatsToTeams_names.
Qed.

Lemma resultChange_editingIsSaved m m' :
  resultChange m m' -> editingIsSaved m -> editingIsSaved m'.
Proof.
  unfold editingIsSaved.
  intros [He H1 H2 Hs Hed Ho Hg | He H1 H2 Hs Hed Ho Hg _ _
          | o g He Ho Hg H1 H2 Hs Hed _ _ _ _ | He Ho H1 H2 Hs Hed _ _ _ _] Hm.
  - rewrite Hs, Hed. done.
  - intros _. rewrite Hs. unfold editable in He.
    apply orb_false_iff in He as [He _]. by apply negb_false_iff in He.
  - by rewrite Hed.
  - by rewrite Hed.
Qed.

Lemma wellFormed_effect st ev st' :
  wellFormed (core st) -> effect st ev st' -> wellFormed (core st').
Proof.
  intros [Hs Hst He Hm] Heff. simpl in *.
  destruct Heff as [-> | i m m' Hi Hch -> | i m m' Hi _ _ _ _ _ _ _ _ Hed _ _ ->
                    | teams _ -> | teams _ -> | stored Hstored -> | n ->
                    | n _ -> | n s loaded Hn -> Hlen]; simpl.
  - done.
  - split; simpl; try done.
    + apply Forall_insert; [done|].
      eapply resultChange_editingIsSaved; [done|]. eapply Forall_lookup_1; eauto.
    + by rewrite length_insert.
  - split; simpl; try done.
    + by apply statsAfterSave_gdOk.
    + apply Forall_insert; [done|]. intros ?. congruence.
    + by rewrite length_insert.
  - split; simpl; try done.
    + apply Forall_fmap, Forall_forall. by intros t _.
    + apply Forall_fmap, Forall_forall. by intros t _.
    + by rewrite length_map.
  - split; simpl; done.
  - split; simpl; try done.
    destruct Hstored as [-> | [n ->]]; [done|]. by apply map_Forall_delete.
  - split; simpl; try done. by apply map_Forall_delete.
  - split; simpl; try done. by apply map_Forall_insert_2.
  - split; simpl; try done.
    + by apply (map_Forall_lookup_1 _ _ _ _ Hst Hn).
    + apply Forall_fmap, Forall_forall. by intros t _.
    + by rewrite Hlen, length_map.
Qed.

Lemma wellFormed_init : wellFormed (core (initialState ∅)).
Proof. split; simpl; done. Qed.

Lemma reachable_wellFormed st : reachable st -> wellFormed (core st).
Proof.
  induction 1 as [|st ev st' _ IH Hstep]; [apply wellFormed_init|].
  eapply wellFormed_effect; [done|]. by eapply step_effect.
Qed.

(** *** The table agrees with the ledger *)

Lemma committed_ids m :
  team1Id (committed m) = team1Id m ∧ team2Id (committed m) = team2Id m.
Proof.
  unfold committed. destruct (isEditing m); [|done]. by destruct (originalScores m).
Qed.

Lemma committed_not_editing m : isEditing m = false -> committed m = m.
Proof. unfold committed. by intros ->. Qed.

Lemma committed_editing m o :
  isEditing m = true -> originalScores m = Some o ->
  committed m = set_team2Score o.2 (set_team1Score o.1 m).
Proof. unfold committed. by intros -> ->. Qed.

Lemma referenced_ext teams stats stats' m m' :
  team1Id m' = team1Id m -> team2Id m' = team2Id m ->
  name <$> stats' = name <$> stats ->
  referenced teams stats m -> referenced teams stats' m'.
Proof.
  intros H1 H2 Hn (t1 & t2 & Hf1 & Hf2 & Hi1 & Hi2).
  exists t1, t2. rewrite H1, H2. repeat split; try done.
  - by rewrite (findIndex_names _ stats' stats).
  - by rewrite (findIndex_names _ stats' stats).
Qed.

Lemma resultChange_ids m m' :
  resultChange m m' -> team1Id m' = team1Id m ∧ team2Id m' = team2Id m.
Proof. by intros []. Qed.

Lemma resultChange_snapshot m m' :
  resultChange m m' -> editingHasSnapshot m -> editingHasSnapshot m'.
Proof.
  unfold editingHasSnapshot.
  intros [He H1 H2 Hs Hed Ho Hg | He H1 H2 Hs Hed Ho Hg _ _
          | o g He Ho Hg H1 H2 Hs Hed _ _ _ _ | He Ho H1 H2 Hs Hed _ _ _ _] Hm.
  - by rewrite Hed, Ho, Hg.
  - intros _. by rewrite Ho.
  - by rewrite Hed.
  - by rewrite Hed.
Qed.

Lemma tally_ext teams table m m' :
  saved m' = saved m ->
  team1Id m' = team1Id m -> team2Id m' = team2Id m ->
  team1Score (committed m') = team1Score (committed m) ->
  team2Score (committed m') = team2Score (committed m) ->
  tally teams table m' = tally teams table m.
Proof.
  intros Hs H1 H2 Hs1 Hs2. unfold tally. rewrite Hs.
  destruct (saved m); [|done].
  apply applyMatchStatsToTeams_ext; try done.
  - destruct (committed_ids m) as [-> _], (committed_ids m') as [-> _]. done.
  - destruct (committed_ids m) as [_ ->], (committed_ids m') as [_ ->]. done.
Qed.

Lemma resultChange_tally teams table m m' :
  resultChange m m' -> editingHasSnapshot m ->
  tally teams table m' = tally teams table m.
Proof.
  intros Hch Hsnap.
  destruct (saved m) eqn:Esaved.
  2:{ unfold tally. rewrite Esaved.
      assert (saved m' = false) as -> by (destruct Hch; congruence). done. }
  destruct Hch as [He H1 H2 Hs Hed Ho Hg | He H1 H2 Hs Hed Ho Hg Hs1 Hs2
          | o g He Ho Hg H1 H2 Hs Hed Ho' Hg' Hs1 Hs2
          | He Ho H1 H2 Hs Hed _ _ _ _].
  - (* typing into a result in edit mode *)
    unfold editable in He. rewrite Esaved in He. simpl in He.
    destruct (Hsnap He) as [[o Eo] _].
    apply tally_ext; try done;
      rewrite (committed_editing m o), (committed_editing m' o) by congruence;
      done.
  - (* entering edit mode *)
    unfold editable in He. apply orb_false_iff in He as [_ He].
    apply tally_ext; try done;
      rewrite (committed_not_editing m), (committed_editing m' _ Hed Ho) by done;
      done.
  - (* cancelling the edit *)
    apply tally_ext; try done;
      rewrite (committed_editing m o), (committed_not_editing m') by done;
      done.
  - destruct (Hsnap He) as [[? ?] [? ?]]. destruct Ho; congruence.
Qed.

Lemma ledgerOk_result teams stats rs round i m m' :
  ledgerOk teams stats rs round ->
  rs !! i = Some m -> resultChange m m' ->
  ledgerOk teams stats (<[i := m']> rs) round.
Proof.
  intros (Href & Hsnap & Hstand & Hidle) Hi Hch.
  pose proof (Forall_lookup_1 _ _ _ _ Href Hi) as Hrm.
  pose proof (Forall_lookup_1 _ _ _ _ Hsnap Hi) as Hsm.
  destruct (resultChange_ids _ _ Hch) as [H1 H2].
  split; [|split; [|split]].
  - apply Forall_insert; [done|]. by eapply referenced_ext.
  - apply Forall_insert; [done|]. by eapply resultChange_snapshot.
  - rewrite (standings_insert_same teams stats rs i m m'); [done..|].
    intros table. by apply resultChange_tally.
  - intros Hr. destruct (Hidle Hr) as [_ ->]. done.
Qed.

Lemma ledgerOk_save teams stats rs round i m m' :
  ledgerOk teams stats rs round ->
  rs !! i = Some m ->
  editable m = true ->
  team1Id m' = team1Id m -> team2Id m' = team2Id m ->
  team1Score m' = team1Score m -> team2Score m' = team2Score m ->
  saved m' = true -> isEditing m' = false ->
  ledgerOk teams (statsAfterSave teams stats m) (<[i := m']> rs) round
  ∧ statsAfterSave teams stats m
    = applyMatchStatsToTeams (standings teams stats (neverSaved i rs)) m teams 1.
Proof.
  intros (Href & Hsnap & Hstand & Hidle) Hi He H1 H2 Hs1 Hs2 Hsaved Hed.
  pose proof (Forall_lookup_1 _ _ _ _ Href Hi) as Hrm.
  pose proof (Forall_lookup_1 _ _ _ _ Hsnap Hi) as Hsm.
  assert (statsAfterSave teams stats m
          = applyMatchStatsToTeams (standings teams stats (neverSaved i rs))
              m teams 1) as Hafter.
  { unfold statsAfterSave. destruct (saved m) eqn:Esaved.
    - unfold editable in He. rewrite Esaved in He. simpl in He.
      destruct (Hsm He) as [[o Eo] _]. rewrite Eo, He. simpl.
      rewrite Hstand at 1.
      rewrite (standings_neverSaved teams stats rs i m Hi).
      unfold tally. rewrite Esaved, (committed_editing m o He Eo).
      by rewrite applyMatchStatsToTeams_revert by apply standings_gdOk.
    - simpl. assert (neverSaved i rs = <[i := clearEditing (set_saved false m)]> rs) as ->.
      { unfold neverSaved. apply list_eq. intros j.
        destruct (decide (i = j)) as [<- | Hne].
        - rewrite list_lookup_alter_eq, Hi. simpl.
          rewrite list_lookup_insert_eq; [done|]. by eapply lookup_lt_Some.
        - by rewrite list_lookup_alter_ne, list_lookup_insert_ne. }
      rewrite (standings_insert teams stats rs i m) by done.
      rewrite tally_unsaved by done. rewrite <- Hstand.
      by destruct (originalScores m). }
  split; [|done]. split; [|split; [|split]].
  - apply Forall_insert.
    + eapply Forall_impl; [exact Href|]. intros r Hr.
      eapply referenced_ext; [done|done| |done]. apply statsAfterSave_names.
    + eapply referenced_ext; [done|done| |done]. apply statsAfterSave_names.
  - apply Forall_insert; [done|]. intros ?. congruence.
  - rewrite (standings_by_names teams _ stats) by apply statsAfterSave_names.
    rewrite <- insert_neverSaved.
    rewrite (standings_insert teams stats (neverSaved i rs) i
               (clearEditing (set_saved false m)));
      [|by apply neverSaved_lookup|done].
    rewrite Hafter. unfold tally. rewrite Hsaved.
    rewrite (committed_not_editing m') by done.
    symmetry. by apply applyMatchStatsToTeams_ext.
  - intros Hr. destruct (Hidle Hr) as [_ ->]. done.
Qed.

Lemma lookup_total_elem (l : list string) i : i < length l -> l !!! i ∈ l.
Proof.
  intros H. apply list_elem_of_lookup. exists i.
  by apply list_lookup_lookup_total_lt.
Qed.

Lemma roundRobinLoops_names teamNames p :
  p ∈ roundRobinLoops teamNames -> p.1 ∈ teamNames ∧ p.2 ∈ teamNames.
Proof.
  rewrite roundRobinLoops_indexPairs. intros ([i j] & -> & Hij)%list_elem_of_fmap.
  apply elem_of_indexPairs in Hij. simpl.
  split; apply lookup_total_elem; lia.
Qed.

Lemma find_by_name_id teams n :
  n ∈ map team_name teams ->
  ∃ t t', find (fun t => String.eqb (team_name t) n) teams = Some t
          ∧ find (fun x => String.eqb (team_id x) (team_id t)) teams = Some t'
          ∧ team_name t' ∈ map team_name teams.
Proof.
  intros (t0 & -> & Ht0)%list_elem_of_fmap.
  destruct (find_is_Some (fun t => String.eqb (team_name t) (team_name t0)) teams t0)
    as [t Ht]; [done | apply String.eqb_refl |].
  pose proof (find_Some _ _ _ Ht) as [Hin _].
  destruct (find_is_Some (fun x => String.eqb (team_id x) (team_id t)) teams t)
    as [t' Ht']; [done | apply String.eqb_refl |].
  exists t, t'. repeat split; try done.
  apply find_Some in Ht' as [Hin' _]. by apply list_elem_of_fmap_2.
Qed.

Lemma findIndex_initial teams n :
  n ∈ map team_name teams ->
  is_Some (findIndex (fun t => String.eqb (name t) n) (map initialTeamStat teams)).
Proof.
  intros (t0 & -> & Ht0)%list_elem_of_fmap.
  apply (findIndex_is_Some _ _ (initialTeamStat t0)).
  - by apply list_elem_of_fmap_2.
  - apply String.eqb_refl.
Qed.

Lemma ledgerOk_start teams :
  ledgerOk teams (map initialTeamStat teams)
    (map (newMatchResult teams) (roundRobinLoops (map team_name teams))) 1.
Proof.
  split; [|split; [|split]].
  - apply Forall_fmap, Forall_forall. intros p Hp.
    apply roundRobinLoops_names in Hp as [Hp1 Hp2].
    destruct (find_by_name_id teams _ Hp1) as (t1 & t1' & Hn1 & Hi1 & Hin1).
    destruct (find_by_name_id teams _ Hp2) as (t2 & t2' & Hn2 & Hi2 & Hin2).
    exists t1', t2'. unfold newMatchResult. simpl. rewrite Hn1, Hn2. simpl.
    repeat split; try done; by apply findIndex_initial.
  - apply Forall_fmap, Forall_forall. by intros p _ ?.
  - unfold standings.
    assert (map resetStat (map initialTeamStat teams) = map initialTeamStat teams) as ->.
    { rewrite map_map. by apply map_ext. }
    induction (roundRobinLoops (map team_name teams)) as [|p l IH]; simpl; done.
  - done.
Qed.

Lemma standings_clearEditing teams stats rs :
  Forall (fun m => isEditing m = false) rs ->
  standings teams stats (map clearEditing rs) = standings teams stats rs.
Proof.
  intros Hned. unfold standings. fold (tally teams).
  generalize (map resetStat stats) as table.
  induction Hned as [|m l Hm Hl IH]; intros table; simpl; [done|].
  rewrite IH. f_equal. apply tally_ext; try done.
  all: by rewrite !committed_not_editing.
Qed.

Lemma ledgerOk_clearEditing teams stats rs round :
  ledgerOk teams stats rs round ->
  Forall (fun m => isEditing m = false) rs ->
  ledgerOk teams stats (map clearEditing rs) round.
Proof.
  intros (Href & Hsnap & Hstand & Hidle) Hned.
  split; [|split; [|split]].
  - apply Forall_fmap. eapply Forall_impl; [exact Href|].
    intros m Hm. simpl. by eapply referenced_ext.
  - apply Forall_fmap, Forall_forall. by intros m _ ?.
  - by rewrite standings_clearEditing.
  - intros Hr. destruct (Hidle Hr) as [-> ->]. done.
Qed.

Lemma clearEditing_not_editing rs :
  Forall (fun m => isEditing m = false) (map clearEditing rs).
Proof. apply Forall_fmap, Forall_forall. by intros m _. Qed.

Lemma existsb_false_Forall {A} (p : A -> bool) l :
  existsb p l = false -> Forall (fun x => p x = false) l.
Proof.
  induction l as [|x l IH]; simpl; intros H; [constructor|].
  apply orb_false_iff in H as [Hx Hl]. constructor; auto.
Qed.

Lemma ledgerOk_empty teams : ledgerOk teams [] [] 0.
Proof. by split; [|split; [|split]]. Qed.

Lemma consistent_effect st ev st' :
  consistent (core st) -> storesMidEdit st ev = false -> effect st ev st' ->
  consistent (core st').
Proof.
  intros [Hl Hst] Hclean Heff. simpl in *.
  destruct Heff as [-> | i m m' Hi Hch -> | i m m' Hi He _ _ H1 H2 Hs1 Hs2 Hsv Hed _ _ ->
                    | teams _ -> | teams Hr -> | stored Hstored -> | n ->
                    | n -> -> | n s loaded Hn -> Hlen].
  - by split.
  - split; simpl; [by eapply ledgerOk_result | done].
  - split; simpl; [by eapply ledgerOk_save | done].
  - split; simpl; [apply ledgerOk_start | done].
  - split; simpl; [|done].
    destruct Hl as (_ & _ & _ & Hidle). destruct (Hidle Hr) as [-> _].
    apply ledgerOk_empty.
  - split; simpl; [apply ledgerOk_empty|].
    destruct Hstored as [-> | [n ->]]; [done|]. by apply map_Forall_delete.
  - split; simpl; [done|]. by apply map_Forall_delete.
  - split; simpl; [done|].
    apply map_Forall_insert_2; [|done]. simpl in Hclean.
    apply existsb_false_Forall in Hclean. split; simpl.
    + by apply ledgerOk_clearEditing.
    + apply clearEditing_not_editing.
  - split; simpl; [|done].
    destruct (map_Forall_lookup_1 _ _ _ _ Hst Hn) as [Hok Hned].
    by apply ledgerOk_clearEditing.
Qed.

Lemma consistent_init : consistent (core (initialState ∅)).
Proof. split; simpl; [apply ledgerOk_empty | done]. Qed.

Lemma reachableClean_consistent st : reachableClean st -> consistent (core st).
Proof.
  induction 1 as [|st ev st' _ IH Hclean Hstep]; [apply consistent_init|].
  eapply consistent_effect; [done..|]. by eapply step_effect.
Qed.

Lemma reachableClean_reachable st : reachableClean st -> reachable st.
Proof.
  induction 1 as [|st ev st' _ IH _ Hstep]; [constructor|].
  by eapply reachable_step.
Qed.

Lemma run_reachable evs st st' :
  reachable st -> run evs st = Some st' -> reachable st'.
Proof.
  revert st. induction evs as [|ev evs IH]; intros st Hst; simpl.
  - by intros [= <-].
  - destruct (enabled st ev) eqn:Hen; [|done].
    destruct (handle ev st) as [st1|] eqn:Hh; [|done]. simpl.
    apply IH. by eapply reachable_step.
Qed.

Lemma runClean_reachableClean evs st st' :
  reachableClean st -> runClean evs st = Some st' -> reachableClean st'.
Proof.
  revert st. induction evs as [|ev evs IH]; intros st Hst; simpl.
  - by intros [= <-].
  - destruct (enabled st ev) eqn:Hen; [|done].
    destruct (storesMidEdit st ev) eqn:Hc; [done|]. simpl.
    destruct (handle ev st) as [st1|] eqn:Hh; [|done]. simpl.
    apply IH. by eapply clean_step.
Qed.

(** *** C8: the goal difference *)

(** C8.  In every reachable state every row of the table has
    [gd = gf - ga].  [updateStatEntry], the only operation that changes a
    row, ends with this equation whatever the row was, and
    [applyMatchStatsToTeams] keeps it on every row. *)
Theorem goal_difference_invariant :
  (∀ st, reachable st -> Forall gdOk (teamStats st))
  ∧ (∀ t currentScore opponentScore mult,
       gdOk (updateStatEntry t currentScore opponentScore mult))
  ∧ (∀ stats m teams mult,
       Forall gdOk stats ->
       Forall gdOk (applyMatchStatsToTeams stats m teams mult)).
Proof.
  split; [|split].
  - intros st Hst. by destruct (reachable_wellFormed st Hst).
  - apply updateStatEntry_gdOk.
  - intros. by apply applyMatchStatsToTeams_gdOk.
Qed.

(** A run from the first visit ends in a reachable state. *)
Lemma after_reachable evs st :
  run evs (initialState ∅) = Some st -> reachable st.
Proof. apply run_reachable. constructor. Qed.

Lemma after_reachableClean evs st :
  runClean evs (initialState ∅) = Some st -> reachableClean st.
Proof. apply runClean_reachableClean. constructor. Qed.

(** The table of the sample league after a save and an edit. *)
Lemma goal_difference_invariant_witness :
  Forall gdOk (teamStats (after sampleEdited)).
Proof.
  destruct goal_difference_invariant as [H _]. apply H.
  apply (after_reachable sampleEdited). vm_compute. reflexivity.
Defined.

(** *** C9: entering edit mode *)

(** C9.  In every reachable state a result in edit mode is a saved
    result; the edit button is offered only for a saved result that is
    not being edited; and [handleEditResult] sets [isEditing], files the
    current scores and scorer lists as the snapshot, and changes neither
    the scores, the scorer lists, the [saved] flag nor the table. *)
Theorem edit_only_saved_results :
  (∀ st, reachable st ->
     Forall (fun m => isEditing m = true -> saved m = true) (matchResults st))
  ∧ (∀ st, enabled st ClickEditResult = true ->
       ∃ m, matchResults st !! currentMatchViewIndex st = Some m
            ∧ saved m = true ∧ isEditing m = false)
  ∧ (∀ st idx m,
       matchResults st !! idx = Some m ->
       ∃ st' m',
         handleEditResult idx st = Some st'
         ∧ matchResults st' = <[idx := m']> (matchResults st)
         ∧ isEditing m' = true
         ∧ originalScores m' = Some (team1Score m, team2Score m)
         ∧ originalGoalScorers m'
           = Some (team1GoalScorers m, team2GoalScorers m)
         ∧ team1Score m' = team1Score m ∧ team2Score m' = team2Score m
         ∧ team1GoalScorers m' = team1GoalScorers m
         ∧ team2GoalScorers m' = team2GoalScorers m
         ∧ saved m' = saved m
         ∧ teamStats st' = teamStats st).
Proof.
  split; [|split].
  - intros st Hst. by destruct (reachable_wellFormed st Hst).
  - intros st Hen. simpl in Hen. inv_shown.
    eexists. split; [done|].
    unfold editable in Hen. apply negb_true_iff, orb_false_iff in Hen as [Hs He].
    by apply negb_false_iff in Hs.
  - intros st idx m Hm. unfold handleEditResult. rewrite Hm. simpl.
    eexists _, _. split; [done|]. by repeat split.
Qed.

(** The saved first fixture of the sample league offers the edit button. *)
Lemma edit_only_saved_results_witness :
  let st := after sampleSaved in
  enabled st ClickEditResult = true
  ∧ ∃ m, matchResults st !! currentMatchViewIndex st = Some m
         ∧ saved m = true ∧ isEditing m = false.
Proof.
  intros st.
  assert (enabled st ClickEditResult = true) as Hen by (vm_compute; reflexivity).
  split; [exact Hen|].
  destruct edit_only_saved_results as (_ & H & _). exact (H st Hen).
Defined.

(** *** C7: wins, losses and draws over all teams *)




(** *** C2: editing a saved result and saving it again *)

(** The resave in the states that are reached without storing a league
    while a result is in edit mode.  A saved result is in edit mode and
    its new scores pass the validation.  Then [handleSaveResult]
    succeeds; the new table is the old
    one with the contribution of the edit-entry snapshot subtracted and the
    contribution of the new scores added, and it equals the new scores
    applied to the table of the league in which this result was never
    saved (the table recomputed from the ledger with the result at [idx]
    unsaved).  The new table is again the table of the new ledger. *)
Theorem resave_equals_fresh_application
    (st : State) (idx : nat) (m : MatchResult) (score1 score2 : Z) :
  reachableClean st ->
  matchResults st !! idx = Some m ->
  saved m = true -> isEditing m = true ->
  team1Score m = Some score1 -> team2Score m = Some score2 ->
  (0 < numPlayersPerTeam st ->
   goalsSum (team1GoalScorers m) = score1
   ∧ goalsSum (team2GoalScorers m) = score2) ->
  ∃ st' original,
    handleSaveResult idx st = Some st'
    ∧ originalScores m = Some original
    ∧ teamStats st'
      = applyMatchStatsToTeams
          (applyMatchStatsToTeams (teamStats st)
             (set_team2Score original.2 (set_team1Score original.1 m))
             (submittedTeamData st) (-1))
          m (submittedTeamData st) 1
    ∧ teamStats st'
      = applyMatchStatsToTeams
          (standings (submittedTeamData st) (teamStats st)
                     (neverSaved idx (matchResults st)))
          m (submittedTeamData st) 1
    ∧ teamStats st'
      = standings (submittedTeamData st') (teamStats st') (matchResults st').
Proof.
  intros Hst Hm Hsaved Hed H1 H2 Hvalid.
  destruct (reachableClean_consistent st Hst) as [Hl _]. simpl in Hl.
  destruct (reachable_wellFormed st (reachableClean_reachable st Hst))
    as [_ _ _ Hlen]. simpl in Hlen.
  assert (is_Some (matches st !! idx)) as [mt Hmt].
  { apply lookup_lt_is_Some. rewrite Hlen. by eapply lookup_lt_Some. }
  assert (is_Some (originalScores m)) as [original Ho].
  { destruct Hl as (_ & Hsnap & _).
    by destruct (Forall_lookup_1 _ _ _ _ Hsnap Hm Hed). }
  set (m' := set_goalScorerMismatch false
               (set_originalGoalScorers None
                  (set_originalScores None
                     (set_isEditing false (set_saved true m))))).
  destruct (ledgerOk_save _ _ _ _ idx m m' Hl Hm) as [Hl' Hfresh]; try done.
  { unfold editable. by rewrite Hed, orb_true_r. }
  unfold handleSaveResult. rewrite Hm. simpl. rewrite H1, H2.
  assert ((if 0 <? numPlayersPerTeam st
           then negb (goalsSum (team1GoalScorers m) =? score1)%Z
                || negb (goalsSum (team2GoalScorers m) =? score2)%Z
           else false) = false) as ->.
  { destruct (0 <? numPlayersPerTeam st) eqn:E; [|done].
    apply Nat.ltb_lt in E. destruct (Hvalid E) as [-> ->].
    by rewrite !Z.eqb_refl. }
  rewrite Hmt. simpl. eexists _, original. split; [reflexivity|].
  split; [done|]. simpl.
  unfold statsAfterSave in Hfresh, Hl'. rewrite Ho, Hsaved, Hed in Hfresh, Hl'.
  simpl in Hfresh, Hl'. rewrite Ho, Hsaved, Hed. simpl.
  split; [done|]. split; [done|].
  by destruct Hl' as (_ & _ & Hstand & _).
Qed.

(** The first result of the sample league, saved as 2-1, is saved again
    as 1-1. *)
Lemma resave_equals_fresh_application_witness :
  let st := after sampleEdited in
  ∃ st' original,
    handleSaveResult 0 st = Some st'
    ∧ originalScores
        (mkMatchResult "id-0" "id-3" (Some 1%Z) (Some 1%Z)
           [mkScorerEntry "id-1" "Ali" 1] [mkScorerEntry "id-4" "Cyrus" 1]
           true false true (Some (Some 2%Z, Some 1%Z))
           (Some ([mkScorerEntry "id-1" "Ali" 2],
                  [mkScorerEntry "id-4" "Cyrus" 1])))
      = Some original
    ∧ teamStats st'
      = applyMatchStatsToTeams
          (standings (submittedTeamData st) (teamStats st)
                     (neverSaved 0 (matchResults st)))
          (mkMatchResult "id-0" "id-3" (Some 1%Z) (Some 1%Z)
             [mkScorerEntry "id-1" "Ali" 1] [mkScorerEntry "id-4" "Cyrus" 1]
             true false true (Some (Some 2%Z, Some 1%Z))
             (Some ([mkScorerEntry "id-1" "Ali" 2],
                    [mkScorerEntry "id-4" "Cyrus" 1])))
          (submittedTeamData st) 1.
Proof.
  intros st.
  destruct (resave_equals_fresh_application st 0
              (mkMatchResult "id-0" "id-3" (Some 1%Z) (Some 1%Z)
                 [mkScorerEntry "id-1" "Ali" 1] [mkScorerEntry "id-4" "Cyrus" 1]
                 true false true (Some (Some 2%Z, Some 1%Z))
                 (Some ([mkScorerEntry "id-1" "Ali" 2],
                        [mkScorerEntry "id-4" "Cyrus" 1]))) 1 1)
    as (st' & original & Hrun & Ho & _ & Hfresh & _).
  - apply (after_reachableClean sampleEdited). vm_compute. reflexivity.
  - vm_compute. reflexivity.
  - reflexivity.
  - reflexivity.
  - reflexivity.
  - reflexivity.
  - intros _. split; reflexivity.
  - exists st', original. split; [exact Hrun|]. split; [exact Ho | exact Hfresh].
Defined.

(** The example of the specification: Alpha-Beta saved as 2-1, then
    edited to 1-1 and saved again, against the league in which the
    fixture is saved as 1-1 straight away. *)
Example edit_and_resave_sample :
  teamStats (after sampleSaved)
  = [ mkTeamStat "Alpha" 1 1 0 0 2 1 1 3;
      mkTeamStat "Beta" 1 0 0 1 1 2 (-1) 0;
      mkTeamStat "Gamma" 0 0 0 0 0 0 0 0 ]
  ∧ teamStats (after (sampleEdited ++ [ClickSaveResult]))
    = [ mkTeamStat "Alpha" 1 0 1 0 1 1 0 1;
        mkTeamStat "Beta" 1 0 1 0 1 1 0 1;
        mkTeamStat "Gamma" 0 0 0 0 0 0 0 0 ]
  ∧ teamStats (after (sampleEdited ++ [ClickSaveResult]))
    = teamStats (after (sampleStart ++
        [ ChangeScore Side1 (Some 1%Z); ChangeScore Side2 (Some 1%Z);
          SelectGoalScorer Side1 "id-1"; SelectGoalScorer Side2 "id-4";
          ClickSaveResult ])).
Proof. vm_compute. by repeat split. Qed.

(** The league is stored while the first result is being edited from 2-1
    to 1-1, and loaded after a reload of the page.  The loaded ledger
    shows a saved draw and no edit in progress, the loaded table still
    counts a win and a loss: the totals no longer agree with the ledger,
    and a later edit of that result reverts a draw that was never
    tallied. *)
Example league_stored_mid_edit :
  let st :=
    after (sampleEdited ++
           [ ClickSaveLeague; TypeLeagueName "cup"; ClickSaveLeagueConfirm;
             ReloadPage; ClickContinueLeague; ClickLoadLeague "cup" ]) in
  existsb isEditing (matchResults st) = false
  ∧ total wins (teamStats st) = 1%Z
  ∧ countSaved decided (matchResults st) = 0%Z
  ∧ countSaved drawn (matchResults st) = 1%Z
  ∧ total draws (teamStats st) = 0%Z.
Proof. vm_compute. by repeat split. Qed.

(** C2.  The resave does not give the table of a fresh application when
    the league was stored while the result was being edited.  The first
    result of the sample league is saved as 2-1 and edited to 1-1; the
    league is stored under a name in the middle of the edit, the page is
    reloaded and the league loaded.  The loaded ledger shows the result
    as saved with 1-1 and not in edit mode, the loaded table still holds
    the 2-1.  The result is then put into edit mode, changed to 3-0,
    which passes the validation, and saved.  [handleSaveResult] reverts
    the snapshot 1-1, which the table never held, and applies 3-0: Alpha
    ends with two wins, minus one draw, four goals and five points from
    one match, where the fresh application of 3-0 gives one win, three
    goals and three points. *)
Theorem resave_after_stored_edit_differs :
  let st := after sampleStoredMidEdit in
  let result :=
    mkMatchResult "id-0" "id-3" (Some 3%Z) (Some 0%Z)
      [mkScorerEntry "id-1" "Ali" 3] [] true false true
      (Some (Some 1%Z, Some 1%Z))
      (Some ([mkScorerEntry "id-1" "Ali" 1],
             [mkScorerEntry "id-4" "Cyrus" 1])) in
  let fresh :=
    [ mkTeamStat "Alpha" 1 1 0 0 3 0 3 3;
      mkTeamStat "Beta" 1 0 0 1 0 3 (-3) 0;
      mkTeamStat "Gamma" 0 0 0 0 0 0 0 0 ] in
  run sampleStoredMidEdit (initialState ∅) = Some st
  ∧ matchResults st !! currentMatchViewIndex st = Some result
  ∧ enabled st ClickSaveResult = true
  ∧ passesValidation (numPlayersPerTeam st)
      (team1Score result, team2Score result)
      (team1GoalScorers result, team2GoalScorers result)
  ∧ applyMatchStatsToTeams
      (standings (submittedTeamData st) (teamStats st)
                 (neverSaved (currentMatchViewIndex st) (matchResults st)))
      result (submittedTeamData st) 1
    = fresh
  ∧ teamStats (after sampleFresh) = fresh
  ∧ teamStats <$> handle ClickSaveResult st
    = Some [ mkTeamStat "Alpha" 1 2 (-1) 0 4 0 4 5;
             mkTeamStat "Beta" 1 0 (-1) 2 0 4 (-4) (-1);
             mkTeamStat "Gamma" 0 0 0 0 0 0 0 0 ].
Proof.
  intros st result fresh.
  split; [by vm_compute|]. split; [by vm_compute|]. split; [by vm_compute|].
  split.
  { exists 3%Z, 0%Z. split; [done|]. intros _. by vm_compute. }
  split; [by vm_compute|]. split; by vm_compute.
Qed.

(** *** C5: the top-scorer list *)

Lemma find_first {A} (p : A -> bool) l x :
  find p l = Some x ->
  ∃ i, l !! i = Some x ∧ p x = true
       ∧ ∀ j y, j < i -> l !! j = Some y -> p y = false.
Proof.
  induction l as [|y l IH]; simpl; [done|].
  destruct (p y) eqn:Hy.
  - intros [= ->]. exists 0. split; [done|]. split; [done|]. intros; lia.
  - intros H. destruct (IH H) as (i & Hi & Hp & Hfirst).
    exists (S i). split; [done|]. split; [done|].
    intros [|j] z Hj Hz; simpl in Hz; [by injection Hz as <-|].
    apply (Hfirst j); [lia | done].
Qed.

Lemma sideTeamName_namesSide teams teamId :
  namesSide teams teamId (sideTeamName teams teamId).
Proof.
  unfold sideTeamName.
  destruct (find _ teams) as [team|] eqn:E; simpl.
  - left. apply find_first in E as (i & Hi & Hp & Hfirst).
    exists i, team. split; [done|].
    split; [by apply String.eqb_eq in Hp|]. split; [|done].
    intros j other Hj Ho Hid. specialize (Hfirst j other Hj Ho).
    apply String.eqb_neq in Hfirst. done.
  - right. split; [|done]. intros team Ht Hid.
    pose proof (find_None _ _ E team Ht) as Hp. simpl in Hp.
    apply String.eqb_neq in Hp. done.
Qed.

Lemma namesSide_functional teams teamId n1 n2 :
  namesSide teams teamId n1 -> namesSide teams teamId n2 -> n1 = n2.
Proof.
  intros [(i & t & Hi & Hid & Hfirst & ->) | [Hno ->]]
         [(i' & t' & Hi' & Hid' & Hfirst' & ->) | [Hno' ->]].
  - destruct (Nat.lt_total i i') as [Hlt | [-> | Hlt]].
    + by destruct (Hfirst' i t Hlt Hi).
    + congruence.
    + by destruct (Hfirst i' t' Hlt Hi').
  - destruct (Hno' t); [by eapply list_elem_of_lookup_2 | done].
  - destruct (Hno t'); [by eapply list_elem_of_lookup_2 | done].
  - done.
Qed.

(** *** The scorers are players of their side *)

Lemma scorersOnRoster_typed teams m m' :
  team1Id m' = team1Id m -> team2Id m' = team2Id m ->
  (∀ side, Forall (onRoster teams (sideTeamId side m)) (sideScorers side m')) ->
  (originalGoalScorers m' = originalGoalScorers m
   ∨ originalGoalScorers m' = None
   ∨ originalGoalScorers m' = Some (team1GoalScorers m, team2GoalScorers m)) ->
  scorersOnRoster teams m -> scorersOnRoster teams m'.
Proof.
  intros H1 H2 Hs Ho [Hm Hg]. split.
  - intros side. specialize (Hs side). by destruct side; simpl in *; rewrite ?H1, ?H2.
  - intros g Hg'. rewrite H1, H2.
    destruct Ho as [Ho | [Ho | Ho]]; rewrite Ho in Hg'.
    + by apply Hg.
    + done.
    + injection Hg' as <-. simpl. split; [apply (Hm Side1) | apply (Hm Side2)].
Qed.

Lemma rostersKept_frame st st' :
  submittedTeamData st' = submittedTeamData st ->
  matchResults st' = matchResults st ->
  savedLeagues st' = savedLeagues st ->
  rostersKept st -> rostersKept st'.
Proof. intros H1 H2 H3 [Hr Hs]. split; by rewrite ?H1, ?H2, ?H3. Qed.

Lemma rostersKept_reset st st' :
  matchResults st' = [] ->
  savedLeagues st' = savedLeagues st ->
  rostersKept st -> rostersKept st'.
Proof. intros H1 H2 [Hr Hs]. split; by rewrite ?H1, ?H2. Qed.

Lemma rostersKept_insert st st' i m m' :
  submittedTeamData st' = submittedTeamData st ->
  matchResults st' = <[i := m']> (matchResults st) ->
  savedLeagues st' = savedLeagues st ->
  matchResults st !! i = Some m ->
  (scorersOnRoster (submittedTeamData st) m ->
   scorersOnRoster (submittedTeamData st) m') ->
  rostersKept st -> rostersKept st'.
Proof.
  intros H1 H2 H3 Hm Hm' [Hr Hs]. split.
  - rewrite H1, H2. apply Forall_insert; [done|].
    apply Hm'. by eapply Forall_lookup_1.
  - by rewrite H3.
Qed.

Lemma scorersOnRoster_clearEditing teams m :
  scorersOnRoster teams m -> scorersOnRoster teams (clearEditing m).
Proof.
  intros Hm. eapply scorersOnRoster_typed; [..|exact Hm]; try done.
  - intros side. destruct Hm as [Hm _]. apply (Hm side).
  - by right; left.
Qed.

Lemma onRoster_ext teams teamId s s' :
  playerId s' = playerId s -> onRoster teams teamId s -> onRoster teams teamId s'.
Proof. intros H (t & p & ? & ? & ?). exists t, p. by rewrite H. Qed.

Ltac roster_frame Hh :=
  injection Hh as <-; eapply rostersKept_frame; [..|eassumption]; reflexivity.

Lemma rostersKept_handle st ev st' :
  handle ev st = Some st' -> rostersKept st -> rostersKept st'.
Proof.
  intros Hh Hst.
  destruct ev; simpl in Hh.
  all: try (roster_frame Hh).
  - (* ClickStartNewLeague *)
    injection Hh as <-. eapply rostersKept_reset; [..|exact Hst]; reflexivity.
  - (* ClickContinueLeague *)
    unfold handleContinueLeague in Hh. case_decide; roster_frame Hh.
  - (* SetupScreens *)
    injection Hh as <-. destruct askConfirm;
      (eapply rostersKept_frame; [..|exact Hst]; reflexivity).
  - (* StartTheGames *)
    injection Hh as <-. destruct Hst as [Hr Hs]. unfold startTheGames.
    destruct (length teamsToUse <? 2) eqn:E; [by split|].
    unfold generateAllRoundRobinMatches. rewrite length_map, E.
    split; simpl; [|done].
    apply Forall_fmap, Forall_forall. intros x _. split; [|done].
    intros side. destruct side; constructor.
  - (* ChangeScore *)
    unfold handleScoreChange in Hh.
    destruct (matchResults st !! currentMatchViewIndex st) as [r|] eqn:Er; [|done].
    simplify_eq/=. eapply rostersKept_insert; [..|done]; try done.
    intros Hm. eapply scorersOnRoster_typed; [..|exact Hm]; try (by destruct team).
    + intros side. destruct Hm as [Hm _]. specialize (Hm side).
      by destruct side, team.
    + left. by destruct team.
  - (* ChangePlayerGoal *)
    unfold handlePlayerGoalChange in Hh.
    destruct (matchResults st !! currentMatchViewIndex st) as [r|] eqn:Er; [|done].
    simpl in Hh. destruct (sideScorers teamNum r !! scorerIndex) as [e|] eqn:Ee; [|done].
    simplify_eq/=. eapply rostersKept_insert; [..|done]; try done.
    intros Hm. eapply scorersOnRoster_typed; [..|exact Hm]; try (by destruct teamNum).
    + intros side. destruct Hm as [Hm _].
      pose proof (Hm side) as Hside. pose proof (Hm teamNum) as Hnum.
      assert (Forall (onRoster (submittedTeamData st) (sideTeamId teamNum r))
                     (<[scorerIndex := set_goals (default 0%Z value) e]>
                        (sideScorers teamNum r))) as Hnew.
      { apply Forall_insert; [done|].
        eapply onRoster_ext; [|by eapply Forall_lookup_1]. done. }
      by destruct side, teamNum.
    + left. by destruct teamNum.
  - (* SelectGoalScorer *)
    unfold handleSelectGoalScorer in Hh.
    destruct (String.eqb selectedId ""); [roster_frame Hh|].
    destruct (matchResults st !! currentMatchViewIndex st) as [r|] eqn:Er; [|done].
    simplify_eq/=. eapply rostersKept_insert; [..|done]; try done.
    intros Hm. eapply scorersOnRoster_typed; [..|exact Hm]; try (by destruct teamNum).
    + intros side. destruct Hm as [Hm _].
      pose proof (Hm side) as Hside. pose proof (Hm teamNum) as Hnum.
      match goal with |- Forall _ (sideScorers side (set_goalScorerMismatch false
                                     (set_sideScorers teamNum ?l r))) =>
        assert (Forall (onRoster (submittedTeamData st) (sideTeamId teamNum r)) l)
          as Hnew end.
      { destruct (existsb _ (sideScorers teamNum r)); [done|].
        fold (sideTeamId teamNum r).
        destruct (find _ (submittedTeamData st)) as [team|] eqn:Ef; simpl; [|done].
        destruct (find _ (players team)) as [player|] eqn:Ep; [|done].
        apply Forall_app. split; [done|]. constructor; [|constructor].
        exists team, player. split; [done|].
        apply find_Some in Ep as [Hin _]. done. }
      by destruct side, teamNum.
    + left. by destruct teamNum.
  - (* ClickRemoveGoalScorer *)
    unfold handleRemoveGoalScorer in Hh.
    destruct (matchResults st !! currentMatchViewIndex st) as [r|] eqn:Er; [|done].
    simplify_eq/=. eapply rostersKept_insert; [..|done]; try done.
    intros Hm. eapply scorersOnRoster_typed; [..|exact Hm]; try (by destruct teamNum).
    + intros side. destruct Hm as [Hm _].
      pose proof (Hm side) as Hside. pose proof (Hm teamNum) as Hnum.
      assert (Forall (onRoster (submittedTeamData st) (sideTeamId teamNum r))
                     (List.filter
                        (fun s => negb (String.eqb (playerId s) scorerId))
                        (sideScorers teamNum r))) as Hnew.
      { rewrite Forall_forall in Hnum. apply Forall_forall. intros s Hs.
        apply Hnum. apply list_elem_of_In in Hs. apply filter_In in Hs as [Hs _].
        by apply list_elem_of_In. }
      by destruct side, teamNum.
    + left. by destruct teamNum.
  - (* ClickSaveResult *)
    unfold handleSaveResult in Hh.
    destruct (matchResults st !! currentMatchViewIndex st) as [r|] eqn:Er; [|done].
    simpl in Hh.
    destruct (team1Score r) as [score1|] eqn:E1; [|roster_frame Hh].
    destruct (team2Score r) as [score2|] eqn:E2; [|roster_frame Hh].
    match type of Hh with (if ?c then _ else _) = _ => destruct c eqn:Ec end.
    + injection Hh as <-. eapply rostersKept_insert; [..|done]; done.
    + destruct (matches st !! currentMatchViewIndex st) as [mt|]; [|done].
      simpl in Hh. injection Hh as <-.
      eapply rostersKept_insert; [..|done]; try done.
      intros Hm. eapply scorersOnRoster_typed; [..|exact Hm]; try done.
      * intros side. destruct Hm as [Hm _]. apply (Hm side).
      * by right; left.
  - (* ClickEditResult *)
    unfold handleEditResult in Hh.
    destruct (matchResults st !! currentMatchViewIndex st) as [r|] eqn:Er; [|done].
    simplify_eq/=. eapply rostersKept_insert; [..|done]; try done.
    intros Hm. eapply scorersOnRoster_typed; [..|exact Hm]; try done.
    + intros side. destruct Hm as [Hm _]. apply (Hm side).
    + by right; right.
  - (* ClickCancelEdit *)
    unfold handleCancelEdit in Hh.
    destruct (matchResults st !! currentMatchViewIndex st) as [r|] eqn:Er; [|done].
    simplify_eq/=. eapply rostersKept_insert; [..|done]; try done.
    intros Hm.
    destruct (originalScores r) as [o|] eqn:Eo;
      [destruct (originalGoalScorers r) as [g|] eqn:Eg|].
    + eapply scorersOnRoster_typed; [..|exact Hm]; try done; [|by right; left].
      intros side. destruct Hm as [_ Hg]. destruct (Hg g Eg) as [Hg1 Hg2].
      by destruct side.
    + eapply scorersOnRoster_typed; [..|exact Hm]; try done; [|by left].
      intros side. destruct Hm as [Hm _]. apply (Hm side).
    + eapply scorersOnRoster_typed; [..|exact Hm]; try done; [|by left].
      intros side. destruct Hm as [Hm _]. apply (Hm side).
  - (* ClickResetLeague *)
    injection Hh as <-. eapply rostersKept_reset; [..|exact Hst]; reflexivity.
  - (* ClickSaveLeagueConfirm *)
    injection Hh as <-. unfold handleSaveLeagueConfirm.
    destruct (String.eqb _ ""); [eapply rostersKept_frame; [..|exact Hst]; reflexivity|].
    destruct (_ && _); [eapply rostersKept_frame; [..|exact Hst]; reflexivity|].
    destruct Hst as [Hr Hs]. split; simpl; try done.
    apply map_Forall_insert_2; [|done]. simpl.
    rewrite Forall_forall in Hr.
    apply Forall_fmap, Forall_forall. intros m Hm.
    apply scorersOnRoster_clearEditing. by apply Hr.
  - (* ClickExitLeague *)
    injection Hh as <-. eapply rostersKept_reset; [..|exact Hst]; reflexivity.
  - (* ClickLoadLeague *)
    injection Hh as <-. unfold handleLoadLeague.
    destruct (savedLeagues st !! leagueName) as [s|] eqn:Es; [|done].
    destruct Hst as [Hr Hs].
    pose proof (map_Forall_lookup_1 _ _ _ _ Hs Es) as Hv. simpl in Hv.
    split; simpl; try done.
    rewrite Forall_forall in Hv.
    apply Forall_fmap, Forall_forall. intros m Hm.
    apply scorersOnRoster_clearEditing. by apply Hv.
  - (* ClickDeleteLeague *)
    injection Hh as <-. unfold handleDeleteLeague, deleteLeagueFromStorage.
    destruct Hst as [Hr Hs].
    simpl. destruct (bool_decide (currentLeagueName st = Some leagueName));
      split; simpl; try done; by apply map_Forall_delete.
  - (* ReloadPage *)
    injection Hh as <-. eapply rostersKept_reset; [..|exact Hst]; reflexivity.
Qed.

Lemma reachable_rostersKept st : reachable st -> rostersKept st.
Proof.
  induction 1 as [|st ev st' _ IH [_ Hh]].
  - split; simpl; done.
  - by eapply rostersKept_handle.
Qed.

(** C5.  The top-scorer list is computed from every match result, saved
    or not.  It is a rearrangement of the values of the dictionary
    [playerGoals], in descending order of goals.  The dictionary has one
    entry for each player id that has a tally on a side of some result;
    the goals of the entry are the sum of that player's tallies over all
    results and both sides ([totalGoals] has no saved-filter).  The
    entry is tagged with the name of the team of a side on which the
    player is listed: the first team of [submittedTeamData] with the id
    of that side, or ['Unknown Team'] when no team has the id; when all
    the sides on which the player is listed lead to one name, that name
    is the tag.  In every state the application reaches, the tag is the
    current name of a team that has the player on its roster. *)
Theorem calculateTopScorers_totals (st : State) :
  let table := playerGoalsTable st in
  let results := matchResults st in
  let teams := submittedTeamData st in
  calculateTopScorers st ≡ₚ map snd table
  ∧ StronglySorted (fun a b => (pg_goals b <= pg_goals a)%Z)
                   (calculateTopScorers st)
  ∧ NoDup (map fst table)
  ∧ (∀ pid, pid ∈ map fst table
            ↔ ∃ m side, m ∈ results ∧ scoresFor pid side m)
  ∧ (∀ pid e, (pid, e) ∈ table ->
       pg_goals e = totalGoals pid results
       ∧ (∃ m side, m ∈ results ∧ scoresFor pid side m
                    ∧ namesSide teams (sideTeamId side m) (pg_teamName e))
       ∧ ∀ teamName,
           (∀ m side, m ∈ results -> scoresFor pid side m ->
              namesSide teams (sideTeamId side m) teamName) ->
           pg_teamName e = teamName)
  ∧ (reachable st ->
     ∀ pid e, (pid, e) ∈ table ->
       ∃ team player,
         team ∈ teams ∧ player ∈ players team ∧ player_id player = pid
         ∧ pg_teamName e = team_name team).
Proof.
  intros table results teams.
  split; [apply sort_Permutation|]. split; [apply sort_sorted|].
  subst table. rewrite playerGoalsTable_appearances. fold results teams.
  destruct (tableFor_foldl (appearances teams results))
    as (Hnd & Hkeys & Hget).
  split; [done|]. split; [|split].
  - intros pid. rewrite Hkeys. split.
    + intros (a & Ha & Hp). apply elem_of_appearances in Ha as (m & side & ? & ? & ?).
      exists m, side. split; [done|]. by exists a.2.
    + intros (m & side & Hm & s & Hs & Hp).
      exists (sideTeamName teams (sideTeamId side m), s).
      split; [|done]. apply elem_of_appearances. by exists m, side.
  - intros pid e He. apply tableGet_elem in He; [|done].
    destruct (Hget pid e He) as (Hg & a & Ha & Hp & Hn).
    split; [by rewrite (totalGoals_appearances _ teams)|].
    apply elem_of_appearances in Ha as (m & side & Hm & Hs & Ha1).
    assert (namesSide teams (sideTeamId side m) (pg_teamName e)) as Hside.
    { rewrite Hn, Ha1. apply sideTeamName_namesSide. }
    split.
    + exists m, side. split; [done|]. split; [by exists a.2 | done].
    + intros teamName Hall. eapply namesSide_functional; [exact Hside|].
      apply Hall; [done|]. by exists a.2.
  - intros Hst pid e He. apply tableGet_elem in He; [|done].
    destruct (Hget pid e He) as (_ & a & Ha & Hp & Hn).
    apply elem_of_appearances in Ha as (m & side & Hm & Hs & Ha1).
    destruct (reachable_rostersKept st Hst) as [Hr _].
    rewrite Forall_forall in Hr. destruct (Hr m Hm) as [Hon _].
    specialize (Hon side). rewrite Forall_forall in Hon.
    destruct (Hon _ Hs) as (team & player & Hfind & Hplayer & Hid).
    exists team, player. split; [by apply find_Some in Hfind as [? _]|].
    split; [done|]. split; [congruence|].
    rewrite Hn, Ha1. unfold sideTeamName. fold teams in Hfind. by rewrite Hfind.
Qed.

(** In the sample league Ali, a player of Alpha, is listed with his two
    goals under the name of Alpha. *)
Lemma calculateTopScorers_totals_witness :
  let st := after sampleSaved in
  (mkPlayerGoals "Ali" 2 "Alpha") ∈ calculateTopScorers st
  ∧ ∃ team player,
      team ∈ submittedTeamData st ∧ player ∈ players team
      ∧ player_id player = "id-1" ∧ team_name team = "Alpha".
Proof.
  intros st.
  assert (reachable st) as Hst.
  { apply (after_reachable sampleSaved). vm_compute. reflexivity. }
  assert (("id-1", mkPlayerGoals "Ali" 2 "Alpha") ∈ playerGoalsTable st) as He.
  { apply (list_elem_of_lookup_2 _ 0). vm_compute. reflexivity. }
  destruct (calculateTopScorers_totals st) as (_ & _ & _ & _ & _ & Htag).
  destruct (Htag Hst _ _ He) as (team & player & Ht & Hp & Hid & Hname).
  split.
  - apply (list_elem_of_lookup_2 _ 0). vm_compute. reflexivity.
  - exists team, player. split; [exact Ht|]. split; [exact Hp|].
    split; [exact Hid|]. symmetry. exact Hname.
Defined.

(** *** The helpers [normalizePair] and [findFirstUnsavedMatchIndex] *)

Lemma append_dash_nonempty (a b : string) : a +:+ "-" +:+ b ≠ "".
Proof. by destruct a. Qed.

Lemma normalizePair_comm (teamA teamB : string) :
  normalizePair teamA teamB = normalizePair teamB teamA.
Proof.
  unfold normalizePair, String.ltb.
  rewrite (String.compare_antisym teamA teamB).
  destruct (String.compare teamB teamA) eqn:E; simpl; try done.
  by apply String.compare_eq_iff in E as ->.
Qed.

Lemma normalizePair_nonempty (teamA teamB : string) :
  normalizePair teamA teamB ≠ "".
Proof.
  unfold normalizePair. destruct (String.ltb teamB teamA); simpl;
    apply append_dash_nonempty.
Qed.

(** X1.  The key of a pair of team names does not depend on the order
    in which the two names are given, and it is never the empty string,
    so the test [if (playedPairKey)] of [handleSaveResult] always
    succeeds. *)
Theorem normalizePair_unordered (teamA teamB : string) :
  normalizePair teamA teamB = normalizePair teamB teamA
  ∧ normalizePair teamA teamB ≠ "".
Proof. split; [apply normalizePair_comm | apply normalizePair_nonempty]. Qed.

Lemma findIndex_first {A} (p : A -> bool) l i :
  findIndex p l = Some i ->
  ∀ j x, j < i -> l !! j = Some x -> p x = false.
Proof.
  revert i. induction l as [|y l IH]; simpl; intros i; [done|].
  destruct (p y) eqn:Hy.
  - intros [= <-] j x Hj. lia.
  - destruct (findIndex p l) as [k|] eqn:Hk; simpl; [|done].
    intros [= <-] [|j] x Hj; simpl.
    + by intros [= <-].
    + apply (IH k eq_refl). lia.
Qed.

Lemma findIndex_None {A} (p : A -> bool) l :
  findIndex p l = None -> forallb (fun x => negb (p x)) l = true.
Proof.
  induction l as [|y l IH]; simpl; [done|].
  destruct (p y); [done|]. destruct (findIndex p l); [done|]. auto.
Qed.

Lemma forallb_saved results :
  forallb (fun m => negb (negb (saved m))) results = forallb saved results.
Proof.
  induction results as [|m l IH]; simpl; [done|].
  by rewrite negb_involutive, IH.
Qed.

(** X2.  [findFirstUnsavedMatchIndex] returns the position of the first
    result that is not saved: the result there is unsaved and every
    result before it is saved.  When every result is saved (also when
    there is none) it returns 0. *)
Theorem findFirstUnsavedMatchIndex_first (results : list MatchResult) :
  (forallb saved results = true ∧ findFirstUnsavedMatchIndex results = 0)
  ∨ (∃ m, results !! findFirstUnsavedMatchIndex results = Some m
          ∧ saved m = false
          ∧ ∀ j m', j < findFirstUnsavedMatchIndex results ->
                    results !! j = Some m' -> saved m' = true).
Proof.
  unfold findFirstUnsavedMatchIndex.
  destruct (findIndex (fun m => negb (saved m)) results) as [i|] eqn:E; simpl.
  - right. destruct (findIndex_Some _ _ _ E) as (m & Hm & Hs).
    exists m. split; [done|]. split; [by apply negb_true_iff|].
    intros j m' Hj Hm'. apply negb_false_iff.
    exact (findIndex_first _ _ _ E j m' Hj Hm').
  - left. split; [|done]. apply findIndex_None in E.
    by rewrite forallb_saved in E.
Qed.

(** *** The order of the standings *)

Section sorting_by.
Context {A : Type} (cmp : A -> A -> Z) (R : relation A).
Hypothesis cmp_R : ∀ x y, (cmp x y <= 0)%Z -> R x y.
Hypothesis cmp_total : ∀ x y, (0 < cmp x y)%Z -> R y x.
Hypothesis R_trans : ∀ x y z, R x y -> R y z -> R x z.

Lemma sortInsert_perm x l : sortInsert cmp x l ≡ₚ x :: l.
Proof.
  induction l as [|y l IH]; simpl; [done|].
  destruct (cmp x y <=? 0)%Z; [done|].
  rewrite IH. apply Permutation_swap.
Qed.

Lemma sort_perm l : sort cmp l ≡ₚ l.
Proof.
  induction l as [|x l IH]; simpl; [done|].
  unfold sort in IH. by rewrite sortInsert_perm, IH.
Qed.

Lemma sortInsert_StronglySorted x l :
  StronglySorted R l -> StronglySorted R (sortInsert cmp x l).
Proof.
  induction 1 as [|y l Hl IH Hy]; simpl.
  - repeat constructor.
  - destruct (cmp x y <=? 0)%Z eqn:E.
    + apply Z.leb_le in E. constructor; [by constructor|].
      constructor; [by apply cmp_R|].
      eapply Forall_impl; [exact Hy|]. intros z Hz. simpl in *.
      eapply R_trans; [by apply cmp_R|done].
    + apply Z.leb_gt in E. constructor; [done|].
      rewrite sortInsert_perm. constructor; [by apply cmp_total|done].
Qed.

Lemma sort_StronglySorted l : StronglySorted R (sort cmp l).
Proof.
  induction l as [|x l IH]; simpl; [constructor|].
  by apply sortInsert_StronglySorted.
Qed.

(** Stability: the elements that satisfy [p] keep their order when no
    two of them are strictly ordered by the comparator. *)
Lemma sortInsert_stable (p : A -> bool) x l :
  (∀ y, p x = true -> p y = true -> cmp x y = 0%Z) ->
  List.filter p (sortInsert cmp x l) = List.filter p (x :: l).
Proof.
  intros Hp. induction l as [|y l IH]; [done|].
  cbn [sortInsert]. destruct (cmp x y <=? 0)%Z eqn:E; [done|].
  apply Z.leb_gt in E. cbn [List.filter] in *.
  destruct (p y) eqn:Hy; [|exact IH].
  rewrite IH. destruct (p x) eqn:Hx; [|done].
  specialize (Hp y eq_refl Hy). lia.
Qed.

Lemma sort_stable (p : A -> bool) l :
  (∀ x y, p x = true -> p y = true -> cmp x y = 0%Z) ->
  List.filter p (sort cmp l) = List.filter p l.
Proof.
  intros Hp. induction l as [|x l IH]; [done|].
  cbn [sort foldr]. fold (sort cmp l).
  rewrite sortInsert_stable by (intros; by apply Hp).
  cbn [List.filter]. by rewrite IH.
Qed.
End sorting_by.

Lemma compareTeamStats_ranksBefore a b :
  (compareTeamStats a b <= 0)%Z ↔ ranksBefore a b.
Proof.
  unfold compareTeamStats, ranksBefore.
  destruct (Z.eqb_spec (points b - points a) 0); simpl; [|lia].
  destruct (Z.eqb_spec (gd b - gd a) 0); simpl; lia.
Qed.

Lemma compareTeamStats_sameRank t a b :
  sameRank t a = true -> sameRank t b = true -> compareTeamStats a b = 0%Z.
Proof.
  unfold sameRank, compareTeamStats. intros Ha Hb.
  apply andb_true_iff in Ha as [Ha Ha3]. apply andb_true_iff in Ha as [Ha1 Ha2].
  apply andb_true_iff in Hb as [Hb Hb3]. apply andb_true_iff in Hb as [Hb1 Hb2].
  apply Z.eqb_eq in Ha1, Ha2, Ha3, Hb1, Hb2, Hb3.
  destruct (Z.eqb_spec (points b - points a) 0); simpl; [|lia].
  destruct (Z.eqb_spec (gd b - gd a) 0); simpl; lia.
Qed.

(** X3.  The table that is displayed holds the rows of [teamStats],
    each once; a row never stands below a row with fewer points, or with
    equal points and a worse goal difference, or with equal points and
    goal difference and fewer goals scored; rows that agree in all three
    keep the order they have in [teamStats]. *)
Theorem sortedTeamStats_ranking (st : State) :
  sortedTeamStats st ≡ₚ teamStats st
  ∧ StronglySorted ranksBefore (sortedTeamStats st)
  ∧ ∀ t, List.filter (sameRank t) (sortedTeamStats st)
         = List.filter (sameRank t) (teamStats st).
Proof.
  unfold sortedTeamStats. split; [apply sort_perm|]. split.
  - apply sort_StronglySorted.
    + intros x y. apply compareTeamStats_ranksBefore.
    + intros x y H. apply compareTeamStats_ranksBefore.
      revert H. unfold compareTeamStats.
      destruct (Z.eqb_spec (points y - points x) 0),
               (Z.eqb_spec (points x - points y) 0); simpl; try lia.
      destruct (Z.eqb_spec (gd y - gd x) 0),
               (Z.eqb_spec (gd x - gd y) 0); simpl; lia.
    + unfold ranksBefore. intros x y z. lia.
  - intros t. apply sort_stable. apply compareTeamStats_sameRank.
Qed.

(** *** Typing into a result *)




Lemma set_sideScorers_same side m : set_sideScorers side (sideScorers side m) m = m.
Proof. by destruct side, m. Qed.

Lemma sideScorers_other side side' v m :
  side' ≠ side -> sideScorers side' (set_sideScorers side v m) = sideScorers side' m.
Proof. by destruct side, side'. Qed.



Lemma filter_none_removed pid (l : list ScorerEntry) :
  existsb (fun s => String.eqb (playerId s) pid) l = false ->
  List.filter (fun s => negb (String.eqb (playerId s) pid)) l = l.
Proof.
  induction l as [|s l IH]; simpl; [done|].
  destruct (String.eqb (playerId s) pid); simpl; [done|].
  intros H. by rewrite IH.
Qed.

Lemma filter_app_removed pid (l : list ScorerEntry) s :
  existsb (fun s => String.eqb (playerId s) pid) l = false ->
  String.eqb (playerId s) pid = true ->
  List.filter (fun s => negb (String.eqb (playerId s) pid)) (l ++ [s]) = l.
Proof.
  intros Hl Hs. rewrite List.filter_app, filter_none_removed by done.
  simpl. rewrite Hs. simpl. apply app_nil_r.
Qed.

Lemma set_matchResults_twice a b st :
  set_matchResults a (set_matchResults b st) = set_matchResults a st.
Proof. done. Qed.

(** X5.  Picking a player who has no tally on that side and then
    removing the player again gives back the scorer lists and the scores
    that were there before (the mismatch flag is cleared); this holds
    whether or not the player is found in the roster. *)
Theorem select_then_remove_restores (matchIndex : nat) (teamNum : Side)
    (selectedId : string) (st st1 : State) (m : MatchResult) :
  matchResults st !! matchIndex = Some m ->
  existsb (fun s => String.eqb (playerId s) selectedId)
          (sideScorers teamNum m) = false ->
  handleSelectGoalScorer matchIndex teamNum selectedId st = Some st1 ->
  handleRemoveGoalScorer matchIndex teamNum selectedId st1
  = Some (set_matchResults
            (<[matchIndex := set_goalScorerMismatch false m]> (matchResults st))
            st).
Proof.
  intros Hm Hnone. unfold handleSelectGoalScorer.
  assert (matchIndex < length (matchResults st)) as Hlt
    by (by eapply lookup_lt_Some).
  destruct (String.eqb selectedId "") eqn:Hempty.
  - intros [= <-]. unfold handleRemoveGoalScorer. rewrite Hm. simpl.
    by rewrite filter_none_removed, set_sideScorers_same.
  - rewrite Hm. simpl. rewrite Hnone. intros [= <-].
    unfold handleRemoveGoalScorer. cbn [matchResults set_matchResults].
    rewrite list_lookup_insert_eq by done. simpl.
    rewrite list_insert_insert_eq, sideScorers_updated.
    destruct (find _ _) as [player|] eqn:Hp.
    + apply find_Some in Hp as [_ Hp].
      rewrite filter_app_removed by done.
      by destruct teamNum, m.
    + rewrite filter_none_removed by done.
      by destruct teamNum, m.
Qed.

Lemma select_then_remove_restores_witness :
  let st := after sampleStart in
  ∃ st1 m,
    matchResults st !! 0 = Some m
    ∧ handleSelectGoalScorer 0 Side1 "id-2" st = Some st1
    ∧ handleRemoveGoalScorer 0 Side1 "id-2" st1
      = Some (set_matchResults
                (<[0 := set_goalScorerMismatch false m]> (matchResults st)) st).
Proof.
  intros st.
  destruct (matchResults st !! 0) as [m|] eqn:Hm; [|vm_compute in Hm; discriminate].
  destruct (handleSelectGoalScorer 0 Side1 "id-2" st) as [st1|] eqn:H1;
    [|vm_compute in H1; discriminate].
  exists st1, m. split; [reflexivity|]. split; [reflexivity|].
  apply (select_then_remove_restores 0 Side1 "id-2" st st1 m Hm); [|exact H1].
  revert Hm. vm_compute. intros [= <-]. reflexivity.
Defined.

(** *** Cancelling an edit *)

Lemma typing_editOf st i m m2 ev s' :
  i = currentMatchViewIndex st ->
  i < length (matchResults st) ->
  editOf m m2 ->
  typing ev = true ->
  handle ev (set_matchResults (<[i := m2]> (matchResults st)) st) = Some s' ->
  ∃ m3, editOf m m3
        ∧ s' = set_matchResults (<[i := m3]> (matchResults st)) st.
Proof.
  intros -> Hlt (H1 & H2 & Hs & Ho & Hg) Hty.
  destruct ev; try discriminate Hty; cbn [handle currentMatchViewIndex set_matchResults].
  - unfold handleScoreChange. cbn [matchResults set_matchResults].
    rewrite list_lookup_insert_eq by done. simpl.
    rewrite list_insert_insert_eq. intros [= <-].
    eexists. split; [|reflexivity]. by destruct team.
  - unfold handlePlayerGoalChange. cbn [matchResults set_matchResults].
    rewrite list_lookup_insert_eq by done. simpl.
    destruct (sideScorers teamNum m2 !! scorerIndex) as [e|]; simpl; [|done].
    rewrite list_insert_insert_eq. intros [= <-].
    eexists. split; [|reflexivity]. by destruct teamNum.
  - unfold handleSelectGoalScorer. destruct (String.eqb selectedId "").
    + intros [= <-]. by exists m2.
    + cbn [matchResults set_matchResults].
      rewrite list_lookup_insert_eq by done. simpl.
      rewrite list_insert_insert_eq. intros [= <-].
      eexists. split; [|reflexivity]. by destruct teamNum.
  - unfold handleRemoveGoalScorer. cbn [matchResults set_matchResults].
    rewrite list_lookup_insert_eq by done. simpl.
    rewrite list_insert_insert_eq. intros [= <-].
    eexists. split; [|reflexivity]. by destruct teamNum.
Qed.

Lemma run_typing_cancel st i m evs :
  i = currentMatchViewIndex st ->
  i < length (matchResults st) ->
  forallb typing evs = true ->
  ∀ m2 st',
    editOf m m2 ->
    run (evs ++ [ClickCancelEdit])
        (set_matchResults (<[i := m2]> (matchResults st)) st) = Some st' ->
    st' = set_matchResults
            (<[i := set_goalScorerMismatch false (clearEditing m)]>
               (matchResults st)) st.
Proof.
  intros Hi Hlt. induction evs as [|ev evs IH]; intros Hty m2 st' Hm2.
  - cbn [app run]. destruct (enabled _ _); [|done].
    cbn [handle currentMatchViewIndex set_matchResults].
    unfold handleCancelEdit. cbn [matchResults set_matchResults].
    rewrite <- Hi, list_lookup_insert_eq by done. simpl.
    destruct Hm2 as (H1 & H2 & Hs & -> & ->). simpl.
    rewrite list_insert_insert_eq. intros [= <-].
    rewrite set_matchResults_twice. f_equal. f_equal.
    destruct m, m2; simpl in *. by subst.
  - cbn [forallb] in Hty. apply andb_true_iff in Hty as [Hev Hty].
    cbn [app run]. destruct (enabled _ _); [|done].
    destruct (handle ev _) as [s1|] eqn:Hs1; [|done]. simpl.
    destruct (typing_editOf st i m m2 ev s1 Hi Hlt Hm2 Hev Hs1) as (m3 & Hm3 & ->).
    by apply IH.
Qed.

(** X6.  A saved result is opened for editing, scores and scorers are
    typed, and the edit is cancelled.  Whatever was typed, the
    application is in the state it had before the edit, except that the
    result has its edit flag, its snapshot fields and its mismatch flag
    cleared: the result shows its old scores and scorers again, and the
    table, the other results and all other cells are untouched. *)
Theorem cancel_discards_typing (st st' : State) (m : MatchResult)
    (evs : list Event) :
  matchResults st !! currentMatchViewIndex st = Some m ->
  forallb typing evs = true ->
  run (ClickEditResult :: evs ++ [ClickCancelEdit]) st = Some st' ->
  st' = set_matchResults
          (<[currentMatchViewIndex st :=
               set_goalScorerMismatch false (clearEditing m)]>
             (matchResults st)) st.
Proof.
  intros Hm Hty. cbn [run]. destruct (enabled st ClickEditResult); [|done].
  cbn [handle]. unfold handleEditResult. rewrite Hm. simpl. intros Hrun.
  eapply (run_typing_cancel st _ m evs eq_refl); [by eapply lookup_lt_Some|done| |exact Hrun].
  by repeat split.
Qed.

Lemma cancel_discards_typing_witness :
  let st := after sampleSaved in
  ∃ st' m,
    matchResults st !! currentMatchViewIndex st = Some m
    ∧ run (ClickEditResult :: sampleTyped ++ [ClickCancelEdit]) st = Some st'
    ∧ st' = set_matchResults
              (<[currentMatchViewIndex st :=
                   set_goalScorerMismatch false (clearEditing m)]>
                 (matchResults st)) st.
Proof.
  intros st.
  destruct (matchResults st !! currentMatchViewIndex st) as [m|] eqn:Hm;
    [|vm_compute in Hm; discriminate].
  destruct (run (ClickEditResult :: sampleTyped ++ [ClickCancelEdit]) st)
    as [st'|] eqn:Hrun; [|vm_compute in Hrun; discriminate].
  exists st', m. split; [reflexivity|]. split; [reflexivity|].
  exact (cancel_discards_typing st st' m sampleTyped Hm eq_refl Hrun).
Defined.

(** *** The shape of the table *)

Lemma updateStatEntry_rowOk t a b k : rowOk t -> rowOk (updateStatEntry t a b k).
Proof.
  unfold rowOk, updateStatEntry. intros [Hp Hq].
  destruct (b <? a)%Z; simpl; [lia|]. destruct (a <? b)%Z; simpl; lia.
Qed.

Lemma alterAt_rowOk a b k oi s :
  Forall rowOk s -> Forall rowOk (alterAt (fun t => updateStatEntry t a b k) oi s).
Proof.
  intros H. destruct oi as [i|]; simpl; [|done].
  apply Forall_alter; [done|]. intros. by apply updateStatEntry_rowOk.
Qed.

Lemma applyMatchStatsToTeams_rowOk s m teams k :
  Forall rowOk s -> Forall rowOk (applyMatchStatsToTeams s m teams k).
Proof.
  intros Hs. rewrite applyMatchStatsToTeams_contribution.
  destruct (contribution teams m) as [[[[n1 n2] a] b]|]; [|done].
  unfold applyContribution. by do 2 apply alterAt_rowOk.
Qed.

Lemma statsAfterSave_rowOk teams stats m :
  Forall rowOk stats -> Forall rowOk (statsAfterSave teams stats m).
Proof.
  intros H. unfold statsAfterSave. apply applyMatchStatsToTeams_rowOk.
  destruct (originalScores m); [|done].
  destruct (saved m && isEditing m); [|done].
  by apply applyMatchStatsToTeams_rowOk.
Qed.

Lemma initialTeamStat_names teams :
  name <$> map initialTeamStat teams = team_name <$> teams.
Proof. induction teams as [|t l IH]; [done|]. csimpl. by rewrite <- IH. Qed.

Lemma tableOk_effect st ev st' :
  tableOk (core st) -> effect st ev st' -> tableOk (core st').
Proof.
  intros [Hr Hn Hst] Heff. simpl in *.
  destruct Heff as [-> | i m m' Hi Hch -> | i m m' Hi _ _ _ _ _ _ _ _ _ _ _ ->
                    | teams _ -> | teams Hround -> | stored Hstored -> | n ->
                    | n _ -> | n s loaded Hload -> Hlen]; simpl.
  - done.
  - by split.
  - split; simpl; try done.
    + by apply statsAfterSave_rowOk.
    + intros H. rewrite statsAfterSave_names. by apply Hn.
  - split; simpl; try done.
    + apply Forall_fmap, Forall_forall. by intros t _.
    + intros _. apply initialTeamStat_names.
  - split; simpl; try done. intros H. lia.
  - split; simpl; try done.
    destruct Hstored as [-> | [n ->]]; [done|]. by apply map_Forall_delete.
  - split; simpl; try done. by apply map_Forall_delete.
  - split; simpl; try done. by apply map_Forall_insert_2.
  - destruct (map_Forall_lookup_1 _ _ _ _ Hst Hload) as [H1 H2].
    by split.
Qed.

Lemma reachable_tableOk st : reachable st -> tableOk (core st).
Proof.
  induction 1 as [|st ev st' _ IH Hstep].
  - split; simpl; done.
  - eapply tableOk_effect; [done|]. by eapply step_effect.
Qed.

(** X7.  In every reachable state every row of the table adds up: the
    matches played are the wins, the draws and the losses together, and
    the points are three per win and one per draw.  This holds while a
    result is being edited and after a league is loaded. *)
Theorem table_rows_add_up (st : State) :
  reachable st -> Forall rowOk (teamStats st).
Proof. intros Hst. by destruct (reachable_tableOk st Hst). Qed.

Lemma table_rows_add_up_witness :
  Forall rowOk (teamStats (after sampleEdited)).
Proof.
  apply table_rows_add_up.
  apply (after_reachable sampleEdited). vm_compute. reflexivity.
Defined.

(** X8.  While a league runs, the table has exactly one row for every
    submitted team, in the order of the teams and under the team's
    name; saving, editing, storing and loading never add, drop, rename
    or reorder a row. *)
Theorem table_has_one_row_per_team (st : State) :
  reachable st -> 0 < roundNumber st ->
  map name (teamStats st) = map team_name (submittedTeamData st).
Proof.
  intros Hst Hround. destruct (reachable_tableOk st Hst) as [_ Hn _].
  by apply Hn.
Qed.

Lemma table_has_one_row_per_team_witness :
  let st := after sampleEdited in
  0 < roundNumber st
  ∧ map name (teamStats st) = map team_name (submittedTeamData st).
Proof.
  intros st.
  assert (0 < roundNumber st) as Hr by (vm_compute; lia).
  split; [exact Hr|].
  apply table_has_one_row_per_team; [|exact Hr].
  apply (after_reachable sampleEdited). vm_compute. reflexivity.
Defined.

(** *** Matches and points over all teams *)




(** *** Saved results have passed the validation *)











(** *** The fixture in view *)

Lemma findFirstUnsavedMatchIndex_lt results :
  results ≠ [] -> findFirstUnsavedMatchIndex results < length results.
Proof.
  intros Hne. unfold findFirstUnsavedMatchIndex.
  destruct (findIndex _ results) as [i|] eqn:E; [by eapply findIndex_lt|].
  destruct results; [done|]. simpl. lia.
Qed.

Lemma viewInRange_frame st st' :
  matches st' = matches st ->
  currentMatchViewIndex st' = currentMatchViewIndex st ->
  viewInRange st -> viewInRange st'.
Proof. unfold viewInRange. by intros -> ->. Qed.

Ltac same_view Hh :=
  injection Hh as <-; eapply viewInRange_frame; [..|eassumption]; reflexivity.

Lemma viewInRange_step st ev st' :
  length (matches st) = length (matchResults st) ->
  step st ev st' -> viewInRange st -> viewInRange st'.
Proof.
  intros Hlen [Hen Hh] Hst.
  destruct ev; simpl in Hen, Hh.
  all: try (same_view Hh).
  all: try (injection Hh as <-; by left).
  - (* ClickContinueLeague *)
    unfold handleContinueLeague in Hh. case_decide; same_view Hh.
  - (* SetupScreens *)
    destruct askConfirm; same_view Hh.
  - (* StartTheGames *)
    injection Hh as <-. unfold startTheGames.
    destruct (length teamsToUse <? 2) eqn:E; [by left|].
    unfold generateAllRoundRobinMatches. rewrite length_map, E.
    apply Nat.ltb_ge in E.
    right. simpl. rewrite roundRobinLoops_indexPairs, length_map, indexPairs_length,
      length_map.
    apply Nat.div_str_pos. split; [lia|]. nia.
  - (* ChangeScore *)
    unfold handleScoreChange in Hh.
    destruct (matchResults st !! currentMatchViewIndex st) as [r|]; [|done].
    same_view Hh.
  - (* ChangePlayerGoal *)
    unfold handlePlayerGoalChange in Hh.
    destruct (matchResults st !! currentMatchViewIndex st) as [r|]; [|done].
    simpl in Hh. destruct (sideScorers teamNum r !! scorerIndex); [|done].
    same_view Hh.
  - (* SelectGoalScorer *)
    unfold handleSelectGoalScorer in Hh.
    destruct (String.eqb selectedId ""); [same_view Hh|].
    destruct (matchResults st !! currentMatchViewIndex st) as [r|]; [|done].
    same_view Hh.
  - (* ClickRemoveGoalScorer *)
    unfold handleRemoveGoalScorer in Hh.
    destruct (matchResults st !! currentMatchViewIndex st) as [r|]; [|done].
    same_view Hh.
  - (* ClickSaveResult *)
    unfold handleSaveResult in Hh.
    destruct (matchResults st !! currentMatchViewIndex st) as [r|] eqn:Er; [|done].
    simpl in Hh.
    destruct (team1Score r) as [score1|]; [|same_view Hh].
    destruct (team2Score r) as [score2|]; [|same_view Hh].
    match type of Hh with (if ?c then _ else _) = _ => destruct c end;
      [same_view Hh|].
    destruct (matches st !! currentMatchViewIndex st) as [mt|]; [|done].
    simpl in Hh. injection Hh as <-. right. simpl. rewrite Hlen.
    erewrite <- length_insert. apply findFirstUnsavedMatchIndex_lt.
    intros Hnil. apply (f_equal length) in Hnil.
    rewrite length_insert in Hnil. apply lookup_lt_Some in Er. simpl in Hnil. lia.
  - (* ClickEditResult *)
    unfold handleEditResult in Hh.
    destruct (matchResults st !! currentMatchViewIndex st) as [r|]; [|done].
    same_view Hh.
  - (* ClickCancelEdit *)
    unfold handleCancelEdit in Hh.
    destruct (matchResults st !! currentMatchViewIndex st) as [r|]; [|done].
    same_view Hh.
  - (* ClickNextMatch *)
    inv_shown. injection Hh as <-. right. simpl.
    match goal with H : matches st !! _ = Some _ |- _ =>
      apply lookup_lt_Some in H end. lia.
  - (* ClickPreviousMatch *)
    inv_shown. injection Hh as <-. right. simpl.
    match goal with H : matches st !! _ = Some _ |- _ =>
      apply lookup_lt_Some in H end. lia.
  - (* ClickSaveLeagueConfirm *)
    injection Hh as <-. unfold handleSaveLeagueConfirm.
    destruct (String.eqb _ ""); [by eapply viewInRange_frame|].
    destruct (_ && _); by eapply viewInRange_frame.
  - (* ClickLoadLeague *)
    injection Hh as <-. unfold handleLoadLeague.
    destruct (savedLeagues st !! leagueName) as [s|]; [|done].
    unfold viewInRange. simpl.
    destruct (saved_matchResults s) as [|m l] eqn:El; [by left|]. right.
    rewrite length_map, <- (length_map clearEditing).
    by apply findFirstUnsavedMatchIndex_lt.
  - (* ClickDeleteLeague *)
    injection Hh as <-. unfold handleDeleteLeague, deleteLeagueFromStorage.
    simpl. destruct (bool_decide (currentLeagueName st = Some leagueName));
      [by left|done].
Qed.

Lemma reachable_viewInRange st : reachable st -> viewInRange st.
Proof.
  induction 1 as [|st ev st' Hst IH Hstep]; [by left|].
  eapply viewInRange_step; [|done..].
  by destruct (reachable_wellFormed st Hst).
Qed.

(** X11.  In every reachable state in which the match input section is
    rendered (a league runs, the match view is active and there is a
    fixture), the index of the fixture in view is inside both the list of
    fixtures and the list of results, so the section has a fixture and a
    result to show.  Saving, loading and the two navigation buttons never
    move the view outside the list. *)
Theorem match_in_view_exists (st : State) :
  reachable st ->
  0 < roundNumber st -> activeLeagueView st = viewMatches ->
  0 < length (matches st) ->
  ∃ match_ matchResult,
    matches st !! currentMatchViewIndex st = Some match_
    ∧ matchResults st !! currentMatchViewIndex st = Some matchResult
    ∧ shownMatch st = Some (match_, matchResult).
Proof.
  intros Hst Hround Hview Hlen.
  destruct (reachable_viewInRange st Hst) as [Hnil | Hlt];
    [rewrite Hnil in Hlen; simpl in Hlen; lia|].
  destruct (reachable_wellFormed st Hst) as [_ _ _ Hm]. simpl in Hm.
  destruct (lookup_lt_is_Some_2 (matches st) _ Hlt) as [mt Hmt].
  rewrite Hm in Hlt.
  destruct (lookup_lt_is_Some_2 (matchResults st) _ Hlt) as [mr Hmr].
  exists mt, mr. split; [done|]. split; [done|].
  unfold shownMatch. apply Nat.ltb_lt in Hround, Hlen.
  by rewrite Hround, Hview, Hlen, Hmt, Hmr.
Qed.

Lemma match_in_view_exists_witness :
  let st := after sampleSaved in
  0 < roundNumber st ∧ activeLeagueView st = viewMatches
  ∧ 0 < length (matches st)
  ∧ ∃ match_ matchResult,
      matches st !! currentMatchViewIndex st = Some match_
      ∧ matchResults st !! currentMatchViewIndex st = Some matchResult
      ∧ shownMatch st = Some (match_, matchResult).
Proof.
  intros st.
  assert (0 < roundNumber st) as H1 by (vm_compute; lia).
  assert (activeLeagueView st = viewMatches) as H2 by (vm_compute; reflexivity).
  assert (0 < length (matches st)) as H3 by (vm_compute; lia).
  split; [exact H1|]. split; [exact H2|]. split; [exact H3|].
  apply (match_in_view_exists st); [|exact H1|exact H2|exact H3].
  apply (after_reachable sampleSaved). vm_compute. reflexivity.
Defined.

(** *** Overwriting and deleting stored leagues *)

(** X13.  A stored league is not overwritten by the first confirmation of
    the save dialog.  When the trimmed name is already taken and the
    overwrite question is not yet shown, [handleSaveLeagueConfirm]
    stores nothing: it leaves the stored leagues and the typed name as
    they are and raises the overwrite question for that name.
    Cancelling then keeps the old league; confirming once more replaces
    it with the snapshot of the current league and makes it the current
    league. *)
Theorem overwrite_needs_confirmation (st : State) (old : SavedLeagueState) :
  trim (saveLeagueInputName st) ≠ "" ->
  savedLeagues st !! trim (saveLeagueInputName st) = Some old ->
  showOverwriteConfirm st = false ->
  savedLeagues (handleSaveLeagueConfirm st) = savedLeagues st
  ∧ showOverwriteConfirm (handleSaveLeagueConfirm st) = true
  ∧ leagueNameToOverwrite (handleSaveLeagueConfirm st)
    = trim (saveLeagueInputName st)
  ∧ saveLeagueInputName (handleSaveLeagueConfirm st) = saveLeagueInputName st
  ∧ showSaveLeagueModal (handleSaveLeagueConfirm st) = showSaveLeagueModal st
  ∧ savedLeagues (handleCancelSaveLeague (handleSaveLeagueConfirm st))
    = savedLeagues st
  ∧ savedLeagues (handleSaveLeagueConfirm (handleSaveLeagueConfirm st))
    = <[trim (saveLeagueInputName st) := snapshotOf st]> (savedLeagues st)
  ∧ currentLeagueName (handleSaveLeagueConfirm (handleSaveLeagueConfirm st))
    = Some (trim (saveLeagueInputName st)).
Proof.
  intros Hname Hold Hask.
  assert (handleSaveLeagueConfirm st
          = set_showOverwriteConfirm true
              (set_leagueNameToOverwrite (trim (saveLeagueInputName st)) st))
    as ->.
  { unfold handleSaveLeagueConfirm. apply String.eqb_neq in Hname.
    rewrite Hname, Hold, Hask. by rewrite bool_decide_eq_true_2 by eauto. }
  repeat split.
  - unfold handleSaveLeagueConfirm. cbn [saveLeagueInputName
      set_showOverwriteConfirm set_leagueNameToOverwrite showOverwriteConfirm].
    apply String.eqb_neq in Hname. rewrite Hname.
    by rewrite andb_false_r.
  - unfold handleSaveLeagueConfirm. cbn [saveLeagueInputName
      set_showOverwriteConfirm set_leagueNameToOverwrite showOverwriteConfirm].
    apply String.eqb_neq in Hname. rewrite Hname.
    by rewrite andb_false_r.
Qed.

Lemma overwrite_needs_confirmation_witness :
  let st :=
    after (sampleSaved ++
           [ ClickSaveLeague; TypeLeagueName "cup"; ClickSaveLeagueConfirm;
             ClickEditResult; ChangeScore Side1 (Some 3%Z);
             ChangePlayerGoal Side1 0 (Some 3%Z); ClickSaveResult;
             ClickSaveLeague; TypeLeagueName " cup " ]) in
  is_Some (savedLeagues st !! "cup")
  ∧ savedLeagues (handleSaveLeagueConfirm st) = savedLeagues st
  ∧ showOverwriteConfirm (handleSaveLeagueConfirm st) = true
  ∧ savedLeagues (handleSaveLeagueConfirm (handleSaveLeagueConfirm st))
    = <["cup" := snapshotOf st]> (savedLeagues st).
Proof.
  intros st.
  destruct (savedLeagues st !! trim (saveLeagueInputName st)) as [old|] eqn:Hold;
    [|vm_compute in Hold; discriminate].
  assert (trim (saveLeagueInputName st) = "cup") as Hcup
    by (vm_compute; reflexivity).
  destruct (overwrite_needs_confirmation st old)
    as (H1 & H2 & _ & _ & _ & _ & H3 & _).
  - rewrite Hcup. discriminate.
  - exact Hold.
  - vm_compute. reflexivity.
  - rewrite Hcup in Hold, H3. split; [by rewrite Hold|].
    split; [exact H1|]. split; [exact H2|exact H3].
Defined.

(** X14.  Deleting a stored league does not disturb the others: a league
    that is loaded after another one was deleted gives the state that
    loading it before the deletion gives, apart from the deleted entry;
    and loading the deleted name afterwards does nothing, provided the
    name is not one that every object inherits from [Object.prototype]
    (for those the source finds the inherited property in place of a
    stored league). *)
Theorem delete_keeps_other_leagues (st : State) (leagueName other : string) :
  other ≠ leagueName ->
  is_Some (savedLeagues st !! other) ->
  inheritedName leagueName = false ->
  handleLoadLeague other (handleDeleteLeague leagueName st)
  = set_savedLeagues (delete leagueName (savedLeagues st))
      (handleLoadLeague other st)
  ∧ handleLoadLeague leagueName (handleDeleteLeague leagueName st)
    = handleDeleteLeague leagueName st.
Proof.
  intros Hne [s Hs] _. split.
  - unfold handleLoadLeague at 1.
    assert (savedLeagues (handleDeleteLeague leagueName st) !! other = Some s) as ->.
    { unfold handleDeleteLeague, deleteLeagueFromStorage. simpl.
      destruct (bool_decide _); simpl; by rewrite lookup_delete_ne. }
    unfold handleLoadLeague. rewrite Hs.
    unfold handleDeleteLeague, deleteLeagueFromStorage. simpl.
    by destruct (bool_decide _).
  - unfold handleLoadLeague.
    assert (savedLeagues (handleDeleteLeague leagueName st) !! leagueName = None)
      as ->; [|done].
    unfold handleDeleteLeague, deleteLeagueFromStorage. simpl.
    destruct (bool_decide _); simpl; by rewrite lookup_delete_eq.
Qed.

Lemma delete_keeps_other_leagues_witness :
  let st :=
    after (sampleSaved ++
           [ ClickSaveLeague; TypeLeagueName "cup"; ClickSaveLeagueConfirm;
             ClickSaveLeague; TypeLeagueName "league"; ClickSaveLeagueConfirm;
             ClickExitLeague; ClickContinueLeague ]) in
  is_Some (savedLeagues st !! "cup")
  ∧ inheritedName "league" = false
  ∧ handleLoadLeague "cup" (handleDeleteLeague "league" st)
    = set_savedLeagues (delete "league" (savedLeagues st))
        (handleLoadLeague "cup" st)
  ∧ handleLoadLeague "league" (handleDeleteLeague "league" st)
    = handleDeleteLeague "league" st.
Proof.
  intros st.
  assert (is_Some (savedLeagues st !! "cup")) as Hcup.
  { destruct (savedLeagues st !! "cup") eqn:E; [by eexists|].
    vm_compute in E. discriminate. }
  split; [exact Hcup|]. split; [vm_compute; reflexivity|].
  apply (delete_keeps_other_leagues st "league" "cup");
    [discriminate|exact Hcup|vm_compute; reflexivity].
Defined.

(** *** The fixtures of one team *)

Lemma indexPairs_NoDup n : NoDup (indexPairs n).
Proof.
  eapply StronglySorted_irrefl_NoDup; [apply lexLt_irrefl|].
  apply indexPairs_rows_sorted.
Qed.

Lemma length_filter_involving n k :
  k < n ->
  length (List.filter (fun p : nat * nat => (p.1 =? k) || (p.2 =? k))
                      (indexPairs n))
  = n - 1.
Proof.
  intros Hk.
  set (L := ((fun i => (i, k)) <$> seq 0 k) ++ (pair k <$> seq (k + 1) (n - (k + 1)))).
  assert (length L = n - 1) as <-.
  { unfold L. rewrite length_app, !length_fmap, !length_seq. lia. }
  apply Permutation_length, NoDup_Permutation.
  - apply NoDup_ListNoDup, List.NoDup_filter, NoDup_ListNoDup, indexPairs_NoDup.
  - unfold L. apply NoDup_app. split; [|split].
    + apply NoDup_fmap_2; [|apply NoDup_seq]. by intros i j [= ->].
    + intros [i j] H1 H2.
      apply list_elem_of_fmap in H1 as (x & [= -> ->] & Hx).
      apply list_elem_of_fmap in H2 as (y & [= -> ->] & Hy).
      apply elem_of_seq in Hx, Hy. lia.
    + apply NoDup_fmap_2; [|apply NoDup_seq]. by intros i j [= ->].
  - intros [i j]. rewrite list_elem_of_In, filter_In, <- list_elem_of_In,
      elem_of_indexPairs. unfold L. rewrite elem_of_app, !list_elem_of_fmap.
    simpl. rewrite orb_true_iff, !Nat.eqb_eq. split.
    + intros [Hij [-> | ->]].
      * right. exists j. split; [done|]. apply elem_of_seq. lia.
      * left. exists i. split; [done|]. apply elem_of_seq. lia.
    + intros [(x & [= -> ->] & Hx) | (y & [= -> ->] & Hy)].
      * apply elem_of_seq in Hx. split; [lia | by right].
      * apply elem_of_seq in Hy. split; [lia | by left].
Qed.

Lemma length_filter_map {A B} (f : A -> B) (p : B -> bool) (l : list A) :
  length (List.filter p (map f l)) = length (List.filter (fun x => p (f x)) l).
Proof.
  induction l as [|x l IH]; simpl; [done|].
  destruct (p (f x)); simpl; by rewrite IH.
Qed.

Lemma lookup_total_NoDup_eq (names : list string) i k :
  NoDup names -> i < length names -> k < length names ->
  String.eqb (names !!! i) (names !!! k) = (i =? k).
Proof.
  intros Hnd Hi Hk.
  destruct (Nat.eqb_spec i k) as [-> | Hne]; [apply String.eqb_refl|].
  apply String.eqb_neq. intros Heq. apply Hne.
  apply (NoDup_lookup names i k (names !!! i)); [done|by apply list_lookup_lookup_total_lt|].
  rewrite Heq. by apply list_lookup_lookup_total_lt.
Qed.

(** X15.  When the team names are pairwise different, every team takes
    part in exactly [n - 1] of the fixtures that the generator returns
    for [n >= 2] teams: one against each of the other teams. *)
Theorem every_team_has_one_fixture_per_opponent (teams : list Team)
    (st : State) (team : Team) :
  NoDup (map team_name teams) ->
  2 <= length teams ->
  team ∈ teams ->
  length (List.filter (takesPart (team_name team))
                      (generateAllRoundRobinMatches teams st).2.1)
  = length teams - 1.
Proof.
  intros Hnd Hn Ht. unfold generateAllRoundRobinMatches.
  rewrite length_map. apply Nat.ltb_ge in Hn as Hn'. rewrite Hn'. simpl.
  rewrite roundRobinLoops_indexPairs, length_map, length_filter_map.
  apply list_elem_of_lookup_1 in Ht as [k Hk].
  assert (k < length teams) as Hlt by (by eapply lookup_lt_Some).
  assert (map team_name teams !!! k = team_name team) as <-.
  { apply list_lookup_total_correct. by rewrite list_lookup_fmap, Hk. }
  rewrite <- (length_filter_involving (length teams) k Hlt).
  f_equal. apply List.filter_ext_in. intros [i j] Hin.
  apply list_elem_of_In, elem_of_indexPairs in Hin.
  unfold takesPart, fixtureOf. simpl.
  by rewrite !lookup_total_NoDup_eq by (rewrite ?length_map; done || lia).
Qed.

Lemma every_team_has_one_fixture_per_opponent_witness :
  length (List.filter (takesPart "Beta")
            (generateAllRoundRobinMatches sampleTeams (initialState ∅)).2.1)
  = 2.
Proof.
  apply (every_team_has_one_fixture_per_opponent sampleTeams (initialState ∅)
           {| team_id := "id-3"; team_name := "Beta";
              players := [mkPlayer "id-4" "Cyrus"; mkPlayer "id-5" "Dara"] |}).
  - apply (bool_decide_unpack _). vm_compute. exact I.
  - simpl. lia.
  - apply (list_elem_of_lookup_2 _ 1). reflexivity.
Defined.

(** *** Saving a result *)

(** X20.  A result with both scores set that passes the scorer check is
    saved: the handler succeeds whenever the fixture exists; the result
    keeps its teams, scores and scorers, is marked saved and leaves edit
    mode with its snapshot and its mismatch flag cleared; no other result
    changes; the key of the fixture is recorded among the played pairs,
    whichever of the two teams is named first, and no recorded pair is
    lost; the view moves to the first result that is still unsaved; and
    for a result that was not saved before, the table is the old table
    with this result applied once. *)
Theorem handleSaveResult_saves (matchIndex : nat) (st : State)
    (m : MatchResult) (match_ : string * string) (score1 score2 : Z) :
  matchResults st !! matchIndex = Some m ->
  matches st !! matchIndex = Some match_ ->
  team1Score m = Some score1 -> team2Score m = Some score2 ->
  (0 < numPlayersPerTeam st ->
   goalsSum (team1GoalScorers m) = score1
   ∧ goalsSum (team2GoalScorers m) = score2) ->
  ∃ st',
    handleSaveResult matchIndex st = Some st'
    ∧ matchResults st'
      = <[matchIndex := set_goalScorerMismatch false
                          (clearEditing (set_saved true m))]> (matchResults st)
    ∧ teamStats st' = statsAfterSave (submittedTeamData st) (teamStats st) m
    ∧ (saved m = false ->
       teamStats st'
       = applyMatchStatsToTeams (teamStats st) m (submittedTeamData st) 1)
    ∧ normalizePair match_.1 match_.2 ∈ allPlayedPairs st'
    ∧ normalizePair match_.2 match_.1 ∈ allPlayedPairs st'
    ∧ allPlayedPairs st ⊆ allPlayedPairs st'
    ∧ currentMatchViewIndex st'
      = findFirstUnsavedMatchIndex (matchResults st').
Proof.
  intros Hm Hmatch H1 H2 Hsum. unfold handleSaveResult.
  rewrite Hm. simpl. rewrite H1, H2.
  assert ((if 0 <? numPlayersPerTeam st
           then negb (goalsSum (team1GoalScorers m) =? score1)%Z
                || negb (goalsSum (team2GoalScorers m) =? score2)%Z
           else false) = false) as ->.
  { destruct (0 <? numPlayersPerTeam st) eqn:E; [|done].
    apply Nat.ltb_lt in E. destruct (Hsum E) as [-> ->].
    by rewrite !Z.eqb_refl. }
  rewrite Hmatch. simpl.
  pose proof (normalizePair_comm match_.1 match_.2) as Hsym.
  pose proof (normalizePair_nonempty match_.1 match_.2) as Hne.
  apply String.eqb_neq in Hne. rewrite Hne. clear Hsum.
  eexists. split; [reflexivity|]. simpl.
  split; [done|]. split; [done|]. split.
  - intros Hs. rewrite Hs. simpl. by destruct (originalScores m).
  - split; [apply elem_of_union_l; by apply elem_of_singleton|].
    split; [rewrite <- Hsym; apply elem_of_union_l; by apply elem_of_singleton|].
    split; [apply union_subseteq_r|done].
Qed.

Lemma handleSaveResult_saves_witness :
  let st :=
    after (sampleStart ++
           [ ChangeScore Side1 (Some 2%Z); ChangeScore Side2 (Some 1%Z);
             SelectGoalScorer Side1 "id-1"; ChangePlayerGoal Side1 0 (Some 2%Z);
             SelectGoalScorer Side2 "id-4" ]) in
  ∃ st',
    handleSaveResult 0 st = Some st'
    ∧ normalizePair "Beta" "Alpha" ∈ allPlayedPairs st'
    ∧ currentMatchViewIndex st' = 1.
Proof.
  intros st.
  destruct (matchResults st !! 0) as [m|] eqn:Hm; [|vm_compute in Hm; discriminate].
  destruct (handleSaveResult_saves 0 st m ("Alpha", "Beta") 2 1 Hm)
    as (st' & Hsave & Hres & _ & _ & _ & Hpair & _ & Hview).
  - vm_compute. reflexivity.
  - revert Hm. vm_compute. by intros [= <-].
  - revert Hm. vm_compute. by intros [= <-].
  - intros _. revert Hm. vm_compute. by intros [= <-].
  - exists st'. split; [exact Hsave|]. split; [exact Hpair|].
    rewrite Hview, Hres. revert Hm. vm_compute. by intros [= <-].
Defined.

(** *** What changes the table *)



(** *** The setup screens and the abstract setup events *)

(** What the computations of the setup handlers leave behind. *)

Lemma setTeamDataGen_next g st st' :
  nextState (setTeamDataGen g st) = Some st' ->
  (∃ teams c, g (globalIdCounter st) = (Some teams, c)
              ∧ setTeamDataGen g st = returned st'
              ∧ st' = set_globalIdCounter c (set_teamData teams st))
  ∨ (∃ c, g (globalIdCounter st) = (None, c)
          ∧ setTeamDataGen g st = thrown st'
          ∧ st' = set_globalIdCounter c st).
Proof.
  unfold setTeamDataGen.
  destruct (g (globalIdCounter st)) as [[teams|] c]; simpl; intros [= <-].
  - left. by exists teams, c.
  - right. by exists c.
Qed.

Lemma updateTeamDataGen_next g st st' :
  nextState (updateTeamDataGen g st) = Some st' ->
  ∃ teams c, g (globalIdCounter st) = (Some teams, c)
             ∧ updateTeamDataGen g st = returned st'
             ∧ st' = set_globalIdCounter c (set_teamData teams st).
Proof.
  unfold updateTeamDataGen.
  destruct (g (globalIdCounter st)) as [[teams|] c]; simpl; [|done].
  intros [= <-]. by exists teams, c.
Qed.




Lemma onSetupCounts_inSetup st :
  onSetupCounts st = true ->
  (roundNumber st =? 0) = true ∧ appStage st = setupCounts.
Proof.
  unfold onSetupCounts. intros [H1 H2]%andb_true_iff.
  split; [done|]. by destruct (appStage st).
Qed.

Lemma onNamingScreen_inSetup st :
  onNamingScreen st = true ->
  (roundNumber st =? 0) = true ∧ appStage st = namingTeamsAndPlayers
  ∧ is_Some (teamData st !! currentTeamIndex st).
Proof.
  unfold onNamingScreen. intros [[H1 H2]%andb_true_iff H3]%andb_true_iff.
  split; [done|]. split; [by destruct (appStage st)|].
  by apply bool_decide_eq_true in H3.
Qed.




(** *** The ids drawn on the setup screens *)

Lemma idOf_inj k k' : idOf k = idOf k' -> k = k'.
Proof.
  unfold idOf. intros H. apply String.app_inj in H. by apply pretty_nat_inj in H.
Qed.

Lemma elem_of_new_ids c n id :
  id ∈ idOf <$> seq c n ↔ ∃ k, c <= k < c + n ∧ id = idOf k.
Proof.
  rewrite list_elem_of_fmap. split.
  - intros (k & -> & Hk). apply elem_of_seq in Hk. eauto.
  - intros (k & Hk & ->). exists k. split; [done|]. by apply elem_of_seq.
Qed.

Lemma NoDup_new_ids c n : NoDup (idOf <$> seq c n).
Proof. apply NoDup_fmap_2; [|apply NoDup_seq]. intros k k'. apply idOf_inj. Qed.

Lemma idsFresh_new c n : idsFresh (c + n) (idOf <$> seq c n).
Proof.
  split; [apply NoDup_new_ids|]. intros id (k & Hk & ->)%elem_of_new_ids.
  exists k. split; [lia|done].
Qed.

(** Ids kept, ids dropped and ids drawn: the step of the induction for
    [handleNumPlayersPerTeamChange]. *)
Lemma idsFresh_keep_and_draw c n (kept old rest : list string) (tid : string) :
  (∀ id, id ∈ kept -> id ∈ old) -> NoDup kept ->
  idsFresh c (tid :: old ++ rest) ->
  idsFresh (c + n) (rest ++ tid :: kept ++ (idOf <$> seq c n)).
Proof.
  intros Hsub Hkept [Hnd Hb].
  apply NoDup_cons in Hnd as [Htid Hnd].
  apply NoDup_app in Hnd as (Hold & Hdisj & Hrest).
  assert (∀ id, id ∈ idOf <$> seq c n -> ¬ ∃ k, k < c ∧ id = idOf k) as Hnew.
  { intros id (k & Hk & ->)%elem_of_new_ids (k' & Hk' & Heq).
    apply idOf_inj in Heq. lia. }
  split.
  - apply NoDup_app. split; [done|]. split.
    + intros id Hid. rewrite elem_of_cons, elem_of_app.
      intros [-> | [Hin | Hin]].
      * apply Htid. apply elem_of_app. by right.
      * apply (Hdisj id); [by apply Hsub | done].
      * apply (Hnew id Hin). apply Hb. right. apply elem_of_app. by right.
    + apply NoDup_cons. split.
      * rewrite elem_of_app. intros [Hin | Hin].
        -- apply Htid. apply elem_of_app. left. by apply Hsub.
        -- apply (Hnew tid Hin). apply Hb. by left.
      * apply NoDup_app. split; [done|]. split; [|apply NoDup_new_ids].
        intros id Hid Hin. apply (Hnew id Hin). apply Hb. right.
        apply elem_of_app. left. by apply Hsub.
  - intros id. rewrite elem_of_app, elem_of_cons, elem_of_app.
    intros [Hin | [-> | [Hin | Hin]]].
    + destruct (Hb id) as (k & Hk & ->); [right; apply elem_of_app; by right|].
      exists k. split; [lia|done].
    + destruct (Hb tid) as (k & Hk & ->); [by left|].
      exists k. split; [lia|done].
    + destruct (Hb id) as (k & Hk & ->); [right; apply elem_of_app; left; by apply Hsub|].
      exists k. split; [lia|done].
    + apply elem_of_new_ids in Hin as (k & Hk & ->). exists k. split; [lia|done].
Qed.

Lemma idsFresh_Permutation c l l' : l ≡ₚ l' -> idsFresh c l -> idsFresh c l'.
Proof.
  intros Hp [Hnd Hb]. split; [by rewrite <- Hp|].
  intros id Hid. apply Hb. by rewrite Hp.
Qed.

(** What the computations return, and what they leave in the counter
    when they throw. *)

Lemma newArray_Some n c l c' :
  newArray n c = (Some l, c') -> l = replicate n () ∧ c' = c.
Proof.
  unfold newArray. destruct (_ <=? _)%Z; unfold gen_ret, gen_throw; [|done].
  by intros [= <- <-].
Qed.

Lemma newArray_None n c c' :
  newArray n c = (None, c') -> ¬ withinArrayLimit n ∧ c' = c.
Proof.
  unfold newArray, withinArrayLimit.
  destruct (_ <=? _)%Z eqn:E; unfold gen_ret, gen_throw; [done|].
  apply Z.leb_gt in E. intros [= <-]. split; [lia|done].
Qed.

Lemma newArray_within n c :
  withinArrayLimit n -> newArray n c = (Some (replicate n ()), c).
Proof.
  unfold newArray, withinArrayLimit. intros H%Z.leb_le. by rewrite H.
Qed.

Lemma mapGenFrom_counter {A B} (f : nat -> A -> Gen B) i l c :
  (∀ i x c, c <= (f i x c).2) -> c <= (mapGenFrom f i l c).2.
Proof.
  intros Hf. revert i c. induction l as [|x l IH]; intros i c; simpl; [done|].
  unfold gen_bind at 1. pose proof (Hf i x c) as Hx.
  destruct (f i x c) as [[y|] c1]; simpl in *; [|done].
  unfold gen_bind. pose proof (IH (S i) c1) as Hl.
  destruct (mapGenFrom f (S i) l c1) as [[ys|] c2]; simpl in *; lia.
Qed.

Lemma mapGenFrom_total {A B} (f : nat -> A -> Gen B) i l c :
  (∀ i x c, is_Some (f i x c).1) -> is_Some (mapGenFrom f i l c).1.
Proof.
  intros Hf. revert i c. induction l as [|x l IH]; intros i c; simpl; [by eexists|].
  unfold gen_bind at 1. destruct (Hf i x c) as [y Hy].
  destruct (f i x c) as [[y'|] c1]; simpl in *; [|done].
  unfold gen_bind. destruct (IH (S i) c1) as [ys Hys].
  destruct (mapGenFrom f (S i) l c1) as [[ys'|] c2]; simpl in *; [by eexists|done].
Qed.

Lemma newPlayer_counter c : c <= (newPlayer c).2.
Proof.
  cbv beta iota delta [newPlayer gen_bind generateUniqueId gen_ret snd]. lia.
Qed.

Lemma mapGenFrom_newPlayer i (slots : list unit) c :
  mapGenFrom (fun _ _ => newPlayer) i slots c
  = (Some ((fun k => mkPlayer (idOf k) "") <$> seq c (length slots)),
     c + length slots).
Proof.
  revert i c. induction slots as [|x l IH]; intros i c.
  - simpl. unfold gen_ret. by rewrite Nat.add_0_r.
  - cbn [mapGenFrom]. unfold gen_bind at 1. unfold newPlayer at 1.
    unfold gen_bind at 1. unfold generateUniqueId, gen_ret at 1.
    unfold gen_bind. rewrite IH. unfold gen_ret. simpl.
    rewrite Nat.add_1_r. unfold idOf. f_equal. lia.
Qed.

Lemma newTeam_Some p c team c' :
  newTeam p c = (Some team, c') ->
  c' = c + 1 + p
  ∧ team_id team :: map player_id (players team) = idOf <$> seq c (1 + p).
Proof.
  unfold newTeam, gen_bind, generateUniqueId.
  destruct (newArray p (c + 1)) as [[slots|] c1] eqn:Ea; [|done].
  apply newArray_Some in Ea as [-> ->].
  unfold mapGen. rewrite mapGenFrom_newPlayer, length_replicate.
  unfold gen_ret. intros [= <- <-]. split; [lia|]. simpl. f_equal.
  rewrite <- list_fmap_compose. rewrite Nat.add_1_r. by apply list_fmap_ext.
Qed.

Lemma newTeam_counter p c : c <= (newTeam p c).2.
Proof.
  unfold newTeam, gen_bind, generateUniqueId.
  destruct (newArray p (c + 1)) as [[slots|] c1] eqn:Ea.
  - apply newArray_Some in Ea as [-> ->].
    unfold mapGen. rewrite mapGenFrom_newPlayer. unfold gen_ret. simpl. lia.
  - apply newArray_None in Ea as [_ ->]. simpl. lia.
Qed.

Lemma newTeam_within p c :
  withinArrayLimit p -> is_Some (newTeam p c).1.
Proof.
  intros Hp. unfold newTeam, gen_bind, generateUniqueId.
  rewrite (newArray_within p _ Hp). unfold mapGen.
  rewrite mapGenFrom_newPlayer. unfold gen_ret. simpl. by eexists.
Qed.

Lemma mapGenFrom_newTeam p i (slots : list unit) c teams c' :
  mapGenFrom (fun _ _ => newTeam p) i slots c = (Some teams, c') ->
  c' = c + length slots * (1 + p)
  ∧ allIds teams = idOf <$> seq c (length slots * (1 + p)).
Proof.
  revert i c teams c'. induction slots as [|x l IH]; intros i c teams c'.
  - simpl. unfold gen_ret. intros [= <- <-]. split; [lia|done].
  - cbn [mapGenFrom]. unfold gen_bind at 1.
    destruct (newTeam p c) as [[team|] c1] eqn:Et; [|done].
    apply newTeam_Some in Et as [-> Hids].
    unfold gen_bind.
    destruct (mapGenFrom _ (S i) l _) as [[teams0|] c2] eqn:El; [|done].
    apply IH in El as [-> Hids0]. unfold gen_ret. intros [= <- <-].
    split; [simpl; lia|].
    cbn [allIds flat_map]. fold (allIds teams0). rewrite Hids, Hids0.
    rewrite <- fmap_app. f_equal.
    change (length (x :: l) * (1 + p)) with ((1 + p) + length l * (1 + p)).
    rewrite (seq_app (1 + p) (length l * (1 + p)) c). do 2 f_equal. lia.
Qed.

Lemma newTeams_idsFresh n p c teams c' :
  newTeams n p c = (Some teams, c') -> c <= c' ∧ idsFresh c' (allIds teams).
Proof.
  unfold newTeams, gen_bind.
  destruct (newArray n c) as [[slots|] c1] eqn:Ea; [|done].
  apply newArray_Some in Ea as [-> ->]. unfold mapGen.
  intros [-> ->]%mapGenFrom_newTeam. split; [lia|]. apply idsFresh_new.
Qed.

Lemma newTeams_counter n p c : c <= (newTeams n p c).2.
Proof.
  unfold newTeams, gen_bind.
  destruct (newArray n c) as [[slots|] c1] eqn:Ea.
  - apply newArray_Some in Ea as [-> ->]. unfold mapGen.
    apply mapGenFrom_counter. intros _ _ c0. apply newTeam_counter.
  - apply newArray_None in Ea as [_ ->]. simpl. lia.
Qed.

Lemma newTeams_within n p c :
  withinArrayLimit n -> withinArrayLimit p -> is_Some (newTeams n p c).1.
Proof.
  intros Hn Hp. unfold newTeams, gen_bind.
  rewrite (newArray_within n _ Hn). unfold mapGen.
  apply mapGenFrom_total. intros _ _ c0. by apply newTeam_within.
Qed.

Lemma mapGenFrom_resize (ps : list Player) i (slots : list unit) c ps' c' :
  mapGenFrom (fun i _ =>
                match ps !! i with
                | Some player => gen_ret player
                | None => newPlayer
                end) i slots c = (Some ps', c') ->
  ∃ n, c' = c + n
       ∧ ps' = take (length slots) (drop i ps)
               ++ ((fun k => mkPlayer (idOf k) "") <$> seq c n).
Proof.
  revert i c ps' c'. induction slots as [|x l IH]; intros i c ps' c'.
  - simpl. unfold gen_ret. intros [= <- <-]. exists 0. split; [lia|done].
  - cbn [mapGenFrom]. unfold gen_bind at 1.
    destruct (ps !! i) as [player|] eqn:Ei.
    + unfold gen_ret at 1. unfold gen_bind.
      destruct (mapGenFrom _ (S i) l c) as [[ps0|] c2] eqn:El; [|done].
      apply IH in El as (n & -> & ->). unfold gen_ret. intros [= <- <-].
      exists n. split; [done|].
      by rewrite (drop_S _ _ _ Ei).
    + unfold newPlayer at 1. unfold gen_bind at 1. unfold generateUniqueId, gen_ret at 1.
      unfold gen_bind.
      destruct (mapGenFrom _ (S i) l (c + 1)) as [[ps0|] c2] eqn:El; [|done].
      apply IH in El as (n & -> & ->). unfold gen_ret. intros [= <- <-].
      exists (S n). split; [lia|].
      apply lookup_ge_None in Ei.
      rewrite !drop_ge by lia. rewrite !take_nil. simpl.
      by rewrite Nat.add_1_r.
Qed.

Lemma resizeTeam_Some v team c team' c' :
  resizeTeam v team c = (Some team', c') ->
  ∃ n, c' = c + n
       ∧ team_id team' = team_id team ∧ team_name team' = team_name team
       ∧ players team' = take v (players team)
                         ++ ((fun k => mkPlayer (idOf k) "") <$> seq c n).
Proof.
  unfold resizeTeam, gen_bind.
  destruct (newArray v c) as [[slots|] c1] eqn:Ea; [|done].
  apply newArray_Some in Ea as [-> ->]. unfold mapGen.
  destruct (mapGenFrom _ 0 _ c) as [[ps|] c2] eqn:Em; [|done].
  apply mapGenFrom_resize in Em as (n & -> & ->).
  unfold gen_ret. intros [= <- <-]. exists n.
  by rewrite length_replicate.
Qed.

Lemma resizeTeam_within v team c :
  withinArrayLimit v -> is_Some (resizeTeam v team c).1.
Proof.
  intros Hv. unfold resizeTeam, gen_bind.
  rewrite (newArray_within v _ Hv). unfold mapGen.
  match goal with |- context [mapGenFrom ?f 0 ?l c] =>
    destruct (mapGenFrom_total f 0 l c) as [ps Hps] end.
  { intros i _ c0. destruct (players team !! i); [by eexists|].
    unfold newPlayer, gen_bind, generateUniqueId, gen_ret. by eexists. }
  destruct (mapGenFrom _ 0 _ c) as [[ps'|] c2]; simpl in *; [by eexists|done].
Qed.

Lemma mapGenFrom_resizeTeam v i teams c teams' c' rest :
  mapGenFrom (fun _ team => resizeTeam v team) i teams c = (Some teams', c') ->
  idsFresh c (allIds teams ++ rest) ->
  c <= c' ∧ idsFresh c' (allIds teams' ++ rest).
Proof.
  revert i c teams' c' rest.
  induction teams as [|team l IH]; intros i c teams' c' rest.
  - simpl. unfold gen_ret. by intros [= <- <-].
  - cbn [mapGenFrom]. unfold gen_bind at 1.
    destruct (resizeTeam v team c) as [[team'|] c1] eqn:Et; [|done].
    apply resizeTeam_Some in Et as (n & -> & Hid & Hname & Hps).
    unfold gen_bind.
    destruct (mapGenFrom _ (S i) l _) as [[l'|] c2] eqn:El; [|done].
    unfold gen_ret. intros [= <- <-] Hfresh.
    cbn [allIds flat_map] in *. fold (allIds l) in Hfresh. fold (allIds l').
    destruct (IH _ _ _ _
                (rest ++ team_id team
                        :: (player_id <$> take v (players team))
                        ++ (idOf <$> seq c n)) El) as [Hle Hl'].
    { eapply idsFresh_Permutation;
        [|apply (idsFresh_keep_and_draw c n
                   (player_id <$> take v (players team))
                   (player_id <$> players team)
                   (allIds l ++ rest) (team_id team))].
      - by rewrite <- (assoc app).
      - intros id Hin. eapply elem_of_sublist; [exact Hin|].
        apply fmap_sublist, sublist_take.
      - destruct Hfresh as [Hnd _]. simpl in Hnd.
        apply NoDup_cons in Hnd as [_ Hnd].
        rewrite <- (assoc app) in Hnd. apply NoDup_app in Hnd as (Hnd & _ & _).
        eapply sublist_NoDup; [exact Hnd|]. apply fmap_sublist, sublist_take.
      - simpl in Hfresh. by rewrite <- (assoc app) in Hfresh. }
    split; [lia|].
    eapply idsFresh_Permutation; [|exact Hl'].
    rewrite Hid, Hps, fmap_app, <- list_fmap_compose. simpl.
    change ((player_id ∘ (fun k => mkPlayer (idOf k) "")) <$> seq c n)
      with (idOf <$> seq c n).
    rewrite <- !(assoc app). simpl.
    rewrite (assoc app (allIds l')), (comm app (allIds l' ++ rest)). simpl.
    by rewrite <- (assoc app).
Qed.

Lemma allIds_insert teams i team team' :
  teams !! i = Some team ->
  team_id team' = team_id team ->
  map player_id (players team') = map player_id (players team) ->
  allIds (<[i := team']> teams) = allIds teams.
Proof.
  intros Hi Hid Hps. revert i Hi.
  induction teams as [|t l IH]; intros [|i] Hi; simplify_eq/=.
  - by rewrite Hid, Hps.
  - fold (allIds l). fold (allIds (<[i := team']> l)). by rewrite (IH i).
Qed.

Lemma allIds_imap (f : nat -> Team -> Team) teams :
  (∀ i team, team_id (f i team) = team_id team
             ∧ map player_id (players (f i team)) = map player_id (players team)) ->
  allIds (imap f teams) = allIds teams.
Proof.
  revert f. induction teams as [|t l IH]; intros f Hf; [done|].
  rewrite imap_cons. cbn [allIds flat_map].
  fold (allIds l). fold (allIds (imap (f ∘ S) l)).
  destruct (Hf 0 t) as [-> ->]. rewrite IH; [done|]. intros i team. apply Hf.
Qed.

Lemma allIds_map (f : Team -> Team) teams :
  (∀ team, team_id (f team) = team_id team
           ∧ map player_id (players (f team)) = map player_id (players team)) ->
  allIds (map f teams) = allIds teams.
Proof.
  intros Hf. induction teams as [|t l IH]; [done|].
  cbn [map allIds flat_map]. fold (allIds l). fold (allIds (map f l)).
  destruct (Hf t) as [-> ->]. by rewrite IH.
Qed.

Lemma player_ids_insert (ps : list Player) j p newName :
  ps !! j = Some p ->
  map player_id (<[j := mkPlayer (player_id p) newName]> ps) = map player_id ps.
Proof.
  revert j. induction ps as [|q l IH]; intros [|j] Hj; simplify_eq/=; [done|].
  by rewrite IH.
Qed.

Lemma player_ids_imap (f : nat -> Player -> Player) (ps : list Player) :
  (∀ i p, player_id (f i p) = player_id p) ->
  map player_id (imap f ps) = map player_id ps.
Proof.
  revert f. induction ps as [|q l IH]; intros f Hf; [done|].
  rewrite imap_cons. simpl. rewrite Hf, IH; [done|]. intros i p. apply Hf.
Qed.

Lemma idsFresh_mono c c' ids : c <= c' -> idsFresh c ids -> idsFresh c' ids.
Proof.
  intros Hle [Hnd Hb]. split; [done|]. intros id Hid.
  destruct (Hb id Hid) as (k & Hk & ->). exists k. split; [lia|done].
Qed.

Lemma idsFresh_sublist c ids ids' :
  ids' `sublist_of` ids -> idsFresh c ids -> idsFresh c ids'.
Proof.
  intros Hsub [Hnd Hb]. split; [by eapply sublist_NoDup|].
  intros id Hid. apply Hb. by eapply elem_of_sublist.
Qed.

Lemma allIds_without_players teams :
  allIds (map (fun team => mkTeam (team_id team) (team_name team) []) teams)
  `sublist_of` allIds teams.
Proof.
  induction teams as [|t l IH]; [done|].
  cbn [map allIds flat_map]. simpl. apply sublist_skip.
  apply sublist_inserts_l. exact IH.
Qed.

Lemma startTheGames_ids teams st :
  roundNumber st = 0 ->
  teamData (startTheGames teams st) = teamData st
  ∧ globalIdCounter (startTheGames teams st) = globalIdCounter st
  ∧ (0 < roundNumber (startTheGames teams st) ->
     submittedTeamData (startTheGames teams st) = teams).
Proof.
  intros Hr. unfold startTheGames. destruct (length teams <? 2); simpl.
  - split; [done|]. split; [done|]. lia.
  - unfold generateAllRoundRobinMatches. rewrite length_map.
    destruct (length teams <? 2); simpl; done.
Qed.

(** The ids stay fresh over a step, also when the handler throws: the
    team data is then the old one, and the counter has not gone back. *)
Lemma setupStep_idsFresh st ev st' :
  setupStep st ev st' ->
  idsFresh (globalIdCounter st) (allIds (teamData st)) ->
  idsFresh (globalIdCounter st') (allIds (teamData st'))
  ∧ (0 < roundNumber st' ->
     idsFresh (globalIdCounter st') (allIds (submittedTeamData st'))).
Proof.
  intros [Hen Hh] Hst.
  assert (roundNumber st = 0) as Hround.
  { destruct ev; simpl in Hen; unfold onSetupCounts, onNamingScreen in Hen;
      split_guard; by apply Nat.eqb_eq. }
  assert (∀ n p st0,
    teamData st0 = teamData st -> globalIdCounter st0 = globalIdCounter st ->
    roundNumber st0 = 0 ->
    nextState (setTeamDataGen (newTeams n p) st0) = Some st' ->
    idsFresh (globalIdCounter st') (allIds (teamData st'))
    ∧ (0 < roundNumber st' ->
       idsFresh (globalIdCounter st') (allIds (submittedTeamData st'))))
    as Hnew.
  { intros n p st0 Htd Hc Hr0 H.
    apply setTeamDataGen_next in H
      as [(teams & c & Et & _ & ->) | (c & Et & _ & ->)]; simpl.
    - apply newTeams_idsFresh in Et as [_ Ht]. split; [done|lia].
    - pose proof (newTeams_counter n p (globalIdCounter st0)) as Hle.
      rewrite Et in Hle. simpl in Hle. rewrite Htd. split; [|lia].
      eapply idsFresh_mono; [|exact Hst]. lia. }
  destruct ev; simpl in Hh.
  - (* TypeNumTeams *)
    unfold handleNumTeamsChange in Hh.
    destruct input as [|value|]; [injection Hh as <-; simpl; split; [|lia]| |by injection Hh as <-; split; [|lia]].
    { split; [constructor|]. intros id Hid. by apply elem_of_nil in Hid. }
    destruct (0 <=? value)%Z; [|by injection Hh as <-; split; [|lia]].
    by eapply Hnew; [..|exact Hh].
  - (* TypeNumPlayersPerTeam *)
    unfold handleNumPlayersPerTeamChange in Hh.
    destruct input as [|value|]; [injection Hh as <-; simpl; split; [|lia]| |by injection Hh as <-; split; [|lia]].
    { eapply idsFresh_sublist; [apply allIds_without_players|done]. }
    destruct (0 <=? value)%Z; [|by injection Hh as <-; split; [|lia]].
    apply updateTeamDataGen_next in Hh as (teams & c & Et & _ & ->). simpl in *.
    apply (mapGenFrom_resizeTeam _ _ _ _ _ _ []) in Et as [_ Ht];
      [|by rewrite app_nil_r].
    rewrite app_nil_r in Ht. split; [done|lia].
  - (* ClickGoToNamingStep *)
    unfold handleGoToNamingStep in Hh.
    destruct (_ || _); [|by injection Hh as <-; split; [|simpl; lia]].
    by eapply Hnew; [..|exact Hh].
  - (* ClickBackToSetup *)
    injection Hh as <-. split; [done|simpl; lia].
  - (* TypeTeamName *)
    unfold handleTeamNameChange in Hh.
    destruct (teamData st !! currentTeamIndex st) as [team|] eqn:Et; [|done].
    injection Hh as <-. simpl. split; [|lia].
    by rewrite (allIds_insert _ _ team).
  - (* TypePlayerName *)
    unfold handlePlayerNameChange in Hh.
    destruct (teamData st !! currentTeamIndex st) as [team|] eqn:Et; [|done].
    simpl in Hh. destruct (players team !! playerIndex) as [p|] eqn:Ep; [|done].
    injection Hh as <-. simpl. split; [|lia].
    rewrite (allIds_insert _ _ team); [done..|]. simpl.
    by apply player_ids_insert.
  - (* ClickNextTeam *)
    injection Hh as <-. unfold handleNextTeam.
    destruct (_ <? _); split; simpl; done || lia.
  - (* ClickPreviousTeam *)
    injection Hh as <-. unfold handlePreviousTeam.
    destruct (_ <? _); split; simpl; done || lia.
  - (* ClickStartGames *)
    injection Hh as <-. unfold handleStartGamesClick.
    destruct (unnamedCounts st) as [unnamedTeamsCount unnamedPlayersCount].
    destruct (_ || _); [split; simpl; done || lia|].
    match goal with |- context [startTheGames ?teams st] =>
      destruct (startTheGames_ids teams st Hround) as (-> & -> & Hsub) end.
    split; [done|]. intros Hr. rewrite (Hsub Hr).
    rewrite allIds_map; [done|]. intros team. split; [done|]. simpl.
    rewrite map_map. by apply map_ext.
  - (* ClickConfirmStartGames *)
    injection Hh as <-. unfold handleConfirmStartGames.
    match goal with |- context [startTheGames ?teams st] =>
      destruct (startTheGames_ids teams st Hround) as (-> & -> & Hsub) end.
    split; [done|]. intros Hr. rewrite (Hsub Hr).
    rewrite allIds_imap; [done|]. intros i team. split; [done|]. simpl.
    by apply player_ids_imap.
  - (* ClickCancelStartGames *)
    injection Hh as <-. split; [done|simpl; lia].
Qed.

(** X17.  The setup screens never hand out an id twice.  From a state
    whose team and player ids are pairwise different and were drawn
    below the current value of the id counter (such as the state after
    [handleStartNewLeague], which has no team), every run of the setup
    handlers ends in a state of which the same holds; changing the
    number of players keeps the players that remain and draws new ids
    for the added ones.  When the run has started the league, the
    submitted teams carry exactly these ids. *)
Theorem setup_keeps_ids_unique (st st' : State) (evs : list SetupEvent) :
  roundNumber st = 0 ->
  idsFresh (globalIdCounter st) (allIds (teamData st)) ->
  setupRun evs st = Some st' ->
  idsFresh (globalIdCounter st') (allIds (teamData st'))
  ∧ (0 < roundNumber st' ->
     idsFresh (globalIdCounter st') (allIds (submittedTeamData st'))).
Proof.
  intros Hround Hst Hrun.
  assert (idsFresh (globalIdCounter st) (allIds (teamData st))
          ∧ (0 < roundNumber st ->
             idsFresh (globalIdCounter st) (allIds (submittedTeamData st))))
    as Hinv by (split; [done|lia]).
  clear Hround Hst. revert st Hinv Hrun.
  induction evs as [|ev evs IH]; intros st Hinv; simpl.
  - by intros [= <-].
  - destruct (setupEnabled st ev) eqn:Hen; [|done].
    destruct (nextState (setupHandle ev st)) as [st1|] eqn:Hh; [|done]. simpl.
    apply IH. apply (setupStep_idsFresh st ev st1); [by split|].
    by destruct Hinv.
Qed.

Lemma setup_keeps_ids_unique_witness :
  let st := afterSetup (sampleSetup ++ [ClickStartGames; ClickConfirmStartGames]) in
  0 < roundNumber st
  ∧ idsFresh (globalIdCounter st) (allIds (teamData st))
  ∧ idsFresh (globalIdCounter st) (allIds (submittedTeamData st)).
Proof.
  intros st.
  assert (0 < roundNumber st) as Hr by (vm_compute; lia).
  destruct (setup_keeps_ids_unique (handleStartNewLeague (initialState ∅)) st
              (sampleSetup ++ [ClickStartGames; ClickConfirmStartGames]))
    as [H1 H2].
  - reflexivity.
  - split; [constructor|]. intros id Hid. by apply elem_of_nil in Hid.
  - vm_compute. reflexivity.
  - split; [exact Hr|]. split; [exact H1|exact (H2 Hr)].
Defined.

(** *** The names at the start of a league *)

Lemma unnamedCounts_foldl st (data : list Team) (a b : nat) :
  let counts :=
    foldl (fun counts team =>
             (if isBlank (team_name team) then counts.1 + 1 else counts.1,
              if 0 <? numPlayersPerTeam st then
                counts.2
                + length (List.filter (fun p => isBlank (player_name p))
                                      (players team))
              else counts.2))
          (a, b) data in
  a <= counts.1 ∧ b <= counts.2
  ∧ (counts.1 = 0 -> ∀ team, team ∈ data -> isBlank (team_name team) = false)
  ∧ (counts.2 = 0 -> 0 < numPlayersPerTeam st ->
     ∀ team p, team ∈ data -> p ∈ players team ->
               isBlank (player_name p) = false).
Proof.
  revert a b. induction data as [|t l IH]; intros a b; simpl.
  - split; [done|]. split; [done|]. split.
    + intros _ team Ht. by apply elem_of_nil in Ht.
    + intros _ _ team p Ht. by apply elem_of_nil in Ht.
  - match goal with |- context [foldl _ (?a', ?b') l] =>
      destruct (IH a' b') as (Ha & Hb & H1 & H2) end.
    split; [destruct (isBlank (team_name t)); lia|].
    split; [destruct (0 <? numPlayersPerTeam st); lia|]. split.
    + intros H0 team [-> | Ht]%elem_of_cons; [|by apply H1].
      destruct (isBlank (team_name t)); [lia|done].
    + intros H0 Hn team p [-> | Ht]%elem_of_cons Hp; [|by eapply H2].
      apply Nat.ltb_lt in Hn as Hn'. rewrite Hn' in Hb, H0.
      assert (List.filter (fun p => isBlank (player_name p)) (players t) = [])
        as Hnil by (apply length_zero_iff_nil; lia).
      destruct (isBlank (player_name p)) eqn:Eb; [|done].
      assert (p ∈ List.filter (fun p => isBlank (player_name p)) (players t)) as Hin.
      { apply list_elem_of_In, filter_In. split; [by apply list_elem_of_In|done]. }
      rewrite Hnil in Hin. by apply elem_of_nil in Hin.
Qed.

Lemma submittedTeamData_startTheGames teams st :
  submittedTeamData (startTheGames teams st) = teams.
Proof.
  unfold startTheGames. destruct (length teams <? 2); simpl; [done|].
  unfold generateAllRoundRobinMatches. rewrite length_map.
  by destruct (length teams <? 2).
Qed.

Lemma isBlank_false name : isBlank name = false -> trim name ≠ "".
Proof. unfold isBlank. by intros H%String.eqb_neq. Qed.

(** X18.  A league never starts with a blank name.  [handleStartGamesClick]
    either finds a blank team name (or, when the teams have players, a
    blank player name), in which case it only opens the confirmation
    dialog and leaves the league cells alone, or it hands
    [startTheGames] the team data with every name trimmed and none
    empty.  [handleConfirmStartGames] hands over the team data with
    every blank name replaced by its default, so no team and no player
    has an empty name. *)
Theorem league_starts_with_names (st : State) :
  (showWarningModal (handleStartGamesClick st) = true
   ∧ warningModalType (handleStartGamesClick st) = confirm
   ∧ core (handleStartGamesClick st) = core st
   ∨ ∀ team, team ∈ submittedTeamData (handleStartGamesClick st) ->
       team_name team ≠ ""
       ∧ (0 < numPlayersPerTeam st ->
          ∀ player, player ∈ players team -> player_name player ≠ ""))
  ∧ ∀ team, team ∈ submittedTeamData (handleConfirmStartGames st) ->
      named team.
Proof.
  split.
  - unfold handleStartGamesClick.
    pose proof (unnamedCounts_foldl st (teamData st) 0 0) as Hc.
    fold (unnamedCounts st) in Hc.
    destruct (unnamedCounts st) as [unnamedTeamsCount unnamedPlayersCount].
    simpl in Hc. destruct Hc as (_ & _ & H1 & H2).
    destruct (0 <? unnamedTeamsCount) eqn:E1; simpl; [by left|].
    destruct (0 <? unnamedPlayersCount) eqn:E2; simpl; [by left|].
    apply Nat.ltb_ge in E1, E2. right.
    rewrite submittedTeamData_startTheGames.
    intros team (t & -> & Ht)%list_elem_of_fmap. simpl. split.
    + apply isBlank_false, H1; [lia|done].
    + intros Hn player (p & -> & Hp)%list_elem_of_fmap. simpl.
      eapply isBlank_false, H2; eauto. lia.
  - unfold handleConfirmStartGames. rewrite submittedTeamData_startTheGames.
    intros team (i & t & -> & Ht)%elem_of_lookup_imap. split; simpl.
    + destruct (isBlank (team_name t)) eqn:E; [done|by apply isBlank_false].
    + intros player (j & p & -> & Hp)%elem_of_lookup_imap. simpl.
      destruct (isBlank (player_name p)) eqn:E; [done|by apply isBlank_false].
Qed.

(** *** The shape of the team data *)

Lemma length_mapGenFrom {A B} (f : nat -> A -> Gen B) i l c l' c' :
  mapGenFrom f i l c = (Some l', c') -> length l' = length l.
Proof.
  revert i c l' c'. induction l as [|x l IH]; intros i c l' c'; simpl.
  - unfold gen_ret. by intros [= <- <-].
  - unfold gen_bind at 1. destruct (f i x c) as [[y|] c1]; [|done].
    unfold gen_bind. destruct (mapGenFrom f (S i) l c1) as [[ys|] c2] eqn:E; [|done].
    unfold gen_ret. intros [= <- <-]. simpl. f_equal. by eapply IH.
Qed.

Lemma mapGenFrom_Forall {A B} (f : nat -> A -> Gen B) (P : B -> Prop) i l c l' c' :
  (∀ i x c y c', f i x c = (Some y, c') -> P y) ->
  mapGenFrom f i l c = (Some l', c') -> ∀ y, y ∈ l' -> P y.
Proof.
  intros Hf. revert i c l' c'. induction l as [|x l IH]; intros i c l' c'; simpl.
  - unfold gen_ret. intros [= <- <-] y Hy. by apply elem_of_nil in Hy.
  - unfold gen_bind at 1. destruct (f i x c) as [[y|] c1] eqn:Ef; [|done].
    unfold gen_bind. destruct (mapGenFrom f (S i) l c1) as [[ys|] c2] eqn:E; [|done].
    unfold gen_ret. intros [= <- <-] z [-> | Hz]%elem_of_cons.
    + by eapply Hf.
    + by eapply IH.
Qed.

Lemma newTeams_shape n p c teams c' :
  newTeams n p c = (Some teams, c') -> rosterShape n p teams.
Proof.
  unfold newTeams, gen_bind.
  destruct (newArray n c) as [[slots|] c1] eqn:Ea; [|done].
  apply newArray_Some in Ea as [-> ->]. unfold mapGen. intros Hm. split.
  - apply length_mapGenFrom in Hm. by rewrite Hm, length_replicate.
  - eapply mapGenFrom_Forall; [|exact Hm]. simpl.
    intros _ _ c0 team c2. unfold newTeam, gen_bind, generateUniqueId.
    destruct (newArray p (c0 + 1)) as [[slots|] c3] eqn:Ea; [|done].
    apply newArray_Some in Ea as [-> ->]. unfold mapGen.
    rewrite mapGenFrom_newPlayer, length_replicate.
    unfold gen_ret. intros [= <- <-]. simpl.
    by rewrite length_fmap, length_seq.
Qed.

Lemma resize_shape v (data : list Team) c teams c' :
  mapGen (fun _ team => resizeTeam v team) data c = (Some teams, c') ->
  rosterShape (length data) v teams.
Proof.
  unfold mapGen. intros Hm. split; [by eapply length_mapGenFrom|].
  eapply mapGenFrom_Forall; [|exact Hm]. simpl.
  intros _ team c0 team' c2. unfold resizeTeam, gen_bind.
  destruct (newArray v c0) as [[slots|] c3] eqn:Ea; [|done].
  apply newArray_Some in Ea as [-> ->]. unfold mapGen.
  destruct (mapGenFrom _ 0 (replicate v ()) c0) as [[ps|] c4] eqn:Eps; [|done].
  unfold gen_ret. intros [= <- <-]. simpl.
  apply length_mapGenFrom in Eps. by rewrite Eps, length_replicate.
Qed.

Lemma rosterShape_insert teams perTeam data i team team' :
  data !! i = Some team ->
  length (players team') = length (players team) ->
  rosterShape teams perTeam data -> rosterShape teams perTeam (<[i := team']> data).
Proof.
  intros Hi Hlen [Hn Hp]. split; [by rewrite length_insert|].
  intros t Ht. apply list_elem_of_lookup_1 in Ht as [j Hj].
  destruct (decide (j = i)) as [-> | Hne].
  - rewrite list_lookup_insert_eq in Hj by (by eapply lookup_lt_Some).
    injection Hj as <-. rewrite Hlen. apply Hp. by eapply list_elem_of_lookup_2.
  - rewrite list_lookup_insert_ne in Hj by done.
    apply Hp. by eapply list_elem_of_lookup_2.
Qed.

Lemma handleGoToNamingStep_keeps st :
  rosterShape (numTeams st) (numPlayersPerTeam st) (teamData st) ->
  handleGoToNamingStep st
  = returned (set_currentTeamIndex 0 (set_appStage namingTeamsAndPlayers st)).
Proof.
  intros [Hn Hp]. unfold handleGoToNamingStep.
  rewrite Hn, Nat.eqb_refl. simpl.
  destruct (0 <? numTeams st) eqn:E; [|done]. simpl.
  destruct (teamData st !! 0) as [team|] eqn:E0; simpl.
  - rewrite (Hp team) by (by eapply list_elem_of_lookup_2).
    by rewrite Nat.eqb_refl.
  - apply Nat.ltb_lt in E. apply lookup_ge_None in E0. lia.
Qed.

(** *** Handlers that return *)

Lemma setTeamDataGen_returns g st :
  is_Some (g (globalIdCounter st)).1 -> ∃ st', setTeamDataGen g st = returned st'.
Proof.
  unfold setTeamDataGen. intros [teams H].
  destruct (g (globalIdCounter st)) as [[teams'|] c]; simpl in *; [|done].
  by eexists.
Qed.

Lemma updateTeamDataGen_returns g st :
  is_Some (g (globalIdCounter st)).1 -> ∃ st', updateTeamDataGen g st = returned st'.
Proof.
  unfold updateTeamDataGen. intros [teams H].
  destruct (g (globalIdCounter st)) as [[teams'|] c]; simpl in *; [|done].
  by eexists.
Qed.

(** No handler of the setup screens throws as long as the counts in the
    state and the count that is typed are ones that [Array] accepts. *)
Lemma setupHandle_returns st ev :
  setupEnabled st ev = true ->
  withinArrayLimit (numTeams st) -> withinArrayLimit (numPlayersPerTeam st) ->
  typesWithinArrayLimit ev ->
  ∃ st', setupHandle ev st = returned st'.
Proof.
  intros Hen Hn Hp Hev. destruct ev; simpl in *; try by eexists.
  - (* TypeNumTeams *)
    unfold handleNumTeamsChange. destruct input as [|value|]; try by eexists.
    destruct (0 <=? value)%Z eqn:E; [|by eexists]. apply Z.leb_le in E.
    apply setTeamDataGen_returns. simpl. apply newTeams_within; [|done].
    unfold withinArrayLimit. lia.
  - (* TypeNumPlayersPerTeam *)
    unfold handleNumPlayersPerTeamChange. destruct input as [|value|]; try by eexists.
    destruct (0 <=? value)%Z eqn:E; [|by eexists]. apply Z.leb_le in E.
    apply updateTeamDataGen_returns. simpl. unfold mapGen.
    apply mapGenFrom_total. intros _ team c. apply resizeTeam_within.
    unfold withinArrayLimit. lia.
  - (* ClickGoToNamingStep *)
    unfold handleGoToNamingStep. destruct (_ || _); [|by eexists].
    apply setTeamDataGen_returns. simpl. by apply newTeams_within.
  - (* TypeTeamName *)
    apply onNamingScreen_inSetup in Hen as (_ & _ & [team Ht]).
    unfold handleTeamNameChange. rewrite Ht. simpl. by eexists.
  - (* TypePlayerName *)
    split_guard.
    match goal with H : onNamingScreen st = true |- _ =>
      apply onNamingScreen_inSetup in H as (_ & _ & [team Ht]) end.
    unfold handlePlayerNameChange. rewrite Ht in *. simpl in *.
    match goal with H : (playerIndex <? _) = true |- _ =>
      apply Nat.ltb_lt, lookup_lt_is_Some_2 in H as [p Hp'] end.
    rewrite Hp'. simpl. by eexists.
Qed.

(** The counts stay within the limit when the typed counts are. *)
Lemma setupHandle_withinArrayLimit st ev st' :
  nextState (setupHandle ev st) = Some st' ->
  typesWithinArrayLimit ev ->
  withinArrayLimit (numTeams st) ∧ withinArrayLimit (numPlayersPerTeam st) ->
  withinArrayLimit (numTeams st') ∧ withinArrayLimit (numPlayersPerTeam st').
Proof.
  intros Hh Hev [Hn Hp].
  assert (∀ teams st0,
    numTeams (startTheGames teams st0) = numTeams st0
    ∧ numPlayersPerTeam (startTheGames teams st0) = numPlayersPerTeam st0)
    as Hstart.
  { intros teams st0. unfold startTheGames. destruct (length _ <? 2); simpl; [done|].
    unfold generateAllRoundRobinMatches. rewrite length_map.
    by destruct (length _ <? 2). }
  destruct ev; simpl in Hh, Hev.
  - (* TypeNumTeams *)
    unfold handleNumTeamsChange in Hh.
    destruct input as [|value|]; [by injection Hh as <-| |by injection Hh as <-].
    destruct (0 <=? value)%Z eqn:E; [|by injection Hh as <-]. apply Z.leb_le in E.
    apply setTeamDataGen_next in Hh
      as [(teams & c & _ & _ & ->) | (c & _ & _ & ->)]; simpl;
      (split; [unfold withinArrayLimit; lia | done]).
  - (* TypeNumPlayersPerTeam *)
    unfold handleNumPlayersPerTeamChange in Hh.
    destruct input as [|value|]; [by injection Hh as <-| |by injection Hh as <-].
    destruct (0 <=? value)%Z eqn:E; [|by injection Hh as <-]. apply Z.leb_le in E.
    apply updateTeamDataGen_next in Hh as (teams & c & _ & _ & ->). simpl.
    split; [done | unfold withinArrayLimit; lia].
  - (* ClickGoToNamingStep *)
    unfold handleGoToNamingStep in Hh.
    destruct (_ || _); [|by injection Hh as <-].
    by apply setTeamDataGen_next in Hh
      as [(teams & c & _ & _ & ->) | (c & _ & _ & ->)].
  - (* ClickBackToSetup *)
    by injection Hh as <-.
  - (* TypeTeamName *)
    unfold handleTeamNameChange in Hh.
    destruct (teamData st !! currentTeamIndex st); [|done]. by injection Hh as <-.
  - (* TypePlayerName *)
    unfold handlePlayerNameChange in Hh.
    destruct (teamData st !! currentTeamIndex st) as [team|]; [|done].
    simpl in Hh. destruct (players team !! playerIndex); [|done].
    by injection Hh as <-.
  - (* ClickNextTeam *)
    injection Hh as <-. unfold handleNextTeam. by destruct (_ <? _).
  - (* ClickPreviousTeam *)
    injection Hh as <-. unfold handlePreviousTeam. by destruct (_ <? _).
  - (* ClickStartGames *)
    injection Hh as <-. unfold handleStartGamesClick.
    destruct (unnamedCounts st) as [unnamedTeamsCount unnamedPlayersCount].
    destruct (_ || _); [done|].
    match goal with |- context [startTheGames ?teams st] =>
      destruct (Hstart teams st) as [-> ->] end. done.
  - (* ClickConfirmStartGames *)
    injection Hh as <-. unfold handleConfirmStartGames.
    match goal with |- context [startTheGames ?teams st] =>
      destruct (Hstart teams st) as [-> ->] end. done.
  - (* ClickCancelStartGames *)
    by injection Hh as <-.
Qed.

Lemma setTeamDataGen_returned g st st' :
  setTeamDataGen g st = returned st' ->
  ∃ teams c, g (globalIdCounter st) = (Some teams, c)
             ∧ st' = set_globalIdCounter c (set_teamData teams st).
Proof.
  unfold setTeamDataGen.
  destruct (g (globalIdCounter st)) as [[teams|] c]; [|done].
  intros [= <-]. by exists teams, c.
Qed.

Lemma updateTeamDataGen_returned g st st' :
  updateTeamDataGen g st = returned st' ->
  ∃ teams c, g (globalIdCounter st) = (Some teams, c)
             ∧ st' = set_globalIdCounter c (set_teamData teams st).
Proof.
  unfold updateTeamDataGen.
  destruct (g (globalIdCounter st)) as [[teams|] c]; [|done].
  intros [= <-]. by exists teams, c.
Qed.

(** The shape is kept by every handler that returns. *)
Lemma setupStep_rosterShape st ev st' :
  setupEnabled st ev = true -> setupHandle ev st = returned st' ->
  rosterShape (numTeams st) (numPlayersPerTeam st) (teamData st) ->
  rosterShape (numTeams st') (numPlayersPerTeam st') (teamData st')
  ∧ (0 < roundNumber st' ->
     rosterShape (numTeams st') (numPlayersPerTeam st') (submittedTeamData st')).
Proof.
  intros Hen Hh Hst.
  assert (roundNumber st = 0) as Hround.
  { destruct ev; simpl in Hen; unfold onSetupCounts, onNamingScreen in Hen;
      split_guard; by apply Nat.eqb_eq. }
  destruct ev; simpl in Hh.
  - (* TypeNumTeams *)
    unfold handleNumTeamsChange in Hh.
    destruct input as [|value|]; [injection Hh as <-; simpl; split; [|lia]| |by injection Hh as <-; split; [|lia]].
    { split; [done|]. intros team Ht. by apply elem_of_nil in Ht. }
    destruct (0 <=? value)%Z; [|by injection Hh as <-; split; [|lia]].
    apply setTeamDataGen_returned in Hh as (teams & c & Et & ->). simpl in *.
    apply newTeams_shape in Et. split; [done|lia].
  - (* TypeNumPlayersPerTeam *)
    unfold handleNumPlayersPerTeamChange in Hh. destruct Hst as [Hn Hp].
    destruct input as [|value|]; [injection Hh as <-; simpl; split; [|lia]| |by injection Hh as <-; split; [|lia]].
    { split; [by rewrite length_map|].
      by intros team (t & -> & Ht)%list_elem_of_fmap. }
    destruct (0 <=? value)%Z; [|by injection Hh as <-; split; [|lia]].
    apply updateTeamDataGen_returned in Hh as (teams & c & Et & ->). simpl in *.
    apply resize_shape in Et. rewrite Hn in Et. split; [done|lia].
  - (* ClickGoToNamingStep *)
    rewrite (handleGoToNamingStep_keeps st Hst) in Hh.
    injection Hh as <-. split; [done|simpl; lia].
  - (* ClickBackToSetup *)
    injection Hh as <-. split; [done|simpl; lia].
  - (* TypeTeamName *)
    unfold handleTeamNameChange in Hh.
    destruct (teamData st !! currentTeamIndex st) as [team|] eqn:Et; [|done].
    injection Hh as <-. simpl. split; [|lia].
    by apply (rosterShape_insert _ _ _ _ team).
  - (* TypePlayerName *)
    unfold handlePlayerNameChange in Hh.
    destruct (teamData st !! currentTeamIndex st) as [team|] eqn:Et; [|done].
    simpl in Hh. destruct (players team !! playerIndex) as [p|] eqn:Ep; [|done].
    injection Hh as <-. simpl. split; [|lia].
    apply (rosterShape_insert _ _ _ _ team); [done| |done]. simpl.
    by rewrite length_insert.
  - (* ClickNextTeam *)
    injection Hh as <-. unfold handleNextTeam.
    destruct (_ <? _); split; simpl; done || lia.
  - (* ClickPreviousTeam *)
    injection Hh as <-. unfold handlePreviousTeam.
    destruct (_ <? _); split; simpl; done || lia.
  - (* ClickStartGames *)
    injection Hh as <-. unfold handleStartGamesClick.
    destruct (unnamedCounts st) as [unnamedTeamsCount unnamedPlayersCount].
    destruct (_ || _); [split; simpl; done || lia|].
    match goal with |- context [startTheGames ?teams st] =>
      pose proof (submittedTeamData_startTheGames teams st) as Hsub;
      destruct (startTheGames_ids teams st Hround) as (Htd & _ & _);
      assert (numTeams (startTheGames teams st) = numTeams st
              ∧ numPlayersPerTeam (startTheGames teams st) = numPlayersPerTeam st)
        as [Hnt Hnp]
    end.
    { unfold startTheGames. destruct (length _ <? 2); simpl; [done|].
      unfold generateAllRoundRobinMatches. rewrite length_map.
      by destruct (length _ <? 2). }
    rewrite Htd, Hnt, Hnp, Hsub. split; [done|]. intros _.
    destruct Hst as [Hn Hp]. split; [by rewrite length_map|].
    intros team (t & -> & Ht)%list_elem_of_fmap. simpl.
    rewrite length_map. by apply Hp.
  - (* ClickConfirmStartGames *)
    injection Hh as <-. unfold handleConfirmStartGames.
    match goal with |- context [startTheGames ?teams st] =>
      pose proof (submittedTeamData_startTheGames teams st) as Hsub;
      destruct (startTheGames_ids teams st Hround) as (Htd & _ & _);
      assert (numTeams (startTheGames teams st) = numTeams st
              ∧ numPlayersPerTeam (startTheGames teams st) = numPlayersPerTeam st)
        as [Hnt Hnp]
    end.
    { unfold startTheGames. destruct (length _ <? 2); simpl; [done|].
      unfold generateAllRoundRobinMatches. rewrite length_map.
      by destruct (length _ <? 2). }
    rewrite Htd, Hnt, Hnp, Hsub. split; [done|]. intros _.
    destruct Hst as [Hn Hp]. split; [by rewrite length_imap|].
    intros team (i & t & -> & Ht)%elem_of_lookup_imap. simpl.
    rewrite length_imap. apply Hp. by eapply list_elem_of_lookup_2.
  - (* ClickCancelStartGames *)
    injection Hh as <-. split; [done|simpl; lia].
Qed.




(** *** The team being named *)

Lemma setupStep_namingInRange st ev st' :
  setupEnabled st ev = true -> setupHandle ev st = returned st' ->
  rosterShape (numTeams st) (numPlayersPerTeam st) (teamData st) ->
  namingInRange st -> namingInRange st'.
Proof.
  intros Hen Hh Hshape Hst. unfold namingInRange in *.
  destruct ev; simpl in Hen, Hh.
  - (* TypeNumTeams *)
    apply onSetupCounts_inSetup in Hen as [_ Hs].
    unfold handleNumTeamsChange in Hh.
    destruct input as [|value|]; [injection Hh as <-; simpl; by rewrite Hs| |injection Hh as <-; by rewrite Hs].
    destruct (0 <=? value)%Z; [|injection Hh as <-; by rewrite Hs].
    apply setTeamDataGen_returned in Hh as (teams & c & _ & ->). simpl.
    by rewrite Hs.
  - (* TypeNumPlayersPerTeam *)
    apply onSetupCounts_inSetup in Hen as [_ Hs].
    unfold handleNumPlayersPerTeamChange in Hh.
    destruct input as [|value|]; [injection Hh as <-; simpl; by rewrite Hs| |injection Hh as <-; by rewrite Hs].
    destruct (0 <=? value)%Z; [|injection Hh as <-; by rewrite Hs].
    apply updateTeamDataGen_returned in Hh as (teams & c & _ & ->). simpl.
    by rewrite Hs.
  - (* ClickGoToNamingStep *)
    apply andb_true_iff in Hen as [_ Hvalid].
    unfold areCountsValid in Hvalid. apply andb_true_iff in Hvalid as [Hn _].
    apply Nat.ltb_lt in Hn.
    rewrite (handleGoToNamingStep_keeps st Hshape) in Hh.
    injection Hh as <-. simpl. lia.
  - (* ClickBackToSetup *)
    by injection Hh as <-.
  - (* TypeTeamName *)
    unfold handleTeamNameChange in Hh.
    destruct (teamData st !! currentTeamIndex st); [|done]. by injection Hh as <-.
  - (* TypePlayerName *)
    unfold handlePlayerNameChange in Hh.
    destruct (teamData st !! currentTeamIndex st) as [team|]; [|done].
    simpl in Hh. destruct (players team !! playerIndex); [|done].
    by injection Hh as <-.
  - (* ClickNextTeam *)
    injection Hh as <-. unfold handleNextTeam.
    destruct (currentTeamIndex st <? numTeams st - 1) eqn:E; [|done].
    apply Nat.ltb_lt in E. simpl. lia.
  - (* ClickPreviousTeam *)
    injection Hh as <-. unfold handlePreviousTeam.
    destruct (0 <? currentTeamIndex st); [|done]. simpl. intros H.
    specialize (Hst H). lia.
  - (* ClickStartGames *)
    injection Hh as <-. unfold handleStartGamesClick.
    destruct (unnamedCounts st) as [unnamedTeamsCount unnamedPlayersCount].
    destruct (_ || _); [done|]. unfold startTheGames.
    destruct (length _ <? 2); simpl; [done|].
    unfold generateAllRoundRobinMatches. rewrite length_map.
    by destruct (length _ <? 2).
  - (* ClickConfirmStartGames *)
    injection Hh as <-. unfold handleConfirmStartGames, startTheGames.
    destruct (length _ <? 2); simpl; [done|].
    unfold generateAllRoundRobinMatches. rewrite length_map.
    by destruct (length _ <? 2).
  - (* ClickCancelStartGames *)
    by injection Hh as <-.
Qed.

(** X22.  The naming screen always has a team to name, as long as no
    count is typed that [Array] rejects (one above 2^32 - 1).  From a
    state on the counts screen whose team data has [numTeams] teams of
    [numPlayersPerTeam] players (such as the state after
    [handleStartNewLeague]), every such run of the setup handlers that
    ends on the naming stage ends with [currentTeamIndex] below
    [numTeams] and with a team at that index: the buttons for the next
    and the previous team never leave the list, so the test
    [currentTeam &&] that guards the screen succeeds and the name
    handlers find their team. *)
Theorem naming_screen_has_a_team (st st' : State) (evs : list SetupEvent) :
  appStage st = setupCounts ->
  rosterShape (numTeams st) (numPlayersPerTeam st) (teamData st) ->
  withinArrayLimit (numTeams st) -> withinArrayLimit (numPlayersPerTeam st) ->
  Forall typesWithinArrayLimit evs ->
  setupRun evs st = Some st' ->
  appStage st' = namingTeamsAndPlayers ->
  currentTeamIndex st' < numTeams st'
  ∧ is_Some (teamData st' !! currentTeamIndex st').
Proof.
  intros Hstage Hshape Hn Hp Hevs Hrun.
  assert (rosterShape (numTeams st') (numPlayersPerTeam st') (teamData st')
          ∧ namingInRange st') as [[Hlen _] Hin].
  { assert (namingInRange st) as Hinv.
    { intros H. rewrite Hstage in H. discriminate. }
    clear Hstage. revert st Hshape Hn Hp Hinv Hrun.
    induction Hevs as [|ev evs Hev _ IH]; intros st Hshape Hn Hp Hinv; simpl.
    - by intros [= <-].
    - destruct (setupEnabled st ev) eqn:Hen; [|done].
      destruct (setupHandle_returns st ev Hen Hn Hp Hev) as [st1 Hret].
      rewrite Hret. simpl.
      destruct (setupHandle_withinArrayLimit st ev st1) as [Hn1 Hp1];
        [by rewrite Hret|done|done|].
      destruct (setupStep_rosterShape st ev st1 Hen Hret Hshape) as [H1 _].
      apply IH; try done.
      by apply (setupStep_namingInRange st ev st1). }
  intros Hnaming. specialize (Hin Hnaming). split; [done|].
  apply lookup_lt_is_Some. lia.
Qed.

Lemma naming_screen_has_a_team_witness :
  let st := afterSetup sampleSetup in
  appStage st = namingTeamsAndPlayers
  ∧ currentTeamIndex st < numTeams st
  ∧ is_Some (teamData st !! currentTeamIndex st).
Proof.
  intros st.
  assert (appStage st = namingTeamsAndPlayers) as Hn by (vm_compute; reflexivity).
  split; [exact Hn|].
  apply (naming_screen_has_a_team (handleStartNewLeague (initialState ∅)) st
           sampleSetup).
  - reflexivity.
  - split; [reflexivity|]. intros team Ht. by apply elem_of_nil in Ht.
  - vm_compute. discriminate.
  - vm_compute. discriminate.
  - repeat constructor; vm_compute; discriminate.
  - vm_compute. reflexivity.
  - exact Hn.
Defined.

(** *** Handlers fired from the page *)

(** X12.  No handler fails when it is fired from a control that the page
    renders and enables, but for the two count inputs of the setup
    screen.  Every enabled event of the league view and of the screens
    around it has a next state: the reads of [matches[matchIndex]] and
    [matchResults[matchIndex]] that would throw on a missing entry are
    never reached from the user interface.  A handler of the setup
    screens returns when the counts in the state and the count that is
    typed are at most 2^32 - 1.  A larger number of teams makes
    [handleNumTeamsChange] throw at [Array(value)], after it has stored
    the number: the next state holds the number and the old team data.
    With more players per team than that in the state, it throws at
    [Array(numPlayersPerTeam)], after it has stored the number of teams
    and drawn the id of the first team. *)
Theorem enabled_events_never_fail (st : State) :
  (∀ ev, enabled st ev = true -> ∃ st', step st ev st')
  ∧ (∀ ev, setupEnabled st ev = true ->
       withinArrayLimit (numTeams st) ->
       withinArrayLimit (numPlayersPerTeam st) ->
       typesWithinArrayLimit ev ->
       ∃ st', setupHandle ev st = returned st')
  ∧ (∀ value, (maxArrayLength < value)%Z ->
       ∃ st', handleNumTeamsChange (inputNumber value) st = thrown st'
              ∧ numTeams st' = Z.to_nat value
              ∧ teamData st' = teamData st
              ∧ globalIdCounter st' = globalIdCounter st)
  ∧ (∀ value, (0 < value <= maxArrayLength)%Z ->
       ¬ withinArrayLimit (numPlayersPerTeam st) ->
       ∃ st', handleNumTeamsChange (inputNumber value) st = thrown st'
              ∧ numTeams st' = Z.to_nat value
              ∧ teamData st' = teamData st
              ∧ globalIdCounter st' = globalIdCounter st + 1).
Proof.
  split; [|split; [|split]].
  - intros ev Hen. destruct (enabled_handle st ev Hen) as [st' Hst'].
    exists st'. by split.
  - intros ev. apply setupHandle_returns.
  - intros value Hv. unfold handleNumTeamsChange.
    assert ((0 <=? value)%Z = true) as -> by (apply Z.leb_le; unfold maxArrayLength in Hv; lia).
    unfold setTeamDataGen, newTeams, gen_bind, newArray. simpl.
    assert ((Z.of_nat (Z.to_nat value) <=? maxArrayLength)%Z = false) as ->.
    { apply Z.leb_gt. unfold maxArrayLength in *. lia. }
    unfold gen_throw. by eexists.
  - intros value [Hpos Hle] Hp. unfold handleNumTeamsChange.
    assert ((0 <=? value)%Z = true) as -> by (apply Z.leb_le; lia).
    unfold setTeamDataGen, newTeams, gen_bind at 1. simpl.
    rewrite newArray_within by (unfold withinArrayLimit; lia).
    destruct (Z.to_nat value) as [|n] eqn:En; [lia|].
    unfold mapGen. cbn [replicate mapGenFrom]. unfold gen_bind at 1.
    unfold newTeam at 1. unfold gen_bind at 1, generateUniqueId at 1.
    unfold gen_bind at 1, newArray at 1.
    assert ((Z.of_nat (numPlayersPerTeam st) <=? maxArrayLength)%Z = false) as ->.
    { apply Z.leb_gt. unfold withinArrayLimit in Hp. lia. }
    unfold gen_throw. by eexists.
Qed.

Lemma enabled_events_never_fail_witness :
  let st := after sampleSaved in
  let st0 := afterSetup [TypeNumPlayersPerTeam (inputNumber 2)] in
  (∃ st', step st ClickEditResult st')
  ∧ (∃ st', setupHandle (TypeNumTeams (inputNumber 3)) st0 = returned st')
  ∧ (∃ st', handleNumTeamsChange (inputNumber 4294967296) st0 = thrown st'
            ∧ numTeams st' = Z.to_nat 4294967296
            ∧ teamData st' = teamData st0).
Proof.
  intros st st0.
  destruct (enabled_events_never_fail st) as (H1 & _ & _).
  destruct (enabled_events_never_fail st0) as (_ & H2 & H3 & _).
  split; [apply H1; vm_compute; reflexivity|].
  split.
  - apply H2; [vm_compute; reflexivity|vm_compute; discriminate..].
  - destruct (H3 4294967296%Z) as (st' & Hst' & Hn & Ht & _); [reflexivity|].
    exists st'. split; [exact Hst'|]. split; [exact Hn|exact Ht].
Defined.
